(** * Multi-start optimisation of acquisition functions

    A shallow embedding of [botorch/optim/optimize.py]: the restart/batching
    control logic of [optimize_acqf] (joint and sequential paths) and the
    initialisation heuristic [gen_batch_initial_conditions].

    Tensors are dense arrays with a run-time shape, as in torch.  The Python
    code is effectful: it mutates the acquisition function's pending points,
    draws random numbers, emits warnings and calls external collaborators that
    may raise.  All of this is threaded through a state-and-exception monad
    over an explicit [world].

    Conventions of the embedding:
    - [int] arguments are [Z]; tensor entries are an abstract scalar type;
    - every [while] loop takes fuel, and a run that uses it up is [Diverge];
    - the solver, the samplers, the initializers and the acquisition function
      are parameters; they see the pending points and the random state but
      cannot write the pending points, and every call to them is recorded in
      the trace of the world, as is every access of the core to the pending
      points;
    - the recursive call of [optimize_acqf] on the sequential path has
      [sequential=False] and is written as a call of the joint path. *)

From Stdlib Require Import ZArith Lia.
From stdpp Require Import base option list gmap strings.

Local Open Scope string_scope.
Local Open Scope list_scope.
Local Open Scope Z_scope.

(** ** Scalars *)

(** Tensor entries.  The code works on floating-point numbers; the embedding
    only needs their arithmetic, their comparison and the test for
    not-a-number values. *)
Class Scalar (R : Type) := {
  Rzero : R;
  Radd : R → R → R;
  Rsub : R → R → R;
  Rmul : R → R → R;
  Rltb : R → R → bool;
  Risnan : R → bool;
  Scalar_eq_dec :: EqDecision R;
}.

(** The laws of the comparison that the selection of a maximum relies on:
    it is a strict weak order on the values that are numbers.  The
    floating-point comparison obeys them (signed zeros are incomparable, and
    no comparison with a not-a-number value holds). *)
Class ScalarOrder (R : Type) `{Scalar R} : Prop := {
  Rltb_irrefl : ∀ x, Rltb x x = false;
  Rltb_trans : ∀ x y z, Rltb x y = true → Rltb y z = true → Rltb x z = true;
  Rltb_cotrans : ∀ x y z,
    Risnan z = false → Rltb x y = true → Rltb x z = true ∨ Rltb z y = true;
}.

#[export] Instance Z_Scalar : Scalar Z := {
  Rzero := 0; Radd := Z.add; Rsub := Z.sub; Rmul := Z.mul; Rltb := Z.ltb;
  Risnan := λ _, false;
}.

(** ** Outcomes of Python computations *)

Inductive exn :=
  | NotImplementedError (msg : string)
  | RuntimeError
  | ValueError
  | IndexError
  | TypeError
  | UnboundLocalError
  | ExternalError (msg : string).

(** A computation returns, raises, or is still running when the fuel given to
    its [while] loops is used up. *)
Inductive outcome (A : Type) :=
  | Ret (a : A)
  | Raise (e : exn)
  | Diverge.
Arguments Ret {A} a.
Arguments Raise {A} e.
Arguments Diverge {A}.

#[export] Instance exn_eq_dec : EqDecision exn.
Proof. solve_decision. Defined.

(** ** Tensors *)

Section Tensors.
Context {R : Type} `{Scalar R}.

Record tensor := mkTensor { shape : list nat; data : list R }.

#[export] Instance tensor_eq_dec : EqDecision tensor.
Proof. solve_decision. Defined.

Definition numel (sh : list nat) : nat := foldr Nat.mul 1%nat sh.

(** A tensor holds exactly as many entries as its shape says. *)
Definition wf_tensor (t : tensor) : Prop := length (data t) = numel (shape t).

(** A 0-dimensional tensor. *)
Definition scalar (x : R) : tensor := mkTensor [] [x].

(** [torch.tensor([])]. *)
Definition empty_tensor : tensor := mkTensor [0%nat] [].

(** [t[i]] for a non-negative integer index. *)
Definition select0 (t : tensor) (i : nat) : outcome tensor :=
  match shape t with
  | [] => Raise IndexError
  | n :: sh =>
      if (i <? n)%nat
      then Ret (mkTensor sh (take (numel sh) (drop (i * numel sh) (data t))))
      else Raise IndexError
  end.

(** Python's normalisation of a slice bound against a length. *)
Definition slice_index (n : nat) (i : Z) : nat :=
  Z.to_nat (if i <? 0 then Z.max (i + Z.of_nat n) 0 else Z.min i (Z.of_nat n)).

(** [t[s:e]]. *)
Definition slice0 (t : tensor) (s e : Z) : outcome tensor :=
  match shape t with
  | [] => Raise IndexError
  | n :: sh =>
      let s' := slice_index n s in
      let e' := slice_index n e in
      Ret (mkTensor ((e' - s')%nat :: sh)
             (take ((e' - s') * numel sh) (drop (s' * numel sh) (data t))))
  end.

Definition first_dim (t : tensor) : nat := hd 0%nat (shape t).

(** The row shape of [t] when it has a leading axis. *)
Definition row_shape (t : tensor) : option (list nat) :=
  match shape t with [] => None | _ :: sh => Some sh end.

(** [torch.cat(ts)] along the leading axis: the list is non-empty, no tensor
    is 0-dimensional, and all agree on the remaining axes.  (The exemption
    that torch keeps for empty vectors of shape [(0,)] is not modelled.)  The
    class of the exception on an empty list is that of current torch
    releases, [ValueError]; earlier releases raised [RuntimeError]. *)
Definition cat0 (ts : list tensor) : outcome tensor :=
  match ts with
  | [] => Raise ValueError
  | t :: _ =>
      match row_shape t with
      | None => Raise RuntimeError
      | Some sh =>
          if forallb (λ u, bool_decide (row_shape u = Some sh)) ts
          then Ret (mkTensor (sum_list (first_dim <$> ts) :: sh)
                      (concat (data <$> ts)))
          else Raise RuntimeError
      end
  end.

(** [torch.stack(ts)]: a new leading axis over tensors of one shape. *)
Definition stack0 (ts : list tensor) : outcome tensor :=
  match ts with
  | [] => Raise RuntimeError
  | t :: _ =>
      if forallb (λ u, bool_decide (shape u = shape t)) ts
      then Ret (mkTensor (length ts :: shape t) (concat (data <$> ts)))
      else Raise RuntimeError
  end.

(** The shape of [t] split around the axis [-2]:
    [(leading axes, size of axis -2, size of axis -1)]. *)
Definition split_m2 (sh : list nat) : option (list nat * nat * nat) :=
  match reverse sh with
  | d :: n :: pre => Some (reverse pre, n, d)
  | _ => None
  end.

(** The [b]-th block of [n * d] entries of [t]. *)
Definition block (sz b : nat) (t : tensor) : list R :=
  take sz (drop (b * sz) (data t)).

(** [torch.cat(ts, dim=-2)]: every tensor has at least two axes and all agree
    on every axis but the last-but-one. *)
Definition cat_m2 (ts : list tensor) : outcome tensor :=
  match ts with
  | [] => Raise ValueError
  | t :: _ =>
      match split_m2 (shape t) with
      | None => Raise IndexError
      | Some (pre, _, d) =>
          if forallb (λ u, match split_m2 (shape u) with
                           | Some (pre', _, d') =>
                               bool_decide (pre' = pre) && bool_decide (d' = d)
                           | None => false
                           end) ts
          then
            let rows u := match split_m2 (shape u) with
                          | Some (_, n, _) => n | None => 0%nat end in
            Ret (mkTensor (pre ++ [sum_list (rows <$> ts); d])
                   (concat ((λ b, concat ((λ u, block (rows u * d) b u) <$> ts))
                              <$> seq 0 (numel pre))))
          else Raise RuntimeError
      end
  end.

(** [t.view(-1)]: the entries in row-major order. *)
Definition view_flat (t : tensor) : list R := data t.

(** [torch.rand(k).view(n, q, d)] applied to the [k] drawn entries. *)
Definition view3 (xs : list R) (n q : Z) (d : nat) : outcome tensor :=
  if bool_decide (0 ≤ n ∧ 0 ≤ q ∧ Z.of_nat (length xs) = n * q * Z.of_nat d)
  then Ret (mkTensor [Z.to_nat n; Z.to_nat q; d] xs)
  else Raise RuntimeError.

(** [torch.argmax] of a vector: the first index holding the largest entry
    (the tie-break that torch documents).  A not-a-number value counts as
    larger than every number, so that the first of them, if there is one, is
    what is found; the reduction of an empty vector is refused with an
    [IndexError]. *)
Fixpoint argmax_from (best_i : nat) (best : R) (i : nat) (l : list R) : nat :=
  match l with
  | [] => best_i
  | x :: l' =>
      if negb (Risnan best) && (Risnan x || Rltb best x)
      then argmax_from i x (S i) l'
      else argmax_from best_i best (S i) l'
  end.

Definition argmax (l : list R) : outcome nat :=
  match l with
  | [] => Raise IndexError
  | x :: l' => Ret (argmax_from 0 x 1 l')
  end.

(** Entry-wise [op a b] of two tensors of one shape. *)
Definition pointwise (op : R → R → R) (a b : tensor) : outcome tensor :=
  if bool_decide (shape a = shape b)
  then Ret (mkTensor (shape a) (zip_with op (data a) (data b)))
  else Raise RuntimeError.

(** Entry-wise [op v t] where the vector [v] is broadcast along the last axis
    of [t] (the only broadcasting the code relies on). *)
Definition broadcast_last (op : R → R → R) (v t : tensor) : outcome tensor :=
  match shape v with
  | [d] =>
      if bool_decide (last (shape t) = Some d)
      then Ret (mkTensor (shape t)
                  (imap (λ k x, match data v !! (k `mod` d)%nat with
                                | Some b => op b x
                                | None => x
                                end) (data t)))
      else Raise RuntimeError
  | _ => Raise RuntimeError
  end.

(** [t.shape[0]] and [t.shape[-1]]. *)
Definition shape_first (t : tensor) : outcome Z :=
  match shape t with
  | [] => Raise IndexError
  | n :: _ => Ret (Z.of_nat n)
  end.

Definition shape_last (t : tensor) : outcome nat :=
  match last (shape t) with
  | None => Raise IndexError
  | Some d => Ret d
  end.

End Tensors.
Arguments tensor R : clear implicits.

(** ** Options, warnings and the world *)

Inductive warning_category :=
  | BadInitialCandidatesWarning
  | SamplingWarning
  | OtherWarning.

#[export] Instance warning_category_eq_dec : EqDecision warning_category.
Proof. solve_decision. Defined.

Definition is_bad_initial (c : warning_category) : bool :=
  match c with BadInitialCandidatesWarning => true | _ => false end.

Section Model.
Context {R : Type} `{Scalar R}.
(** The state of torch's global random number generator. *)
Context {G : Type}.

(** Values of the [options] dictionary: [Union[bool, float, int, str]]. *)
Inductive opt_value :=
  | OBool (b : bool)
  | OInt (z : Z)
  | OFloat (x : R)
  | OStr (s : string).

Abbreviation options := (gmap string opt_value).
Abbreviation constraints := (list (tensor R * tensor R * R)).
Abbreviation fixed_features := (gmap Z R).

(** Python truthiness of an option value. *)
Definition truthy (v : opt_value) : bool :=
  match v with
  | OBool b => b
  | OInt z => negb (z =? 0)
  | OFloat x => negb (bool_decide (x = Rzero))
  | OStr s => negb (bool_decide (s = ""))
  end.

(** Options read at an [int] annotation ([batch_limit: int],
    [seed: Optional[int]]); [bool] is a subclass of [int], any other value is
    reported as a [TypeError] at the read. *)
Definition as_int (v : opt_value) : outcome Z :=
  match v with
  | OInt z => Ret z
  | OBool b => Ret (Z.b2z b)
  | _ => Raise TypeError
  end.

Definition get_int (o : options) (k : string) : outcome (option Z) :=
  match o !! k with
  | None => Ret None
  | Some v =>
      match as_int v with
      | Ret z => Ret (Some z)
      | Raise e => Raise e
      | Diverge => Diverge
      end
  end.

(** Calls that leave the core, and accesses to the pending points. *)
Inductive event :=
  | EvGetPending
  | EvSetPending (X : option (tensor R))
  | EvSobol (bounds : tensor R) (n q : Z) (seed : option Z)
  | EvRand (count : Z) (seed : option Z)
  | EvAcq (X : tensor R)
  | EvInit (nonneg : bool) (X Y : tensor R) (n : Z) (kwargs : options)
  | EvSolver (initial_conditions : tensor R) (opts : options)
  | EvPost (X : tensor R).

Record world := mkWorld {
  X_pending : option (tensor R);
  rng : G;
  warnings : list (warning_category * string);
  trace : list event;
}.

(** An acquisition function: its forward pass (which conditions on the
    pending points), [is_nonnegative] of it, and whether it is an
    [AnalyticAcquisitionFunction]. *)
Record AcquisitionFunction := {
  forward : option (tensor R) → tensor R → outcome (tensor R);
  is_nonnegative : bool;
  is_analytic : bool;
}.

(** The collaborators of the module: the scipy-based solver, the samplers,
    the two initializer strategies, and the two settings the code reads.  The
    initializers report the warnings they emit. *)
Record externals := {
  gen_candidates_scipy :
    AcquisitionFunction → option (tensor R) → tensor R → tensor R →
    tensor R → options → option constraints → option constraints →
    option fixed_features → outcome (tensor R * tensor R);
  draw_sobol_samples :
    tensor R → Z → Z → option Z → G → outcome (tensor R) * G;
  torch_rand : option Z → Z → G → outcome (list R) * G;
  initialize_q_batch :
    tensor R → tensor R → Z → options → G →
    outcome (tensor R) * list warning_category * G;
  initialize_q_batch_nonneg :
    tensor R → tensor R → Z → options → G →
    outcome (tensor R) * list warning_category * G;
  SobolEngine_MAXDIM : Z;
  settings_debug_on : bool;
}.

(** *** The monad *)

Definition M (A : Type) : Type := world → outcome A * world.

#[export] Instance M_ret : MRet M := λ A a w, (Ret a, w).
#[export] Instance M_bind : MBind M := λ A B f m w,
  match m w with
  | (Ret a, w') => f a w'
  | (Raise e, w') => (Raise e, w')
  | (Diverge, w') => (Diverge, w')
  end.

Definition raise {A} (e : exn) : M A := λ w, (Raise e, w).
Definition diverge {A} : M A := λ w, (Diverge, w).
Definition lift {A} (o : outcome A) : M A := λ w, (o, w).

Definition log (ev : event) (w : world) : world :=
  mkWorld (X_pending w) (rng w) (warnings w) (trace w ++ [ev]).

(** [warnings.warn(msg, category)]. *)
Definition warn (c : warning_category) (msg : string) : M unit := λ w,
  (Ret tt, mkWorld (X_pending w) (rng w) (warnings w ++ [(c, msg)]) (trace w)).

(** Modelled from the spec: the acquisition function's pending-points field
    with its [get] accessor (the attribute [X_pending]). *)
Definition get_X_pending : M (option (tensor R)) := λ w,
  (Ret (X_pending w), log EvGetPending w).

(** Modelled from the spec: the [set] accessor of the pending-points field,
    [set_X_pending], which overwrites the field. *)
Definition set_X_pending (X : option (tensor R)) : M unit := λ w,
  (Ret tt, mkWorld X (rng w) (warnings w) (trace w ++ [EvSetPending X])).

(** *** Calls to the collaborators *)

Section Code.
Context (E : externals).
(** Iterations granted to each [while] loop. *)
Context (fuel : nat).

Definition call_acq (acq : AcquisitionFunction) (X : tensor R)
  : M (tensor R) := λ w,
  (forward acq (X_pending w) X, log (EvAcq X) w).

Definition call_sobol (bounds : tensor R) (n q : Z) (seed : option Z)
  : M (tensor R) := λ w,
  let '(r, g) := draw_sobol_samples E bounds n q seed (rng w) in
  (r, mkWorld (X_pending w) g (warnings w)
        (trace w ++ [EvSobol bounds n q seed])).

(** [with manual_seed(seed): torch.rand(count)]. *)
Definition call_rand (seed : option Z) (count : Z) : M (list R) := λ w,
  let '(r, g) := torch_rand E seed count (rng w) in
  (r, mkWorld (X_pending w) g (warnings w) (trace w ++ [EvRand count seed])).

(** [init_func(X=X, Y=Y, n=n, **init_kwargs)] under
    [warnings.catch_warnings(record=True)]: the warnings are returned, not
    emitted. *)
Definition call_init (nonneg : bool) (X Y : tensor R) (n : Z)
    (kwargs : options) : M (tensor R * list warning_category) := λ w,
  let init := if nonneg then initialize_q_batch_nonneg E
              else initialize_q_batch E in
  let '(r, ws, g) := init X Y n kwargs (rng w) in
  (match r with
   | Ret b => Ret (b, ws)
   | Raise e => Raise e
   | Diverge => Diverge
   end,
   mkWorld (X_pending w) g (warnings w)
     (trace w ++ [EvInit nonneg X Y n kwargs])).

Definition call_solver (acq : AcquisitionFunction)
    (initial_conditions lower_bounds upper_bounds : tensor R)
    (opts : options) (inequality_constraints equality_constraints :
      option constraints) (fixed : option fixed_features)
  : M (tensor R * tensor R) := λ w,
  (gen_candidates_scipy E acq (X_pending w) initial_conditions lower_bounds
     upper_bounds opts inequality_constraints equality_constraints fixed,
   log (EvSolver initial_conditions opts) w).

Definition call_post (f : tensor R → outcome (tensor R)) (X : tensor R)
  : M (tensor R) := λ w, (f X, log (EvPost X) w).

(** *** [gen_batch_initial_conditions] *)

Definition max_factor : Z := 5.

(** The messages of the two warnings (the numbers that the first one
    quotes are left out). *)
Definition sampling_msg : string :=
  "Sample dimension q*d exceeding Sobol max dimension. Using iid samples instead.".

Definition unable_msg : string :=
  "Unable to find non-zero acquisition function values - initial conditions are being selected randomly.".

(** Lines 317-324: the raw samples of one attempt. *)
Definition draw_X_rnd (bounds : tensor R) (n q : Z) (d : nat) (dim : Z)
    (seed : option Z) : M (tensor R) :=
  if dim <=? SobolEngine_MAXDIM E then call_sobol bounds n q seed
  else
    xs ← call_rand seed (n * dim);
    X_rnd_nlzd ← lift (view3 xs n q d);
    lo ← lift (select0 bounds 0);
    hi ← lift (select0 bounds 1);
    diff ← lift (pointwise Rsub hi lo);
    scaled ← lift (broadcast_last Rmul diff X_rnd_nlzd);
    lift (broadcast_last Radd lo scaled).

(** Lines 328-334: scoring in sub-batches of [batch_limit] rows. *)
Fixpoint score_batches (k : nat) (acq : AcquisitionFunction)
    (X_rnd : tensor R) (rows batch_limit start_idx : Z)
    (Y_rnd_list : list (tensor R)) : M (list (tensor R)) :=
  if start_idx <? rows then
    match k with
    | O => diverge
    | S k' =>
        let end_idx := Z.min (start_idx + batch_limit) rows in
        X ← lift (slice0 X_rnd start_idx end_idx);
        Y_rnd_curr ← call_acq acq X;
        score_batches k' acq X_rnd rows batch_limit (start_idx + batch_limit)
          (Y_rnd_list ++ [Y_rnd_curr])
    end
  else mret Y_rnd_list.

(** Lines 316-338: one pass of the body of the retry loop up to the call of
    the initializer.  Returns the selected batch, the warnings recorded and
    the value of [batch_limit] after the pass. *)
Definition sampling_attempt (acq : AcquisitionFunction) (bounds : tensor R)
    (q : Z) (d : nat) (dim : Z) (num_restarts raw_samples : Z)
    (nonneg : bool) (init_kwargs : options)
    (factor : Z) (seed batch_limit : option Z)
  : M (tensor R * list warning_category * Z) :=
  let n := raw_samples * factor in
  X_rnd ← draw_X_rnd bounds n q d dim seed;
  rows ← lift (shape_first X_rnd);
  let batch_limit := default rows batch_limit in
  Y_rnd_list ← score_batches fuel acq X_rnd rows batch_limit 0 [];
  Y_rnd ← lift (cat0 Y_rnd_list);
  '(batch_initial_conditions, ws) ←
    call_init nonneg X_rnd Y_rnd num_restarts init_kwargs;
  mret (batch_initial_conditions, ws, batch_limit).

(** Lines 314-350: the retry loop and what follows it. *)
Fixpoint retry_loop (k : nat) (acq : AcquisitionFunction) (bounds : tensor R)
    (q : Z) (d : nat) (dim : Z) (num_restarts raw_samples : Z)
    (nonneg : bool) (init_kwargs : options)
    (factor : Z) (seed batch_limit : option Z)
    (batch_initial_conditions : option (tensor R)) : M (tensor R) :=
  if factor <? max_factor then
    match k with
    | O => diverge
    | S k' =>
        '(bic, ws, batch_limit') ←
          sampling_attempt acq bounds q d dim num_restarts raw_samples nonneg
            init_kwargs factor seed batch_limit;
        if negb (existsb is_bad_initial ws) then mret bic
        else
          let '(factor', seed') :=
            if factor <? max_factor then (factor + 1, Z.succ <$> seed)
            else (factor, seed) in
          retry_loop k' acq bounds q d dim num_restarts raw_samples nonneg
            init_kwargs factor' seed' (Some batch_limit') (Some bic)
    end
  else
    _ ← warn BadInitialCandidatesWarning unable_msg;
    match batch_initial_conditions with
    | Some b => mret b
    | None => raise UnboundLocalError
    end.

(** Lines 294-302: the initializer strategy ([true] for
    [initialize_q_batch_nonneg]) and its keyword arguments. *)
Definition select_initializer (options : gmap string opt_value)
    (acq : AcquisitionFunction) : bool * gmap string opt_value :=
  let init_kwargs : gmap string opt_value :=
    match options !! "eta" with
    | Some v => {[ "eta" := v ]}
    | None => ∅
    end in
  let nonneg :=
    match options !! "nonnegative" with
    | Some v => truthy v || is_nonnegative acq
    | None => is_nonnegative acq
    end in
  if nonneg then
    (true, match options !! "alpha" with
           | Some v => <[ "alpha" := v ]> init_kwargs
           | None => init_kwargs
           end)
  else (false, init_kwargs).

(** Lines 307-312: the diagnostic on the sampling dimension. *)
Definition dimension_check (dim : Z) : M unit :=
  if (SobolEngine_MAXDIM E <? dim) && settings_debug_on E
  then warn SamplingWarning sampling_msg
  else mret tt.

Definition gen_batch_initial_conditions (acq : AcquisitionFunction)
    (bounds : tensor R) (q : option Z) (num_restarts raw_samples : Z)
    (options : option (gmap string opt_value)) : M (tensor R) :=
  let options := default ∅ options in
  seed ← lift (get_int options "seed");
  batch_limit ← lift (get_int options "batch_limit");
  let factor := 1 in
  let '(nonneg, init_kwargs) := select_initializer options acq in
  let q := default 1 q in
  d ← lift (shape_last bounds);
  let dim := Z.of_nat d * q in
  _ ← dimension_check dim;
  retry_loop fuel acq bounds q d dim num_restarts raw_samples nonneg
    init_kwargs factor seed batch_limit None.

(** *** [optimize_acqf] *)

(** The options forwarded to the solver: every entry but [batch_limit] and
    [nonnegative]. *)
Definition solver_options (opts : gmap string opt_value)
  : gmap string opt_value :=
  filter (λ kv, kv.1 ≠ "batch_limit" ∧ kv.1 ≠ "nonnegative") opts.

(** Lines 144-164: the solver is run on the restarts in sub-batches of
    [batch_limit] rows. *)
Fixpoint solve_batches (k : nat) (acq : AcquisitionFunction)
    (bounds : tensor R) (opts : gmap string opt_value)
    (inequality_constraints equality_constraints : option constraints)
    (fixed : option fixed_features) (batch_initial_conditions : tensor R)
    (num_restarts batch_limit start_idx : Z)
    (batch_candidates_list batch_acq_values_list : list (tensor R))
  : M (list (tensor R) * list (tensor R)) :=
  if start_idx <? num_restarts then
    match k with
    | O => diverge
    | S k' =>
        let end_idx := Z.min (start_idx + batch_limit) num_restarts in
        ics ← lift (slice0 batch_initial_conditions start_idx end_idx);
        lo ← lift (select0 bounds 0);
        hi ← lift (select0 bounds 1);
        '(batch_candidates_curr, batch_acq_values_curr) ←
          call_solver acq ics lo hi (solver_options opts)
            inequality_constraints equality_constraints fixed;
        solve_batches k' acq bounds opts inequality_constraints
          equality_constraints fixed batch_initial_conditions num_restarts
          batch_limit (start_idx + batch_limit)
          (batch_candidates_list ++ [batch_candidates_curr])
          (batch_acq_values_list ++ [batch_acq_values_curr])
    end
  else mret (batch_candidates_list, batch_acq_values_list).

(** Lines 129-175: the joint path, taken when [sequential] is false. *)
Definition optimize_acqf_joint (acq : AcquisitionFunction) (bounds : tensor R)
    (q num_restarts raw_samples : Z) (options : option (gmap string opt_value))
    (inequality_constraints equality_constraints : option constraints)
    (fixed : option fixed_features)
    (post_processing_func : option (tensor R → outcome (tensor R)))
    (batch_initial_conditions : option (tensor R))
    (return_best_only : bool) : M (tensor R * tensor R) :=
  let options := default ∅ options in
  batch_initial_conditions ←
    match batch_initial_conditions with
    | None =>
        gen_batch_initial_conditions acq bounds
          (if is_analytic acq then None else Some q)
          num_restarts raw_samples (Some options)
    | Some b => mret b
    end;
  batch_limit ←
    match options !! "batch_limit" with
    | None => mret num_restarts
    | Some v => lift (as_int v)
    end;
  '(batch_candidates_list, batch_acq_values_list) ←
    solve_batches fuel acq bounds options inequality_constraints
      equality_constraints fixed batch_initial_conditions num_restarts
      batch_limit 0 [] [];
  batch_candidates ← lift (cat0 batch_candidates_list);
  batch_acq_values ← lift (cat0 batch_acq_values_list);
  batch_candidates ←
    match post_processing_func with
    | Some f => call_post f batch_candidates
    | None => mret batch_candidates
    end;
  if return_best_only then
    best ← lift (argmax (view_flat batch_acq_values));
    c ← lift (select0 batch_candidates best);
    v ← lift (select0 batch_acq_values best);
    mret (c, v)
  else mret (batch_candidates, batch_acq_values).

(** Lines 101-124: the greedy loop.  Each pass is the recursive call of
    [optimize_acqf] with [q=1], [batch_initial_conditions=None],
    [return_best_only=True] and [sequential=False], which runs the joint
    path. *)
Fixpoint sequential_loop (k : nat) (acq : AcquisitionFunction)
    (bounds : tensor R) (num_restarts raw_samples : Z)
    (options : gmap string opt_value)
    (inequality_constraints equality_constraints : option constraints)
    (fixed : option fixed_features)
    (post_processing_func : option (tensor R → outcome (tensor R)))
    (base_X_pending : option (tensor R))
    (candidate_list acq_value_list : list (tensor R)) (candidates : tensor R)
  : M (tensor R * list (tensor R)) :=
  match k with
  | O => mret (candidates, acq_value_list)
  | S k' =>
      '(candidate, acq_value) ←
        optimize_acqf_joint acq bounds 1 num_restarts raw_samples
          (Some options) inequality_constraints equality_constraints fixed
          post_processing_func None true;
      let candidate_list := candidate_list ++ [candidate] in
      let acq_value_list := acq_value_list ++ [acq_value] in
      candidates ← lift (cat_m2 candidate_list);
      pending ←
        match base_X_pending with
        | Some base => lift (cat_m2 [base; candidates])
        | None => mret candidates
        end;
      _ ← set_X_pending (Some pending);
      sequential_loop k' acq bounds num_restarts raw_samples options
        inequality_constraints equality_constraints fixed
        post_processing_func base_X_pending candidate_list acq_value_list
        candidates
  end.

Definition optimize_acqf (acq : AcquisitionFunction) (bounds : tensor R)
    (q num_restarts raw_samples : Z) (options : option (gmap string opt_value))
    (inequality_constraints equality_constraints : option constraints)
    (fixed : option fixed_features)
    (post_processing_func : option (tensor R → outcome (tensor R)))
    (batch_initial_conditions : option (tensor R))
    (return_best_only sequential : bool) : M (tensor R * tensor R) :=
  if sequential then
    if negb return_best_only then
      raise (NotImplementedError
               "return_best_only=False only supported for joint optimization")
    else
      base_X_pending ← get_X_pending;
      '(candidates, acq_value_list) ←
        sequential_loop (Z.to_nat q) acq bounds num_restarts raw_samples
          (default ∅ options) inequality_constraints equality_constraints
          fixed post_processing_func base_X_pending [] [] empty_tensor;
      _ ← set_X_pending base_X_pending;
      acq_values ← lift (stack0 acq_value_list);
      mret (candidates, acq_values)
  else
    optimize_acqf_joint acq bounds q num_restarts raw_samples options
      inequality_constraints equality_constraints fixed post_processing_func
      batch_initial_conditions return_best_only.

(** *** The deprecated entry points *)

(** Lines 178-212.  [DeprecationWarning] is a category other than the two of
    this module. *)
Definition sequential_optimize (acq : AcquisitionFunction) (bounds : tensor R)
    (q num_restarts raw_samples : Z) (options : option (gmap string opt_value))
    (inequality_constraints equality_constraints : option constraints)
    (fixed : option fixed_features)
    (post_processing_func : option (tensor R → outcome (tensor R)))
  : M (tensor R * tensor R) :=
  _ ← warn OtherWarning
        "sequential_optimize is deprecated. Please use optimize_acfq with sequential=True instead.";
  '(candidates, acq_values) ←
    optimize_acqf acq bounds q num_restarts raw_samples options
      inequality_constraints equality_constraints fixed post_processing_func
      None true true;
  mret (candidates, acq_values).

(** Lines 215-251. *)
Definition joint_optimize (acq : AcquisitionFunction) (bounds : tensor R)
    (q num_restarts raw_samples : Z) (options : option (gmap string opt_value))
    (inequality_constraints equality_constraints : option constraints)
    (fixed : option fixed_features)
    (post_processing_func : option (tensor R → outcome (tensor R)))
    (batch_initial_conditions : option (tensor R))
    (return_best_only : bool) : M (tensor R * tensor R) :=
  _ ← warn OtherWarning
        "joint_optimize is deprecated. Please use optimize_acfq instead.";
  '(batch_candidates, batch_acq_values) ←
    optimize_acqf acq bounds q num_restarts raw_samples options
      inequality_constraints equality_constraints fixed post_processing_func
      batch_initial_conditions return_best_only false;
  mret (batch_candidates, batch_acq_values).

End Code.
End Model.

(** ** Vocabulary of the properties *)

Section Specification.
Context {R : Type} `{Scalar R} {G : Type}.
Context (E : @externals R G) (fuel : nat).

Abbreviation world' := (@world R G).
Abbreviation M' := (@M R G).

(** *** Frames and postconditions *)

Definition preserves {A T} (π : world' → T) (m : M' A) : Prop :=
  ∀ w, π (m w).2 = π w.

(** What a computation returns, when it returns, satisfies [P]. *)
Definition returns_sat {A} (m : M' A) (P : A → Prop) : Prop :=
  ∀ w a w', m w = (Ret a, w') → P a.

Definition with_trace (t : list (@event R)) (w : world') : world' :=
  mkWorld (X_pending w) (rng w) (warnings w) t.

(** A computation that never reads the trace: run on another trace it has
    the same outcome and appends the same events. *)
Definition trace_blind {A} (m : M' A) : Prop :=
  ∀ w, ∃ evs, ∀ t,
    m (with_trace t w) = ((m w).1, with_trace (t ++ evs) (m w).2).

(** *** The pending points *)

(** The accesses to the pending points recorded in a trace. *)
Definition is_pending_access (ev : @event R) : bool :=
  match ev with
  | EvGetPending | EvSetPending _ => true
  | _ => false
  end.

Definition pending_accesses (tr : list (@event R)) : list (@event R) :=
  filter (λ ev, is_pending_access ev = true) tr.

(** The pending points together with the record of accesses to them. *)
Definition pending_view (w : world') : option (tensor R) * list (@event R) :=
  (X_pending w, pending_accesses (trace w)).

(** *** Best-only selection *)

(** [i] is the first index of [l] that holds its largest entry, [m]. *)
Definition is_first_max (l : list R) (i : nat) (m : R) : Prop :=
  l !! i = Some m ∧
  (∀ j y, l !! j = Some y → Rltb m y = false) ∧
  (∀ j y, (j < i)%nat → l !! j = Some y → Rltb y m = true).

(** Lines 172-173: the selection of the best restart. *)
Definition pick_best (CV : tensor R * tensor R) : M' (tensor R * tensor R) :=
  best ← lift (argmax (view_flat CV.2));
  c ← lift (select0 CV.1 best);
  v ← lift (select0 CV.2 best);
  mret (c, v).

(** *** The retry loop *)

(** The sampler calls recorded in a trace. *)
Definition is_sampling (ev : @event R) : bool :=
  match ev with
  | EvSobol _ _ _ _ | EvRand _ _ => true
  | _ => false
  end.

Definition sampling_events (w : world') : list (@event R) :=
  filter (λ ev, is_sampling ev = true) (trace w).

(** The sampler call of an attempt that draws [n] raw samples under [seed]. *)
Definition sample_event (bounds : tensor R) (q dim n : Z) (seed : option Z)
  : @event R :=
  if dim <=? SobolEngine_MAXDIM E then EvSobol bounds n q seed
  else EvRand (n * dim) seed.

(** The sampler calls of [c] consecutive attempts that start at the
    multiplier [factor] and at [seed]. *)
Fixpoint schedule (c : nat) (bounds : tensor R) (q dim raw factor : Z)
    (seed : option Z) : list (@event R) :=
  match c with
  | O => []
  | S c' =>
      sample_event bounds q dim (raw * factor) seed ::
      schedule c' bounds q dim raw (factor + 1) (Z.succ <$> seed)
  end.

(** The sampler calls of the four attempts the loop can make: the [k]-th
    draws [raw_samples * k] samples under the seed [seed + (k - 1)]. *)
Definition attempt_schedule (bounds : tensor R) (q dim raw : Z)
    (seed : option Z) : list (@event R) :=
  [ sample_event bounds q dim (raw * 1) seed;
    sample_event bounds q dim (raw * 2) ((λ z, z + 1) <$> seed);
    sample_event bounds q dim (raw * 3) ((λ z, z + 2) <$> seed);
    sample_event bounds q dim (raw * 4) ((λ z, z + 3) <$> seed) ].

(** The [SamplingWarning] diagnostics emitted so far. *)
Definition sampling_warnings (w : world')
  : list (warning_category * string) :=
  filter (λ x, x.1 = SamplingWarning) (warnings w).

(** The variables of the retry loop. *)
Record retry_state := {
  rs_factor : Z;
  rs_seed : option Z;
  rs_batch_limit : option Z;
  rs_last : option (tensor R);
}.

Section RetryLoop.
Context (acq : @AcquisitionFunction R) (bounds : tensor R) (q : Z) (d : nat)
  (dim nr raw : Z) (nonneg : bool) (kw : gmap string (@opt_value R)).

Definition attempt (s : retry_state)
  : M' (tensor R * list warning_category * Z) :=
  sampling_attempt E fuel acq bounds q d dim nr raw nonneg kw (rs_factor s)
    (rs_seed s) (rs_batch_limit s).

Definition loop (k : nat) (s : retry_state) : M' (tensor R) :=
  retry_loop E fuel k acq bounds q d dim nr raw nonneg kw (rs_factor s)
    (rs_seed s) (rs_batch_limit s) (rs_last s).

(** One pass of the loop in which the initializer signals degenerate
    candidates. *)
Definition degenerate_step (x y : retry_state * world') : Prop :=
  ∃ b ws bl',
    rs_factor x.1 < max_factor ∧
    attempt x.1 x.2 = (Ret (b, ws, bl'), y.2) ∧
    existsb is_bad_initial ws = true ∧
    y.1 = {| rs_factor := rs_factor x.1 + 1;
             rs_seed := Z.succ <$> rs_seed x.1;
             rs_batch_limit := Some bl';
             rs_last := Some b |}.

(** The step relation as a function. *)
Definition degenerate_next (x : retry_state * world')
  : option (retry_state * world') :=
  match attempt x.1 x.2 with
  | (Ret (b, ws, bl'), w') =>
      if (rs_factor x.1 <? max_factor) && existsb is_bad_initial ws
      then Some ({| rs_factor := rs_factor x.1 + 1;
                    rs_seed := Z.succ <$> rs_seed x.1;
                    rs_batch_limit := Some bl';
                    rs_last := Some b |}, w')
      else None
  | _ => None
  end.

Fixpoint degenerate_run (j : nat) (x : retry_state * world')
  : option (retry_state * world') :=
  match j with
  | O => Some x
  | S j' =>
      match degenerate_next x with
      | Some y => degenerate_run j' y
      | None => None
      end
  end.

End RetryLoop.

(** *** Sub-batches and shapes *)

(** The sub-batch holding restart [j] alone, [t[j:j+1]]. *)
Definition row_of (t : tensor R) (j : nat) : tensor R :=
  let sh := tail (shape t) in
  mkTensor (1%nat :: sh) (take (numel sh) (drop (j * numel sh) (data t))).

(** The initial conditions passed to the solver, in the order of the
    calls. *)
Definition solver_calls (w : world') : list (tensor R) :=
  omap (λ ev, match ev with EvSolver X _ => Some X | _ => None end) (trace w).

Section Solver.
Context (acq : @AcquisitionFunction R) (lo hi : tensor R)
  (opts : gmap string (@opt_value R))
  (ineq eq : option (list (tensor R * tensor R * R)))
  (ff : option (gmap Z R)) (pending : option (tensor R)).

(** The solver on a sub-batch of initial conditions. *)
Definition solve (X : tensor R) : outcome (tensor R * tensor R) :=
  gen_candidates_scipy E acq pending X lo hi (solver_options opts) ineq eq ff.

End Solver.

(** The shape contracts of the collaborators: the solver returns candidates
    of the shape of its initial conditions, the low-discrepancy sampler
    returns [n x q x d] samples, and the initializers select [n] of the raw
    samples. *)
Definition shape_contracts : Prop :=
  (∀ acq p (X lo hi : tensor R) o i e f (c v : tensor R),
     gen_candidates_scipy E acq p X lo hi o i e f = Ret (c, v) →
     shape c = shape X) ∧
  (∀ (b : tensor R) n q seed g (X : tensor R) g' d,
     draw_sobol_samples E b n q seed g = (Ret X, g') →
     shape_last b = Ret d →
     shape X = [Z.to_nat n; Z.to_nat q; d]) ∧
  (∀ (nonneg : bool) (X Y : tensor R) n kw g (b : tensor R) ws g',
     (if nonneg then initialize_q_batch_nonneg E else initialize_q_batch E)
       X Y n kw g = (Ret b, ws, g') →
     shape b = Z.to_nat n :: tail (shape X)).

(** *** The events of a run *)

(** Every event that a run of [m] adds to the trace satisfies [P]. *)
Definition emits_only {A} (P : @event R → Prop) (m : M' A) : Prop :=
  ∀ w, ∃ evs, trace (m w).2 = trace w ++ evs ∧ Forall P evs.

(** A solver call is passed the entries of [opts] other than [batch_limit]
    and [nonnegative], and only those. *)
Definition solver_sees (opts : gmap string (@opt_value R)) (ev : @event R)
  : Prop :=
  match ev with
  | EvSolver _ o =>
      ∀ k, o !! k =
           if bool_decide (k = "batch_limit" ∨ k = "nonnegative") then None
           else opts !! k
  | _ => True
  end.

(** An initializer call asks for [n] points, by the non-negative strategy
    exactly when the option [nonnegative] is truthy or the acquisition
    function is non-negative, and is passed [eta] and, for the non-negative
    strategy, [alpha], when the options hold them, and nothing else. *)
Definition init_call_of (opts : gmap string (@opt_value R))
    (acq : @AcquisitionFunction R) (n : Z) (ev : @event R) : Prop :=
  match ev with
  | EvInit nn _ _ n' kw =>
      n' = n ∧
      (nn = true ↔
       (∃ v, opts !! "nonnegative" = Some v ∧ truthy v = true) ∨
       is_nonnegative acq = true) ∧
      ∀ k, kw !! k =
           if bool_decide (k = "eta") then opts !! "eta"
           else if bool_decide (k = "alpha") && nn then opts !! "alpha"
           else None
  | _ => True
  end.

(** A sampler call draws [q]-batches within [bounds]: the low-discrepancy
    sampler is asked for them, the uniform one for a multiple of [d * q]
    numbers, [d] being the last axis of [bounds]. *)
Definition sampler_call_for (bounds : tensor R) (q : Z) (ev : @event R)
  : Prop :=
  match ev with
  | EvSobol b _ q' _ => b = bounds ∧ q' = q
  | EvRand count _ =>
      ∃ n d, shape_last bounds = Ret d ∧ count = n * (Z.of_nat d * q)
  | _ => True
  end.

(** A solver call, or an evaluation of the acquisition function, on at most
    [limit] rows. *)
Definition solver_rows_within (limit : Z) (ev : @event R) : Prop :=
  match ev with
  | EvSolver X _ => Z.of_nat (first_dim X) ≤ limit
  | _ => True
  end.

Definition acq_rows_within (limit : Z) (ev : @event R) : Prop :=
  match ev with
  | EvAcq X => Z.of_nat (first_dim X) ≤ limit
  | _ => True
  end.

(** A call of the solver or of the post-processing function. *)
Definition is_solver_or_post (ev : @event R) : Prop :=
  match ev with
  | EvSolver _ _ | EvPost _ => True
  | _ => False
  end.

(** The arguments of the calls of the post-processing function, in the order
    of the calls. *)
Definition post_calls (w : world') : list (tensor R) :=
  omap (λ ev, match ev with EvPost X => Some X | _ => None end) (trace w).

(** An event other than a call of the solver or of the post-processing
    function. *)
Definition not_solver_or_post (ev : @event R) : Prop :=
  match ev with EvSolver _ _ | EvPost _ => False | _ => True end.

(** *** The results of the sub-batches *)

(** [i] is the index of the first not-a-number value of [l]. *)
Definition is_first_nan (l : list R) (i : nat) : Prop :=
  (∃ x, l !! i = Some x ∧ Risnan x = true) ∧
  (∀ j y, (j < i)%nat → l !! j = Some y → Risnan y = false).

(** The tensors of [ts] laid end to end along their leading axis: the rows
    of the first, then those of the second, and so on. *)
Definition concat_rows (ts : list (tensor R)) : tensor R :=
  mkTensor
    (sum_list (first_dim <$> ts) ::
     tail (shape (default empty_tensor (head ts))))
    (concat (data <$> ts)).

(** Lines 148-161: the solver on the sub-batch [X], within the two rows of
    [bounds] and under the options that are forwarded to it, for an
    acquisition function whose pending points are [pending]. *)
Definition solve_sub_batch (acq : @AcquisitionFunction R) (bounds : tensor R)
    (opts : gmap string (@opt_value R))
    (ineq eq : option (list (tensor R * tensor R * R)))
    (ff : option (gmap Z R)) (pending : option (tensor R)) (X : tensor R)
  : outcome (tensor R * tensor R) :=
  match select0 bounds 0 with
  | Ret lo =>
      match select0 bounds 1 with
      | Ret hi =>
          gen_candidates_scipy E acq pending X lo hi (solver_options opts)
            ineq eq ff
      | Raise e => Raise e
      | Diverge => Diverge
      end
  | Raise e => Raise e
  | Diverge => Diverge
  end.

(** Lines 168-169: the candidates after post-processing. *)
Definition post_processed (post : option (tensor R → outcome (tensor R)))
    (C : tensor R) : outcome (tensor R) :=
  match post with
  | Some f => f C
  | None => Ret C
  end.

(** Lines 118-122: the pending points that the greedy loop sets once it has
    found [candidates]. *)
Definition pending_with (base : option (tensor R)) (candidates : tensor R)
  : outcome (tensor R) :=
  match base with
  | Some b => cat_m2 [b; candidates]
  | None => Ret candidates
  end.

(** A run that comes to an end: it returns or raises. *)
Definition terminates {A} (m : M' A) : Prop := ∀ w, (m w).1 ≠ Diverge.

(** The collaborators come to an end on every input. *)
Definition collaborators_terminate : Prop :=
  (∀ acq p (X lo hi : tensor R) o i e f,
     gen_candidates_scipy E acq p X lo hi o i e f ≠ Diverge) ∧
  (∀ (b : tensor R) n q seed g,
     (draw_sobol_samples E b n q seed g).1 ≠ Diverge) ∧
  (∀ seed count g, (torch_rand E seed count g).1 ≠ Diverge) ∧
  (∀ (nonneg : bool) (X Y : tensor R) n kw g,
     ((if nonneg then initialize_q_batch_nonneg E else initialize_q_batch E)
        X Y n kw g).1.1 ≠ Diverge).

End Specification.

(** ** A concrete instance over the integers *)

Module Example.

Definition T := tensor Z.

(** A solver that leaves the initial conditions where they are and scores
    each restart by the first coordinate of its first point. *)
Definition row_values (ics : T) : list Z :=
  let sz := numel (tail (shape ics)) in
  (λ i, default 0 (data ics !! (i * sz)%nat)) <$> seq 0 (first_dim ics).

Definition id_solver (acq : @AcquisitionFunction Z) (pending : option T)
    (ics lo hi : T) (opts : gmap string (@opt_value Z))
    (ineq eq : option (list (T * T * Z))) (ff : option (gmap Z Z))
  : outcome (T * T) :=
  Ret (ics, mkTensor [first_dim ics] (row_values ics)).

(** Sampling: [n] copies of the lower bounds, [q] times each. *)
Definition const_sobol (bounds : T) (n q : Z) (seed : option Z) (g : nat)
  : outcome T * nat :=
  let d := default 0%nat (last (shape bounds)) in
  (Ret (mkTensor [Z.to_nat n; Z.to_nat q; d]
          (concat (replicate (Z.to_nat (n * q)) (take d (data bounds))))),
   S g).

(** Uniform draws that alternate between the two ends of the unit
    interval. *)
Definition alternating_rand (seed : option Z) (count : Z) (g : nat)
  : outcome (list Z) * nat :=
  (if count <? 0 then Raise RuntimeError
   else Ret ((λ i, Z.of_nat (i `mod` 2)) <$> seq 0 (Z.to_nat count)), S g).

(** An initializer that keeps the first [n] raw samples (and raises when
    there are fewer), and warns when every score is zero. *)
Definition first_n_init (X Y : T) (n : Z) (kw : gmap string (@opt_value Z))
    (g : nat) : outcome T * list warning_category * nat :=
  (if (0 <=? n) && (n <=? Z.of_nat (first_dim X)) then slice0 X 0 n
   else Raise RuntimeError,
   if forallb (λ y, y =? 0) (data Y) then [BadInitialCandidatesWarning] else [],
   g).

Definition ext (maxdim : Z) (dbg : bool) : @externals Z nat := {|
  gen_candidates_scipy := id_solver;
  draw_sobol_samples := const_sobol;
  torch_rand := alternating_rand;
  initialize_q_batch := first_n_init;
  initialize_q_batch_nonneg := first_n_init;
  SobolEngine_MAXDIM := maxdim;
  settings_debug_on := dbg;
|}.

(** A solver that fails once the acquisition function has pending points. *)
Definition fragile_solver (acq : @AcquisitionFunction Z) (pending : option T)
    (ics lo hi : T) (opts : gmap string (@opt_value Z))
    (ineq eq : option (list (T * T * Z))) (ff : option (gmap Z Z))
  : outcome (T * T) :=
  match pending with
  | Some _ => Raise (ExternalError "solver failure")
  | None => id_solver acq pending ics lo hi opts ineq eq ff
  end.

(** A deterministic solver whose values depend on the size of the batch it
    is given: every restart is scored by the number of restarts. *)
Definition batch_size_solver (acq : @AcquisitionFunction Z)
    (pending : option T) (ics lo hi : T) (opts : gmap string (@opt_value Z))
    (ineq eq : option (list (T * T * Z))) (ff : option (gmap Z Z))
  : outcome (T * T) :=
  Ret (ics, mkTensor [first_dim ics]
              (replicate (first_dim ics) (Z.of_nat (first_dim ics)))).

Definition ext_with (solver : @AcquisitionFunction Z → option T → T → T → T →
                              gmap string (@opt_value Z) →
                              option (list (T * T * Z)) →
                              option (list (T * T * Z)) →
                              option (gmap Z Z) → outcome (T * T))
  : @externals Z nat := {|
  gen_candidates_scipy := solver;
  draw_sobol_samples := const_sobol;
  torch_rand := alternating_rand;
  initialize_q_batch := first_n_init;
  initialize_q_batch_nonneg := first_n_init;
  SobolEngine_MAXDIM := 10;
  settings_debug_on := false;
|}.

(** Scores a batch by the first coordinate of each row. *)
Definition first_coord : @AcquisitionFunction Z := {|
  forward := λ _ X, Ret (mkTensor [first_dim X] (row_values X));
  is_nonnegative := false;
  is_analytic := false;
|}.

Definition zero_acq : @AcquisitionFunction Z := {|
  forward := λ _ X, Ret (mkTensor [first_dim X] (replicate (first_dim X) 0));
  is_nonnegative := false;
  is_analytic := false;
|}.

Definition w0 : @world Z nat := mkWorld None 0%nat [] [].

(** A world in which one point is pending. *)
Definition w_pending : @world Z nat :=
  mkWorld (Some (mkTensor [1; 1]%nat [5])) 0%nat [] [].

Definition bounds1 : T := mkTensor [2; 1]%nat [3; 7].

(** Three restarts of one point in one dimension. *)
Definition ics3 : T := mkTensor [3; 1; 1]%nat [4; 9; 9].

(** The values of three restarts, the last two tied. *)
Definition values3 : T := mkTensor [3%nat] [4; 9; 9].

(** The retry loop on an acquisition function that is zero everywhere. *)
(** Options that fix the seed. *)
Definition zero_options : gmap string (@opt_value Z) :=
  {[ "seed" := OInt 7 ]}.

(** The first [j] passes of the retry loop on the acquisition function that
    is zero everywhere, when all of them are degenerate. *)
Definition zero_chain (j : nat) : option (retry_state * @world Z nat) :=
  degenerate_run (ext 10 false) 10 zero_acq bounds1 1 1 1 2 3 false ∅ j
    ({| rs_factor := 1; rs_seed := Some 7; rs_batch_limit := None;
        rs_last := None |}, w0).

(** The loop state and the world after three degenerate attempts, and the
    fourth attempt. *)
Definition zero_state3 : retry_state * @world Z nat :=
  Eval vm_compute in
    default ({| rs_factor := 1; rs_seed := None; rs_batch_limit := None;
                rs_last := None |}, w0) (zero_chain 3).

Definition zero_attempt4
  : outcome (T * list warning_category * Z) * @world Z nat :=
  Eval vm_compute in
    attempt (ext 10 false) 10 zero_acq bounds1 1 1 1 2 3 false ∅
      zero_state3.1 zero_state3.2.

(** Options that hold a [batch_limit] only. *)
Definition limit_options (bl : Z) : gmap string (@opt_value Z) :=
  {[ "batch_limit" := OInt bl ]}.

(** The state of the retry loop at its start, without seed and
    [batch_limit], and the first attempt on the acquisition function that
    scores by the first coordinate. *)
Definition start_state : @retry_state Z :=
  {| rs_factor := 1; rs_seed := None; rs_batch_limit := None;
     rs_last := None |}.

Definition first_attempt
  : outcome (T * list warning_category * Z) * @world Z nat :=
  Eval vm_compute in
    attempt (ext 10 false) 10 first_coord bounds1 1 1 1 2 3 false ∅
      start_state w0.

End Example.

(** ** Properties *)

(** The integers are scalars that obey the laws of the comparison. *)
#[export] Instance Z_ScalarOrder : ScalarOrder Z.
Proof.
  split; simpl.
  - intros x. apply Z.ltb_irrefl.
  - intros x y z Hxy Hyz. apply Z.ltb_lt in Hxy, Hyz. apply Z.ltb_lt. lia.
  - intros x y z _ Hxy. apply Z.ltb_lt in Hxy.
    destruct (Z.ltb_spec x z); [by left|]. right. apply Z.ltb_lt. lia.
Qed.

Section Properties.
Context {R : Type} `{Scalar R} {G : Type}.
Context (E : @externals R G) (fuel : nat).

#[local] Abbreviation world' := (@world R G).
#[local] Abbreviation M' := (@M R G).
#[local] Abbreviation preserves := (@preserves R G _ _).
#[local] Abbreviation returns_sat := (@returns_sat R G _).
#[local] Abbreviation with_trace := (@with_trace R G).
#[local] Abbreviation trace_blind := (@trace_blind R G _).
#[local] Abbreviation is_pending_access := (@is_pending_access R).
#[local] Abbreviation pending_accesses := (@pending_accesses R).
#[local] Abbreviation pending_view := (@pending_view R G).
#[local] Abbreviation is_first_max := (@is_first_max R H).
#[local] Abbreviation pick_best := (@pick_best R H G).
#[local] Abbreviation is_sampling := (@is_sampling R).
#[local] Abbreviation sampling_events := (@sampling_events R G).
#[local] Abbreviation sampling_warnings := (@sampling_warnings R G).
#[local] Abbreviation retry_state := (@retry_state R).
#[local] Abbreviation row_of := (@row_of R).
#[local] Abbreviation solver_calls := (@solver_calls R G).
#[local] Abbreviation sample_event := (sample_event E).
#[local] Abbreviation schedule c := (schedule E c).
#[local] Abbreviation attempt_schedule := (attempt_schedule E).
#[local] Abbreviation attempt := (attempt E fuel).
#[local] Abbreviation loop := (loop E fuel).
#[local] Abbreviation degenerate_step := (degenerate_step E fuel).
#[local] Abbreviation degenerate_next := (degenerate_next E fuel).
#[local] Abbreviation degenerate_run := (degenerate_run E fuel).
#[local] Abbreviation solve := (solve E).
#[local] Abbreviation shape_contracts := (shape_contracts E).

(** *** Running the monad *)

Lemma run_bind {A B} (m : M' A) (f : A → M' B) (w : world') :
  (m ≫= f) w =
  match m w with
  | (Ret a, w') => f a w'
  | (Raise e, w') => (Raise e, w')
  | (Diverge, w') => (Diverge, w')
  end.
Proof. reflexivity. Qed.

Lemma run_bind_ret {A B} (m : M' A) (f : A → M' B) (w w' : world') a :
  m w = (Ret a, w') → (m ≫= f) w = f a w'.
Proof. intros Hm. by rewrite run_bind, Hm. Qed.

Lemma run_bind_inv {A B} (m : M' A) (f : A → M' B) (w w2 : world') b :
  (m ≫= f) w = (Ret b, w2) →
  ∃ a w1, m w = (Ret a, w1) ∧ f a w1 = (Ret b, w2).
Proof.
  rewrite run_bind. destruct (m w) as [[a|e|] w1]; intros Hf; try discriminate.
  eauto.
Qed.

Lemma run_lift {A} (o : outcome A) (w : world') : lift o w = (o, w).
Proof. reflexivity. Qed.

(** *** Projections of the world that a computation leaves alone *)

Lemma preserves_ret {A T} (π : world' → T) (a : A) : preserves π (mret a).
Proof. by intros w. Qed.

Lemma preserves_lift {A T} (π : world' → T) (o : outcome A) :
  preserves π (lift o).
Proof. by intros w. Qed.

Lemma preserves_raise {A T} (π : world' → T) e : preserves π (@raise R G A e).
Proof. by intros w. Qed.

Lemma preserves_diverge {A T} (π : world' → T) : preserves π (@diverge R G A).
Proof. by intros w. Qed.

Lemma preserves_bind {A B T} (π : world' → T) (m : M' A) (f : A → M' B) :
  preserves π m → (∀ a, preserves π (f a)) → preserves π (m ≫= f).
Proof.
  intros Hm Hf w. rewrite run_bind. specialize (Hm w).
  destruct (m w) as [[a|e|] w1]; simpl in *; try done.
  by rewrite Hf.
Qed.

Lemma pending_view_log ev (w : world') :
  is_pending_access ev = false → pending_view (log ev w) = pending_view w.
Proof.
  intros Hev. unfold pending_view, pending_accesses, log. simpl.
  rewrite filter_app, filter_cons_False, filter_nil, app_nil_r; [done|].
  by rewrite Hev.
Qed.

Lemma pending_view_ext (w : world') g ws ev :
  is_pending_access ev = false →
  pending_view (mkWorld (X_pending w) g ws (trace w ++ [ev])) = pending_view w.
Proof.
  intros Hev. unfold pending_view, pending_accesses. simpl.
  rewrite filter_app, filter_cons_False, filter_nil, app_nil_r; [done|].
  by rewrite Hev.
Qed.

Lemma call_acq_pending acq X : preserves pending_view (call_acq acq X).
Proof. intros w. by apply pending_view_log. Qed.

Lemma call_sobol_pending bounds n q seed :
  preserves pending_view (call_sobol E bounds n q seed).
Proof.
  intros w. unfold call_sobol.
  destruct (draw_sobol_samples E bounds n q seed (rng w)) as [r g]. simpl.
  by apply pending_view_ext.
Qed.

Lemma call_rand_pending seed count :
  preserves pending_view (call_rand E seed count).
Proof.
  intros w. unfold call_rand.
  destruct (torch_rand E seed count (rng w)) as [r g]. simpl.
  by apply pending_view_ext.
Qed.

Lemma call_init_pending nonneg X Y n kw :
  preserves pending_view (call_init E nonneg X Y n kw).
Proof.
  intros w. unfold call_init.
  destruct ((if nonneg then initialize_q_batch_nonneg E
             else initialize_q_batch E) X Y n kw (rng w)) as [[r ws] g].
  simpl. by apply pending_view_ext.
Qed.

Lemma call_solver_pending acq ics lo hi opts ineq eq ff :
  preserves pending_view (call_solver E acq ics lo hi opts ineq eq ff).
Proof. intros w. by apply pending_view_log. Qed.

Lemma call_post_pending f X : preserves pending_view (call_post f X).
Proof. intros w. by apply pending_view_log. Qed.

Lemma warn_pending c msg : preserves pending_view (@warn R G c msg).
Proof. by intros w. Qed.

Lemma dimension_check_pending dim :
  preserves pending_view (dimension_check E dim).
Proof. unfold dimension_check. destruct (_ && _); by intros w. Qed.

Create HintDb frame.
#[local] Hint Resolve preserves_ret preserves_lift preserves_raise
  preserves_diverge call_acq_pending call_sobol_pending call_rand_pending
  call_init_pending call_solver_pending call_post_pending warn_pending
  dimension_check_pending : frame.

(** Splits a sequence of binds into its steps. *)
Ltac frame_steps :=
  repeat first
    [ solve [auto with frame]
    | apply preserves_bind; [|intros ?]
    | match goal with
      | |- preserves _ (match ?x with _ => _ end) => destruct x
      | |- preserves _ (if ?b then _ else _) => destruct b
      | |- preserves _ (let '(_, _) := ?x in _) => destruct x
      end ].

Lemma draw_X_rnd_pending bounds n q d dim seed :
  preserves pending_view (draw_X_rnd E bounds n q d dim seed).
Proof. unfold draw_X_rnd. frame_steps. Qed.
#[local] Hint Resolve draw_X_rnd_pending : frame.

Lemma score_batches_pending k acq X rows bl start Ys :
  preserves pending_view (score_batches k acq X rows bl start Ys).
Proof.
  revert start Ys. induction k as [|k IH]; intros start Ys; simpl.
  - frame_steps.
  - destruct (start <? rows); [|auto with frame].
    frame_steps; apply IH.
Qed.
#[local] Hint Resolve score_batches_pending : frame.

Lemma sampling_attempt_pending acq bounds q d dim nr raw nonneg kw
    factor seed bl :
  preserves pending_view
    (sampling_attempt E fuel acq bounds q d dim nr raw nonneg kw factor seed
       bl).
Proof.
  unfold sampling_attempt. frame_steps.
Qed.
#[local] Hint Resolve sampling_attempt_pending : frame.

Lemma retry_loop_pending k acq bounds q d dim nr raw nonneg kw factor seed
    bl last :
  preserves pending_view
    (retry_loop E fuel k acq bounds q d dim nr raw nonneg kw factor seed bl
       last).
Proof.
  revert factor seed bl last.
  induction k as [|k IH]; intros factor seed bl last; simpl.
  - frame_steps.
  - destruct (factor <? max_factor) eqn:Hf; [|frame_steps].
    apply preserves_bind; [apply sampling_attempt_pending|].
    intros [[bic ws] bl']. destruct (negb _); [auto with frame|apply IH].
Qed.
#[local] Hint Resolve retry_loop_pending : frame.

Lemma gen_batch_initial_conditions_pending acq bounds q nr raw opts :
  preserves pending_view
    (gen_batch_initial_conditions E fuel acq bounds q nr raw opts).
Proof.
  unfold gen_batch_initial_conditions. frame_steps.
Qed.
#[local] Hint Resolve gen_batch_initial_conditions_pending : frame.

Lemma solve_batches_pending k acq bounds opts ineq eq ff bic nr bl start
    cl vl :
  preserves pending_view
    (solve_batches E k acq bounds opts ineq eq ff bic nr bl start cl vl).
Proof.
  revert start cl vl. induction k as [|k IH]; intros start cl vl; simpl.
  - frame_steps.
  - destruct (start <? nr); [|auto with frame].
    frame_steps; apply IH.
Qed.
#[local] Hint Resolve solve_batches_pending : frame.

Lemma optimize_acqf_joint_pending acq bounds q nr raw opts ineq eq ff post
    bic rbo :
  preserves pending_view
    (optimize_acqf_joint E fuel acq bounds q nr raw opts ineq eq ff post bic
       rbo).
Proof.
  unfold optimize_acqf_joint. frame_steps.
Qed.

(** C10: on the joint path ([sequential=False]) the pending points of the
    acquisition function are the same after the call as before it, and the
    call makes no access to them, whatever the other arguments are and
    whether the call returns, raises (the solver failing, say) or runs out of
    fuel. *)
Theorem joint_leaves_pending_untouched acq bounds q nr raw opts ineq eq ff
    post bic rbo (w : world') :
  let w' := (optimize_acqf E fuel acq bounds q nr raw opts ineq eq ff post
               bic rbo false w).2 in
  X_pending w' = X_pending w ∧
  pending_accesses (trace w') = pending_accesses (trace w).
Proof.
  simpl.
  pose proof (optimize_acqf_joint_pending acq bounds q nr raw opts ineq eq ff
                post bic rbo w) as Hp.
  unfold pending_view in Hp. by inversion Hp.
Qed.

(** C3: with [sequential=True] and [return_best_only=False] the call raises
    the "not supported" error at once, for every other argument and every
    world: the world is returned as it was, so nothing was sampled, the
    solver was not called and the pending points were neither read nor
    written. *)
Theorem sequential_all_restarts_not_supported acq bounds q nr raw opts ineq
    eq ff post bic (w : world') :
  optimize_acqf E fuel acq bounds q nr raw opts ineq eq ff post bic false true
    w =
  (Raise (NotImplementedError
            "return_best_only=False only supported for joint optimization"),
   w).
Proof. reflexivity. Qed.

(** Indexing a vector gives its entry as a 0-dimensional tensor. *)
Lemma select0_vector (V : tensor R) i m :
  shape V = [length (data V)] → data V !! i = Some m →
  select0 V i = Ret (scalar m).
Proof.
  intros Hsh Hi. unfold select0. rewrite Hsh.
  pose proof (lookup_lt_Some _ _ _ Hi) as Hlt.
  destruct (Nat.ltb_spec i (length (data V))); [|lia].
  simpl. rewrite Nat.mul_1_r. unfold scalar. do 2 f_equal.
  apply take_drop_middle in Hi. rewrite <- Hi at 1.
  rewrite drop_app_length'; [done|]. rewrite length_take. lia.
Qed.

(** *** Best-only selection on the joint path *)

(** Runs the next step of a chain of binds and splits on its outcome. *)
Ltac run_step :=
  rewrite ?run_bind;
  match goal with
  | |- context [match ?x with (_, _) => _ end] =>
      destruct x as [[?|?|] ?]; try reflexivity
  end.

(** The best-only call is the all-restarts call followed by the selection. *)
Lemma joint_best_via_all acq bounds q nr raw opts ineq eq ff post bic
    (w : world') :
  optimize_acqf_joint E fuel acq bounds q nr raw opts ineq eq ff post bic true
    w =
  (optimize_acqf_joint E fuel acq bounds q nr raw opts ineq eq ff post bic
     false ≫= pick_best) w.
Proof.
  unfold optimize_acqf_joint.
  rewrite (run_bind (_ ≫= _)).
  do 3 run_step.
  match goal with p : (_ * _)%type |- _ => destruct p as [cl vl] end.
  do 3 run_step.
Qed.

(** *** The retry loop of [gen_batch_initial_conditions] *)

Section Retry.
Context (acq : @AcquisitionFunction R) (bounds : tensor R) (q : Z) (d : nat)
  (dim nr raw : Z) (nonneg : bool) (kw : gmap string (@opt_value R)).

#[local] Abbreviation attempt :=
  (attempt acq bounds q d dim nr raw nonneg kw).
#[local] Abbreviation loop := (loop acq bounds q d dim nr raw nonneg kw).
#[local] Abbreviation degenerate_step :=
  (degenerate_step acq bounds q d dim nr raw nonneg kw).
#[local] Abbreviation degenerate_next :=
  (degenerate_next acq bounds q d dim nr raw nonneg kw).
#[local] Abbreviation degenerate_run :=
  (degenerate_run acq bounds q d dim nr raw nonneg kw).

Lemma loop_degenerate_step k x y :
  degenerate_step x y → loop (S k) x.1 x.2 = loop k y.1 y.2.
Proof.
  intros (b & ws & bl' & Hlt & Hrun & Hbad & Hy).
  unfold loop. simpl. apply Z.ltb_lt in Hlt. rewrite Hlt.
  unfold attempt in Hrun. rewrite run_bind, Hrun, Hbad. simpl.
  by rewrite Hy.
Qed.

Lemma loop_degenerate_steps j k x y :
  nsteps degenerate_step j x y → loop (j + k) x.1 x.2 = loop k y.1 y.2.
Proof.
  induction 1 as [|j x y z Hstep _ IH]; [done|].
  simpl. by rewrite (loop_degenerate_step _ x y).
Qed.

Lemma degenerate_steps_factor j x y :
  nsteps degenerate_step j x y →
  rs_factor y.1 = rs_factor x.1 + Z.of_nat j ∧
  (j ≠ 0%nat → rs_factor y.1 ≤ max_factor ∧ is_Some (rs_last y.1)).
Proof.
  induction 1 as [|j x y z Hstep Hrest IH]; [split; [lia|done]|].
  destruct Hstep as (b & ws & bl' & Hlt & _ & _ & Hy).
  destruct IH as [IH1 IH2]. rewrite Hy in IH1. simpl in *.
  split; [lia|]. intros _. destruct j as [|j].
  - inversion Hrest; subst. rewrite Hy. simpl. split; [lia|eauto].
  - by apply IH2.
Qed.

Lemma loop_exhausted k s (w : world') :
  ¬ rs_factor s < max_factor →
  loop k s w =
  (match rs_last s with Some b => Ret b | None => Raise UnboundLocalError end,
   mkWorld (X_pending w) (rng w)
     (warnings w ++ [(BadInitialCandidatesWarning, unable_msg)]) (trace w)).
Proof.
  intros Hge. apply Z.ltb_nlt in Hge.
  unfold loop. destruct k; simpl; rewrite Hge; rewrite run_bind; simpl;
    by destruct (rs_last s).
Qed.

(** Sampler calls are made by [draw_X_rnd] only. *)
Lemma sampling_events_ext (w : world') x g ws ev :
  sampling_events (mkWorld x g ws (trace w ++ [ev])) =
  sampling_events w ++ (if is_sampling ev then [ev] else []).
Proof.
  unfold sampling_events. simpl. rewrite filter_app. f_equal.
  destruct (is_sampling ev) eqn:Hev.
  - by rewrite filter_cons_True.
  - rewrite filter_cons_False; [done|]. by rewrite Hev.
Qed.

Lemma call_acq_sampling a X : preserves sampling_events (call_acq a X).
Proof.
  intros w. unfold call_acq, log. simpl.
  by rewrite sampling_events_ext, app_nil_r.
Qed.

Lemma call_init_sampling nn X Y n kw' :
  preserves sampling_events (call_init E nn X Y n kw').
Proof.
  intros w. unfold call_init.
  destruct ((if nn then initialize_q_batch_nonneg E
             else initialize_q_batch E) X Y n kw' (rng w)) as [[r ws] g].
  simpl. by rewrite sampling_events_ext, app_nil_r.
Qed.

Lemma warn_sampling c msg : preserves sampling_events (@warn R G c msg).
Proof. by intros w. Qed.

Lemma dimension_check_sampling dim' :
  preserves sampling_events (dimension_check E dim').
Proof. unfold dimension_check. destruct (_ && _); by intros w. Qed.

#[local] Hint Resolve call_acq_sampling call_init_sampling warn_sampling
  dimension_check_sampling : frame.

Lemma score_batches_sampling k a X rows bl start Ys :
  preserves sampling_events (score_batches k a X rows bl start Ys).
Proof.
  revert start Ys. induction k as [|k IH]; intros start Ys; simpl.
  - frame_steps.
  - destruct (start <? rows); [|auto with frame].
    frame_steps; apply IH.
Qed.
#[local] Hint Resolve score_batches_sampling : frame.

Lemma draw_X_rnd_sampling n seed (w : world') :
  sampling_events (draw_X_rnd E bounds n q d dim seed w).2 =
  sampling_events w ++ [sample_event bounds q dim n seed].
Proof.
  unfold draw_X_rnd, sample_event.
  destruct (dim <=? SobolEngine_MAXDIM E).
  - unfold call_sobol.
    destruct (draw_sobol_samples E bounds n q seed (rng w)) as [r g].
    simpl. by rewrite sampling_events_ext.
  - rewrite run_bind.
    assert (Hrand : sampling_events (call_rand E seed (n * dim) w).2 =
                    sampling_events w ++ [EvRand (n * dim) seed]).
    { unfold call_rand.
      destruct (torch_rand E seed (n * dim) (rng w)) as [r g].
      simpl. by rewrite sampling_events_ext. }
    destruct (call_rand E seed (n * dim) w) as [[xs|e|] w1]; simpl in *;
      try done.
    rewrite <- Hrand.
    match goal with
    | |- sampling_events (?m w1).2 = _ =>
        assert (Hrest : preserves sampling_events m) by frame_steps
    end.
    apply Hrest.
Qed.

Lemma attempt_sampling s (w : world') :
  sampling_events (attempt s w).2 =
  sampling_events w ++
  [sample_event bounds q dim (raw * rs_factor s) (rs_seed s)].
Proof.
  unfold attempt, sampling_attempt. rewrite run_bind.
  pose proof (draw_X_rnd_sampling (raw * rs_factor s) (rs_seed s) w) as Hd.
  destruct (draw_X_rnd _ _ _ _ _ _ _ w) as [[X|e|] w1]; simpl in *; try done.
  rewrite <- Hd.
  match goal with
  | |- sampling_events (?m w1).2 = _ =>
      assert (Hrest : preserves sampling_events m) by frame_steps
  end.
  apply Hrest.
Qed.

(** Whatever happens, the sampler calls of the loop are an initial segment
    of the schedule, and the loop makes at least one when it is entered. *)
Lemma loop_sampling k s (w : world') :
  ∃ m, (m ≤ Z.to_nat (max_factor - rs_factor s))%nat ∧
       (k ≠ 0%nat → rs_factor s < max_factor → (1 ≤ m)%nat) ∧
       sampling_events (loop k s w).2 =
       sampling_events w ++
       take m (schedule (Z.to_nat (max_factor - rs_factor s)) bounds q dim
                 raw (rs_factor s) (rs_seed s)).
Proof.
  revert s w. induction k as [|k IH]; intros s w.
  - exists 0%nat. split; [lia|]. split; [done|].
    rewrite take_0, app_nil_r.
    destruct (decide (rs_factor s < max_factor)) as [Hlt|Hge].
    + unfold loop. simpl. apply Z.ltb_lt in Hlt. by rewrite Hlt.
    + by rewrite loop_exhausted.
  - destruct (decide (rs_factor s < max_factor)) as [Hlt|Hge].
    + pose proof (attempt_sampling s w) as Ha.
      unfold loop. simpl. pose proof Hlt as Hltb. apply Z.ltb_lt in Hltb.
      rewrite Hltb. rewrite run_bind. fold (attempt s).
      replace (Z.to_nat (max_factor - rs_factor s))
        with (S (Z.to_nat (max_factor - (rs_factor s + 1)))) by lia.
      simpl schedule.
      destruct (attempt s w) as [[[[b ws] bl']|e|] w1]; simpl in Ha.
      * destruct (negb (existsb is_bad_initial ws)).
        -- exists 1%nat. split; [lia|]. split; [lia|]. simpl.
           by rewrite take_0.
        -- destruct (IH {| rs_factor := rs_factor s + 1;
                           rs_seed := Z.succ <$> rs_seed s;
                           rs_batch_limit := Some bl';
                           rs_last := Some b |} w1) as (m & Hm & _ & Hev).
           exists (S m). split; [simpl in Hm; lia|]. split; [lia|].
           unfold loop in Hev. simpl in Hev. rewrite Hev, Ha.
           by rewrite <- app_assoc.
      * exists 1%nat. split; [lia|]. split; [lia|]. simpl. by rewrite take_0.
      * exists 1%nat. split; [lia|]. split; [lia|]. simpl. by rewrite take_0.
    + exists 0%nat. split; [lia|]. split; [done|].
      rewrite take_0, app_nil_r. by rewrite loop_exhausted.
Qed.

Lemma degenerate_steps_sampling j x y :
  nsteps degenerate_step j x y →
  sampling_events y.2 =
  sampling_events x.2 ++
  schedule j bounds q dim raw (rs_factor x.1) (rs_seed x.1) ∧
  ∀ c, schedule (j + c) bounds q dim raw (rs_factor x.1) (rs_seed x.1) =
       schedule j bounds q dim raw (rs_factor x.1) (rs_seed x.1) ++
       schedule c bounds q dim raw (rs_factor y.1) (rs_seed y.1).
Proof.
  induction 1 as [x|j x y z Hstep _ [IH1 IH2]]; simpl.
  - by rewrite app_nil_r.
  - destruct Hstep as (b & ws & bl' & _ & Hrun & _ & Hy).
    pose proof (attempt_sampling x.1 x.2) as Ha. rewrite Hrun in Ha.
    simpl in Ha. rewrite Hy in IH1, IH2. simpl in IH1, IH2. split.
    + by rewrite IH1, Ha, <- app_assoc.
    + intros c. by rewrite IH2.
Qed.

Lemma degenerate_next_step x y :
  degenerate_next x = Some y → degenerate_step x y.
Proof.
  unfold degenerate_next, degenerate_step.
  destruct (attempt x.1 x.2) as [[[[b ws] bl']|e|] w'] eqn:Hrun; try done.
  destruct (Z.ltb_spec (rs_factor x.1) max_factor); [|done].
  destruct (existsb is_bad_initial ws) eqn:Hbad; [|done].
  simpl. inversion 1; subst. simpl. by exists b, ws, bl'.
Qed.

Lemma degenerate_run_steps j x y :
  degenerate_run j x = Some y → nsteps degenerate_step j x y.
Proof.
  revert x. induction j as [|j IH]; intros x; simpl.
  - inversion 1; subst. constructor.
  - destruct (degenerate_next x) as [z|] eqn:Hz; [|done].
    intros Hrun. eapply nsteps_l; [by apply degenerate_next_step|by apply IH].
Qed.

End Retry.

Lemma length_schedule c bounds q dim raw factor seed :
  length (schedule c bounds q dim raw factor seed) = c.
Proof.
  revert factor seed. induction c as [|c IH]; intros; simpl; [done|].
  by rewrite IH.
Qed.

Lemma schedule_attempts bounds q dim raw seed :
  schedule 4 bounds q dim raw 1 seed = attempt_schedule bounds q dim raw seed.
Proof.
  unfold attempt_schedule. simpl. destruct seed as [z|]; simpl; [|done].
  repeat f_equal; lia.
Qed.

Lemma dimension_check_ret dim (w : world') :
  dimension_check E dim w = (Ret (), (dimension_check E dim w).2).
Proof. unfold dimension_check. by destruct (_ && _). Qed.

(** The run of [gen_batch_initial_conditions] once its options are read. *)
Lemma gen_batch_initial_conditions_run acq bounds q nr raw opts seed bl d
    nonneg kw (w : world') :
  get_int (default ∅ opts) "seed" = Ret seed →
  get_int (default ∅ opts) "batch_limit" = Ret bl →
  shape_last bounds = Ret d →
  select_initializer (default ∅ opts) acq = (nonneg, kw) →
  gen_batch_initial_conditions E fuel acq bounds q nr raw opts w =
  loop acq bounds (default 1 q) d (Z.of_nat d * default 1 q) nr raw nonneg kw
    fuel
    {| rs_factor := 1; rs_seed := seed; rs_batch_limit := bl;
       rs_last := None |}
    (dimension_check E (Z.of_nat d * default 1 q) w).2.
Proof.
  intros Hseed Hbl Hd Hsel. unfold gen_batch_initial_conditions.
  rewrite Hseed, Hbl, Hsel, Hd.
  do 3 (rewrite run_bind, run_lift). rewrite run_bind.
  pose proof (dimension_check_ret (Z.of_nat d * default 1 q) w) as Hdc.
  destruct (dimension_check E _ w) as [o w0]. simpl in Hdc.
  by inversion Hdc.
Qed.

(** C5: when each of the four sampling attempts returns and the initializer
    signals degenerate candidates in each, [gen_batch_initial_conditions]
    does not raise: it emits the [BadInitialCandidatesWarning] diagnostic and
    returns the batch computed by the last attempt. *)
Theorem exhausted_retries_return_last_batch acq bounds q nr raw opts seed bl
    d nonneg kw s3 w3 b ws bl' w4 (w : world') :
  let q' := default 1 q in
  let dim := Z.of_nat d * q' in
  get_int (default ∅ opts) "seed" = Ret seed →
  get_int (default ∅ opts) "batch_limit" = Ret bl →
  shape_last bounds = Ret d →
  select_initializer (default ∅ opts) acq = (nonneg, kw) →
  (4 ≤ fuel)%nat →
  nsteps (degenerate_step acq bounds q' d dim nr raw nonneg kw) 3
    ({| rs_factor := 1; rs_seed := seed; rs_batch_limit := bl;
        rs_last := None |}, (dimension_check E dim w).2)
    (s3, w3) →
  attempt acq bounds q' d dim nr raw nonneg kw s3 w3 =
    (Ret (b, ws, bl'), w4) →
  existsb is_bad_initial ws = true →
  gen_batch_initial_conditions E fuel acq bounds q nr raw opts w =
  (Ret b, (warn BadInitialCandidatesWarning unable_msg w4).2).
Proof.
  intros q' dim Hseed Hbl Hd Hsel Hfuel Hsteps Hrun Hbad.
  rewrite (gen_batch_initial_conditions_run _ _ _ _ _ _ _ _ _ _ _ _
             Hseed Hbl Hd Hsel).
  fold q' dim.
  destruct (degenerate_steps_factor _ _ _ _ _ _ _ _ _ _ _ _ Hsteps)
    as [Hfac _]. simpl in Hfac.
  set (s4 := {| rs_factor := rs_factor s3 + 1;
                rs_seed := Z.succ <$> rs_seed s3;
                rs_batch_limit := Some bl';
                rs_last := Some b |}).
  assert (Hsteps4 : nsteps (degenerate_step acq bounds q' d dim nr raw nonneg
                              kw) 4
            ({| rs_factor := 1; rs_seed := seed; rs_batch_limit := bl;
                rs_last := None |}, (dimension_check E dim w).2) (s4, w4)).
  { eapply nsteps_r; [exact Hsteps|].
    exists b, ws, bl'. simpl. unfold max_factor. repeat split; [lia|done..]. }
  replace (loop acq bounds q' d dim nr raw nonneg kw fuel)
    with (loop acq bounds q' d dim nr raw nonneg kw (4 + (fuel - 4))%nat)
    by (f_equal; lia).
  rewrite (loop_degenerate_steps _ _ _ _ _ _ _ _ _ _ _ _ _ Hsteps4). simpl.
  rewrite loop_exhausted; [done|]. simpl. unfold max_factor. lia.
Qed.

(** C4 (as amended): the sampler calls made by a run of
    [gen_batch_initial_conditions] are the first [k] entries of the schedule
    of four attempts, the attempt after a degenerate one drawing with the
    multiplier and the seed (when given) each increased by one.  After [j]
    attempts that signalled degenerate candidates at least [j + 1] attempts
    are made, and never more than four. *)
Theorem retries_follow_schedule acq bounds q nr raw opts seed bl d nonneg kw
    j s' w' (w : world') :
  let q' := default 1 q in
  let dim := Z.of_nat d * q' in
  get_int (default ∅ opts) "seed" = Ret seed →
  get_int (default ∅ opts) "batch_limit" = Ret bl →
  shape_last bounds = Ret d →
  select_initializer (default ∅ opts) acq = (nonneg, kw) →
  (4 ≤ fuel)%nat →
  nsteps (degenerate_step acq bounds q' d dim nr raw nonneg kw) j
    ({| rs_factor := 1; rs_seed := seed; rs_batch_limit := bl;
        rs_last := None |}, (dimension_check E dim w).2)
    (s', w') →
  ∃ k, (Nat.min (j + 1) 4 ≤ k ≤ 4)%nat ∧
       sampling_events
         (gen_batch_initial_conditions E fuel acq bounds q nr raw opts w).2 =
       sampling_events w ++ take k (attempt_schedule bounds q' dim raw seed).
Proof.
  intros q' dim Hseed Hbl Hd Hsel Hfuel Hsteps.
  rewrite (gen_batch_initial_conditions_run _ _ _ _ _ _ _ _ _ _ _ _
             Hseed Hbl Hd Hsel).
  fold q' dim.
  destruct (degenerate_steps_factor _ _ _ _ _ _ _ _ _ _ _ _ Hsteps)
    as [Hfac Hle]. simpl in Hfac, Hle.
  assert (Hj : (j ≤ 4)%nat).
  { destruct j; [lia|]. destruct Hle as [Hle _]; [done|].
    unfold max_factor in Hle. lia. }
  destruct (degenerate_steps_sampling _ _ _ _ _ _ _ _ _ _ _ _ Hsteps)
    as [Hev Hsched]. simpl in Hev, Hsched.
  replace (loop acq bounds q' d dim nr raw nonneg kw fuel)
    with (loop acq bounds q' d dim nr raw nonneg kw (j + (fuel - j))%nat)
    by (f_equal; lia).
  rewrite (loop_degenerate_steps _ _ _ _ _ _ _ _ _ _ _ _ _ Hsteps). simpl.
  destruct (loop_sampling acq bounds q' d dim nr raw nonneg kw (fuel - j) s'
              w') as (m & Hm & Hm1 & Hloop).
  rewrite Hfac in Hm, Hm1. unfold max_factor in Hm, Hm1.
  exists (j + m)%nat. split.
  - split; [|lia]. destruct (decide (j = 4%nat)); [lia|].
    assert (1 ≤ m)%nat by (apply Hm1; lia). lia.
  - rewrite Hloop, Hev, dimension_check_sampling, <- app_assoc. f_equal.
    assert (Hs4 : schedule 4 bounds q' dim raw 1 seed =
                  schedule j bounds q' dim raw 1 seed ++
                  schedule (4 - j) bounds q' dim raw (rs_factor s')
                    (rs_seed s')).
    { rewrite <- Hsched. f_equal. lia. }
    rewrite <- schedule_attempts, Hs4.
    rewrite take_app_add'; [|by rewrite length_schedule].
    do 3 f_equal. rewrite Hfac. unfold max_factor. lia.
Qed.

(** *** The sampling-dimension fallback *)

Lemma call_acq_warnings a X : preserves sampling_warnings (call_acq a X).
Proof. by intros w. Qed.

Lemma call_sobol_warnings bounds n q seed :
  preserves sampling_warnings (call_sobol E bounds n q seed).
Proof.
  intros w. unfold call_sobol.
  by destruct (draw_sobol_samples E bounds n q seed (rng w)).
Qed.

Lemma call_rand_warnings seed count :
  preserves sampling_warnings (call_rand E seed count).
Proof.
  intros w. unfold call_rand. by destruct (torch_rand E seed count (rng w)).
Qed.

Lemma call_init_warnings nn X Y n kw :
  preserves sampling_warnings (call_init E nn X Y n kw).
Proof.
  intros w. unfold call_init.
  by destruct ((if nn then initialize_q_batch_nonneg E
                else initialize_q_batch E) X Y n kw (rng w)) as [[r ws] g].
Qed.

Lemma warn_bad_warnings msg :
  preserves sampling_warnings (@warn R G BadInitialCandidatesWarning msg).
Proof.
  intros w. unfold sampling_warnings, warn. simpl.
  by rewrite filter_app, filter_cons_False, filter_nil, app_nil_r.
Qed.

#[local] Hint Resolve call_acq_warnings call_sobol_warnings
  call_rand_warnings call_init_warnings warn_bad_warnings : frame.

Lemma score_batches_warnings k a X rows bl start Ys :
  preserves sampling_warnings (score_batches k a X rows bl start Ys).
Proof.
  revert start Ys. induction k as [|k IH]; intros start Ys; simpl.
  - frame_steps.
  - destruct (start <? rows); [|auto with frame].
    frame_steps; apply IH.
Qed.
#[local] Hint Resolve score_batches_warnings : frame.

Lemma retry_loop_warnings k acq bounds q d dim nr raw nonneg kw factor seed
    bl last :
  preserves sampling_warnings
    (retry_loop E fuel k acq bounds q d dim nr raw nonneg kw factor seed bl
       last).
Proof.
  revert factor seed bl last.
  induction k as [|k IH]; intros factor seed bl last; simpl.
  - frame_steps.
  - destruct (factor <? max_factor) eqn:Hf; [|frame_steps].
    apply preserves_bind.
    + unfold sampling_attempt, draw_X_rnd. frame_steps.
    + intros [[bic ws] bl']. destruct (negb _); [auto with frame|apply IH].
Qed.

Lemma dimension_check_warnings dim (w : world') :
  sampling_warnings (dimension_check E dim w).2 =
  sampling_warnings w ++
  (if (SobolEngine_MAXDIM E <? dim) && settings_debug_on E
   then [(SamplingWarning, sampling_msg)] else []).
Proof.
  unfold dimension_check.
  destruct (_ && _); simpl; [|by rewrite app_nil_r].
  unfold sampling_warnings. simpl. by rewrite filter_app.
Qed.

Lemma schedule_Forall (P : @event R → Prop) c bounds q dim raw factor seed :
  (∀ n sd, P (sample_event bounds q dim n sd)) →
  Forall P (schedule c bounds q dim raw factor seed).
Proof.
  intros HP. revert factor seed.
  induction c as [|c IH]; intros; simpl; constructor; auto.
Qed.

(** Lines 320-324: above the sampler's maximal dimension the raw samples are
    the uniform draws [us], rescaled entry by entry into the bounds. *)
Lemma draw_X_rnd_fallback bounds n q d dim seed us g (w : world') :
  SobolEngine_MAXDIM E < dim →
  torch_rand E seed (n * dim) (rng w) = (Ret us, g) →
  0 ≤ n → 0 ≤ q → Z.of_nat (length us) = n * q * Z.of_nat d →
  shape bounds = [2%nat; d] → length (data bounds) = (2 * d)%nat →
  ∃ X, draw_X_rnd E bounds n q d dim seed w =
         (Ret X, (call_rand E seed (n * dim) w).2) ∧
       shape X = [Z.to_nat n; Z.to_nat q; d] ∧
       ∀ k u, us !! k = Some u →
         ∃ lo hi, data bounds !! (k `mod` d)%nat = Some lo ∧
                  data bounds !! (d + k `mod` d)%nat = Some hi ∧
                  data X !! k = Some (Radd lo (Rmul (Rsub hi lo) u)).
Proof.
  intros Hdim Hrand Hn Hq Hlen Hsh Hwf.
  unfold draw_X_rnd. apply Z.leb_gt in Hdim. rewrite Hdim.
  rewrite run_bind. unfold call_rand. rewrite Hrand. simpl.
  rewrite run_bind, run_lift. unfold view3.
  rewrite bool_decide_eq_true_2 by done.
  rewrite run_bind, run_lift. unfold select0 at 1. rewrite Hsh. simpl.
  rewrite run_bind, run_lift. unfold select0 at 1. rewrite Hsh. simpl.
  rewrite run_bind, run_lift. unfold pointwise. simpl.
  rewrite bool_decide_eq_true_2 by done.
  rewrite run_bind, run_lift. unfold broadcast_last at 1. simpl.
  rewrite bool_decide_eq_true_2 by done.
  rewrite run_lift. unfold broadcast_last. simpl.
  rewrite bool_decide_eq_true_2 by done.
  eexists. split; [reflexivity|]. split; [done|]. simpl.
  intros k u Hk.
  assert (Hd : (0 < d)%nat).
  { apply lookup_lt_Some in Hk. destruct d; [|lia]. lia. }
  assert (Hmod : (k `mod` d < d)%nat) by (apply Nat.mod_upper_bound; lia).
  destruct (lookup_lt_is_Some_2 (data bounds) (k `mod` d)%nat) as [lo Hlo];
    [lia|].
  destruct (lookup_lt_is_Some_2 (data bounds) (d + k `mod` d)%nat)
    as [hi Hhi]; [lia|].
  exists lo, hi. split; [done|]. split; [done|].
  rewrite !Nat.mul_1_r, !Nat.add_0_r.
  rewrite !list_lookup_imap, Hk. simpl.
  rewrite lookup_zip_with.
  rewrite !lookup_take_lt by done. rewrite !lookup_drop. simpl.
  by rewrite Hlo, Hhi.
Qed.

(** C6 (as amended): let [dim = d * q] be the sampling dimension.  The
    [SamplingWarning] diagnostic is emitted exactly when [dim] exceeds the
    sampler's maximal dimension and the debug setting is on.  Whether or not
    it is emitted the run goes on to sample: every sampler call is a call of
    [torch.rand] when [dim] exceeds the maximum, and a call of the
    low-discrepancy sampler otherwise.  In the first case the raw samples
    are the uniform draws [u], rescaled into the bounds as
    [lower + (upper - lower) * u]. *)
Theorem sampling_dimension_fallback acq bounds q nr raw opts seed bl d
    (w : world') :
  let q' := default 1 q in
  let dim := Z.of_nat d * q' in
  let w' :=
    (gen_batch_initial_conditions E fuel acq bounds q nr raw opts w).2 in
  get_int (default ∅ opts) "seed" = Ret seed →
  get_int (default ∅ opts) "batch_limit" = Ret bl →
  shape_last bounds = Ret d →
  (1 ≤ fuel)%nat →
  sampling_warnings w' =
    sampling_warnings w ++
    (if (SobolEngine_MAXDIM E <? dim) && settings_debug_on E
     then [(SamplingWarning, sampling_msg)] else []) ∧
  (∃ evs, evs ≠ [] ∧ sampling_events w' = sampling_events w ++ evs ∧
          Forall (λ ev, ∃ n sd,
                    ev = if SobolEngine_MAXDIM E <? dim
                         then EvRand (n * dim) sd
                         else EvSobol bounds n q' sd) evs) ∧
  (∀ n sd us g (w1 : world'),
     SobolEngine_MAXDIM E < dim →
     torch_rand E sd (n * dim) (rng w1) = (Ret us, g) →
     0 ≤ n → 0 ≤ q' → Z.of_nat (length us) = n * q' * Z.of_nat d →
     shape bounds = [2%nat; d] → length (data bounds) = (2 * d)%nat →
     ∃ X, draw_X_rnd E bounds n q' d dim sd w1 =
            (Ret X, (call_rand E sd (n * dim) w1).2) ∧
          shape X = [Z.to_nat n; Z.to_nat q'; d] ∧
          ∀ k u, us !! k = Some u →
            ∃ lo hi, data bounds !! (k `mod` d)%nat = Some lo ∧
                     data bounds !! (d + k `mod` d)%nat = Some hi ∧
                     data X !! k = Some (Radd lo (Rmul (Rsub hi lo) u))).
Proof.
  intros q' dim w' Hseed Hbl Hd Hfuel. subst w'.
  destruct (select_initializer (default ∅ opts) acq) as [nonneg kw] eqn:Hsel.
  rewrite (gen_batch_initial_conditions_run _ _ _ _ _ _ _ _ _ _ _ _
             Hseed Hbl Hd Hsel).
  fold q' dim. split; [|split].
  - unfold loop. simpl.
    by rewrite retry_loop_warnings, dimension_check_warnings.
  - destruct (loop_sampling acq bounds q' d dim nr raw nonneg kw fuel
                {| rs_factor := 1; rs_seed := seed; rs_batch_limit := bl;
                   rs_last := None |} (dimension_check E dim w).2)
      as (m & _ & Hm & Hev).
    cbn [rs_factor rs_seed] in Hm, Hev.
    rewrite dimension_check_sampling in Hev.
    eexists. split; [|split; [exact Hev|]].
    + assert (1 ≤ m)%nat by (apply Hm; [lia|unfold max_factor; lia]).
      destruct m; [lia|]. done.
    + apply Forall_take, schedule_Forall. intros n sd. exists n, sd.
      unfold sample_event. rewrite Z.leb_antisym.
      by destruct (SobolEngine_MAXDIM E <? dim).
  - intros n sd us g w1. apply draw_X_rnd_fallback.
Qed.

(** *** Sub-batching on the joint path *)

(** [batch_limit] is not forwarded to the solver. *)
Lemma solver_options_batch_limit (opts : gmap string (@opt_value R)) v :
  solver_options (<["batch_limit" := v]> opts) = solver_options opts.
Proof.
  unfold solver_options. apply map_filter_insert_not.
  intros y [Hne _]. by apply Hne.
Qed.

Lemma slice0_row (t : tensor R) n sh (j : nat) :
  shape t = n :: sh → (j < n)%nat →
  slice0 t (Z.of_nat j) (Z.of_nat j + 1) = Ret (row_of t j).
Proof.
  intros Hsh Hj. unfold slice0, row_of. rewrite Hsh. simpl.
  unfold slice_index.
  destruct (Z.ltb_spec (Z.of_nat j) 0); [lia|].
  destruct (Z.ltb_spec (Z.of_nat j + 1) 0); [lia|].
  replace (Z.to_nat (Z.min (Z.of_nat j + 1) (Z.of_nat n))) with (S j) by lia.
  replace (Z.to_nat (Z.min (Z.of_nat j) (Z.of_nat n))) with j by lia.
  replace (S j - j)%nat with 1%nat by lia.
  by rewrite Nat.mul_1_l.
Qed.

Lemma concat_chunks (l : list R) n m :
  length l = (n * m)%nat →
  concat ((λ j, take m (drop (j * m) l)) <$> seq 0 n) = l.
Proof.
  revert l. induction n as [|n IH]; intros l Hlen; simpl.
  - by destruct l.
  - rewrite <- fmap_S_seq, <- list_fmap_compose.
    etrans; [|apply (take_drop m l)]. f_equal.
    etrans; [|apply (IH (drop m l)); rewrite length_drop; lia].
    f_equal. apply list_fmap_ext. intros _ j _. simpl.
    rewrite drop_drop. repeat f_equal; lia.
Qed.

Lemma cat0_ret (ts : list (tensor R)) sh :
  ts ≠ [] → Forall (λ u, row_shape u = Some sh) ts →
  cat0 ts = Ret (mkTensor (sum_list (first_dim <$> ts) :: sh)
                   (concat (data <$> ts))).
Proof.
  intros Hne Hall. unfold cat0. destruct ts as [|t ts']; [done|].
  rewrite (Forall_inv Hall).
  assert (Hb : forallb (λ u, bool_decide (row_shape u = Some sh)) (t :: ts')
               = true).
  { apply forallb_forall. intros u Hu. apply bool_decide_eq_true_2.
    rewrite Forall_forall in Hall. by apply Hall, list_elem_of_In. }
  by rewrite Hb.
Qed.

(** Concatenating the single-restart sub-batches gives the batch back. *)
Lemma cat0_rows (t : tensor R) n sh :
  shape t = S n :: sh → wf_tensor t →
  cat0 (row_of t <$> seq 0 (S n)) = Ret t.
Proof.
  intros Hsh Hwf. unfold wf_tensor in Hwf. rewrite Hsh in Hwf.
  rewrite (cat0_ret _ sh).
  - destruct t as [sht dt]. simpl in *. subst sht. do 2 f_equal.
    + f_equal. rewrite <- list_fmap_compose.
      assert (Hsum : ∀ js : list nat,
                sum_list ((first_dim ∘ row_of (mkTensor (S n :: sh) dt))
                            <$> js) = length js).
      { induction js as [|j js IH]; [done|].
        rewrite fmap_cons. simpl. by rewrite IH. }
      by rewrite Hsum, length_seq.
    + rewrite <- list_fmap_compose.
      exact (concat_chunks dt (S n) (numel sh) Hwf).
  - done.
  - apply Forall_fmap, Forall_forall. intros j _.
    unfold row_shape, row_of, compose. simpl. by rewrite Hsh.
Qed.

Lemma solver_calls_log X o (w : world') :
  solver_calls (log (EvSolver X o) w) = solver_calls w ++ [X].
Proof. unfold solver_calls, log. simpl. by rewrite omap_app. Qed.

Lemma solver_calls_post X (w : world') :
  solver_calls (log (EvPost X) w) = solver_calls w.
Proof.
  unfold solver_calls, log. simpl. by rewrite omap_app, app_nil_r.
Qed.

Section SubBatches.
Context (acq : @AcquisitionFunction R) (bounds lo hi : tensor R)
  (opts : gmap string (@opt_value R))
  (ineq eq : option (list (tensor R * tensor R * R)))
  (ff : option (gmap Z R)) (bic C V : tensor R) (n : nat)
  (pending : option (tensor R)).
Context (Hlo : select0 bounds 0 = Ret lo) (Hhi : select0 bounds 1 = Ret hi).

#[local] Abbreviation solve := (solve acq lo hi opts ineq eq ff pending).

(** With [batch_limit = 1] the loop calls the solver on the restarts one by
    one, in increasing order. *)
Lemma solve_batches_rows shb v m :
  solver_options v = solver_options opts →
  shape bic = n :: shb →
  (∀ j, (j < n)%nat → solve (row_of bic j) = Ret (row_of C j, row_of V j)) →
  ∀ j k cl vl (w1 : world'),
    (j + m = n)%nat → (m ≤ k)%nat → X_pending w1 = pending →
    ∃ w2, solve_batches E k acq bounds v ineq eq ff bic (Z.of_nat n) 1
            (Z.of_nat j) cl vl w1 =
          (Ret (cl ++ (row_of C <$> seq j m), vl ++ (row_of V <$> seq j m)),
           w2) ∧
          X_pending w2 = pending ∧
          solver_calls w2 = solver_calls w1 ++ (row_of bic <$> seq j m).
Proof.
  intros Hv Hsh Hrows. induction m as [|m IH]; intros j k cl vl w1 Hj Hk Hp.
  - exists w1. simpl. rewrite !app_nil_r. split; [|done].
    assert (Hge : (Z.of_nat j <? Z.of_nat n) = false) by (apply Z.ltb_ge; lia).
    destruct k; simpl; by rewrite Hge.
  - destruct k as [|k]; [lia|]. simpl.
    assert (Hlt : (Z.of_nat j <? Z.of_nat n) = true) by (apply Z.ltb_lt; lia).
    rewrite Hlt.
    replace (Z.min (Z.of_nat j + 1) (Z.of_nat n)) with (Z.of_nat j + 1)
      by lia.
    rewrite run_bind, run_lift, (slice0_row bic n shb j) by (done || lia).
    rewrite run_bind, run_lift, Hlo, run_bind, run_lift, Hhi.
    rewrite run_bind. unfold call_solver at 1. rewrite Hv, Hp.
    fold (solve (row_of bic j)). rewrite Hrows by lia.
    replace (Z.of_nat j + 1) with (Z.of_nat (S j)) by lia.
    destruct (IH (S j) k (cl ++ [row_of C j]) (vl ++ [row_of V j])
                (log (EvSolver (row_of bic j) (solver_options opts)) w1))
      as (w2 & Hrun & Hp2 & Hcalls); [lia|lia|done|].
    exists w2. rewrite Hrun, <- !app_assoc. split; [done|]. split; [done|].
    by rewrite Hcalls, solver_calls_log, <- app_assoc.
Qed.

(** With [batch_limit = num_restarts] the loop calls the solver once, on all
    restarts. *)
Lemma solve_batches_single v X0 k (w1 : world') :
  solver_options v = solver_options opts →
  (1 ≤ n)%nat → (1 ≤ k)%nat → X_pending w1 = pending →
  slice0 bic 0 (Z.of_nat n) = Ret X0 →
  solve X0 = Ret (C, V) →
  solve_batches E k acq bounds v ineq eq ff bic (Z.of_nat n) (Z.of_nat n) 0
    [] [] w1 =
  (Ret ([C], [V]), log (EvSolver X0 (solver_options opts)) w1).
Proof.
  intros Hv Hn Hk Hp Hslice Hsolve. destruct k as [|k]; [lia|]. simpl.
  assert (Hlt : (0 <? Z.of_nat n) = true) by (apply Z.ltb_lt; lia).
  rewrite Hlt. rewrite Z.min_id.
  rewrite run_bind, run_lift, Hslice.
  rewrite run_bind, run_lift, Hlo, run_bind, run_lift, Hhi.
  rewrite run_bind. unfold call_solver at 1. rewrite Hv, Hp.
  fold (solve X0). rewrite Hsolve.
  assert (Hge : (Z.of_nat n <? Z.of_nat n) = false) by (apply Z.ltb_ge; lia).
  destruct k; simpl; by rewrite Z.add_0_l, Hge.
Qed.

End SubBatches.

(** The end of the joint path once the solver has been run. *)
Lemma joint_finish_all (post : option (tensor R → outcome (tensor R)))
    acq bounds q nr raw o ineq eq ff bic b cl vl C V C' (w w1 : world') :
  o !! "batch_limit" = Some (OInt b) →
  solve_batches E fuel acq bounds o ineq eq ff bic nr b 0 [] [] w =
    (Ret (cl, vl), w1) →
  cat0 cl = Ret C → cat0 vl = Ret V →
  match post with Some f => f C = Ret C' | None => C' = C end →
  ∃ w2, optimize_acqf E fuel acq bounds q nr raw (Some o) ineq eq ff post
          (Some bic) false false w = (Ret (C', V), w2) ∧
        solver_calls w2 = solver_calls w1.
Proof.
  intros Hbl Hsolve HC HV Hpost.
  unfold optimize_acqf, optimize_acqf_joint. simpl.
  rewrite run_bind. simpl. rewrite Hbl. simpl.
  rewrite run_bind, run_lift, run_bind, Hsolve.
  rewrite run_bind, run_lift, HC, run_bind, run_lift, HV, run_bind.
  destruct post as [f|].
  - unfold call_post. rewrite Hpost. eexists. split; [done|].
    apply solver_calls_post.
  - subst C'. by exists w1.
Qed.

(** C8 (as amended): take fixed initial conditions of [n] restarts and a
    solver that treats restarts independently, that is, whose result on a
    single restart is the corresponding row of its result [(C, V)] on the
    whole batch.  Then the joint path with [batch_limit = n] (one solver
    call) and with [batch_limit = 1] ([n] solver calls) returns the same
    concatenated candidates and the same concatenated values, and with
    [batch_limit = 1] the solver is called on the restarts in increasing
    index order. *)
Theorem sub_batching_restartwise_solver acq bounds q raw opts ineq eq ff post
    bic lo hi X0 C V C' n shb shc shv (w : world') :
  let run b :=
    optimize_acqf E fuel acq bounds q (Z.of_nat n) raw
      (Some (<["batch_limit" := OInt b]> opts)) ineq eq ff post (Some bic)
      false false w in
  let solve := solve acq lo hi opts ineq eq ff (X_pending w) in
  (1 ≤ n)%nat → (n ≤ fuel)%nat →
  select0 bounds 0 = Ret lo → select0 bounds 1 = Ret hi →
  shape bic = n :: shb →
  slice0 bic 0 (Z.of_nat n) = Ret X0 →
  solve X0 = Ret (C, V) →
  (∀ j, (j < n)%nat → solve (row_of bic j) = Ret (row_of C j, row_of V j)) →
  shape C = n :: shc → wf_tensor C →
  shape V = n :: shv → wf_tensor V →
  match post with Some f => f C = Ret C' | None => C' = C end →
  ∃ w1 w2,
    run (Z.of_nat n) = (Ret (C', V), w1) ∧
    run 1 = (Ret (C', V), w2) ∧
    solver_calls w1 = solver_calls w ++ [X0] ∧
    solver_calls w2 = solver_calls w ++ (row_of bic <$> seq 0 n).
Proof.
  intros run solve' Hn Hfuel Hlo Hhi Hshb Hslice Hall Hrows HshC HwfC HshV
    HwfV Hpost.
  destruct n as [|n']; [lia|]. set (n := S n') in *.
  destruct (joint_finish_all post acq bounds q (Z.of_nat n) raw
              (<["batch_limit" := OInt (Z.of_nat n)]> opts) ineq eq ff bic
              (Z.of_nat n) [C] [V] C V C' w
              (log (EvSolver X0 (solver_options opts)) w))
    as (w1 & Hrun1 & Hcalls1).
  { apply lookup_insert_eq. }
  { eapply (solve_batches_single acq bounds lo hi opts ineq eq ff bic C V n
              (X_pending w)); try done; try lia.
    apply solver_options_batch_limit. }
  { rewrite (cat0_ret _ shc); [|done|].
    - destruct C as [s dC]. simpl in *. subst s. simpl.
      by rewrite Nat.add_0_r, app_nil_r.
    - constructor; [|done]. unfold row_shape. by rewrite HshC. }
  { rewrite (cat0_ret _ shv); [|done|].
    - destruct V as [s dV]. simpl in *. subst s. simpl.
      by rewrite Nat.add_0_r, app_nil_r.
    - constructor; [|done]. unfold row_shape. by rewrite HshV. }
  { done. }
  destruct (solve_batches_rows acq bounds lo hi opts ineq eq ff bic C V n
              (X_pending w) Hlo Hhi shb
              (<["batch_limit" := OInt 1]> opts) n
              (solver_options_batch_limit _ _) Hshb Hrows 0%nat fuel [] [] w)
    as (w2' & Hsolve2 & _ & Hcalls2); [lia|lia|done|].
  destruct (joint_finish_all post acq bounds q (Z.of_nat n) raw
              (<["batch_limit" := OInt 1]> opts) ineq eq ff bic 1
              (row_of C <$> seq 0 n) (row_of V <$> seq 0 n) C V C' w w2')
    as (w2 & Hrun2 & Hcalls2').
  { apply lookup_insert_eq. }
  { exact Hsolve2. }
  { by apply (cat0_rows C n' shc). }
  { by apply (cat0_rows V n' shv). }
  { done. }
  exists w1, w2. split; [exact Hrun1|]. split; [exact Hrun2|].
  split.
  - by rewrite Hcalls1, solver_calls_log.
  - by rewrite Hcalls2', Hcalls2.
Qed.

(** *** The trace is write-only *)

Lemma trace_blind_pure {A} (m : M' A) :
  (∀ w, (m w).2 = w) → (∀ w t, (m (with_trace t w)).1 = (m w).1) →
  trace_blind m.
Proof.
  intros Hw Ho w. exists []. intros t. rewrite app_nil_r.
  rewrite (surjective_pairing (m (with_trace t w))).
  by rewrite !Hw, Ho.
Qed.

Lemma trace_blind_ret {A} (a : A) : trace_blind (mret a : M' A).
Proof. by apply trace_blind_pure. Qed.

Lemma trace_blind_lift {A} (o : outcome A) : trace_blind (@lift R G A o).
Proof. by apply trace_blind_pure. Qed.

Lemma trace_blind_raise {A} e : trace_blind (@raise R G A e).
Proof. by apply trace_blind_pure. Qed.

Lemma trace_blind_diverge {A} : trace_blind (@diverge R G A).
Proof. by apply trace_blind_pure. Qed.

Lemma trace_blind_bind {A B} (m : M' A) (f : A → M' B) :
  trace_blind m → (∀ a, trace_blind (f a)) → trace_blind (m ≫= f).
Proof.
  intros Hm Hf w. destruct (Hm w) as [e1 He1].
  destruct (m w) as [[a|e|] w1] eqn:Hmw; simpl in He1.
  - destruct (Hf a w1) as [e2 He2]. exists (e1 ++ e2). intros t.
    rewrite !run_bind, He1, Hmw, He2. by rewrite app_assoc.
  - exists e1. intros t. by rewrite !run_bind, He1, Hmw.
  - exists e1. intros t. by rewrite !run_bind, He1, Hmw.
Qed.

Lemma call_acq_blind a X : trace_blind (call_acq a X).
Proof. intros w. by exists [EvAcq X]. Qed.

Lemma call_sobol_blind bounds n q seed :
  trace_blind (call_sobol E bounds n q seed).
Proof.
  intros w. exists [EvSobol bounds n q seed]. intros t. unfold call_sobol.
  simpl. by destruct (draw_sobol_samples E bounds n q seed (rng w)).
Qed.

Lemma call_rand_blind seed count : trace_blind (call_rand E seed count).
Proof.
  intros w. exists [EvRand count seed]. intros t. unfold call_rand.
  simpl. by destruct (torch_rand E seed count (rng w)).
Qed.

Lemma call_init_blind nn X Y n kw : trace_blind (call_init E nn X Y n kw).
Proof.
  intros w. exists [EvInit nn X Y n kw]. intros t. unfold call_init. simpl.
  by destruct ((if nn then initialize_q_batch_nonneg E
                else initialize_q_batch E) X Y n kw (rng w)) as [[r ws] g].
Qed.

Lemma call_solver_blind acq ics lo hi opts ineq eq ff :
  trace_blind (call_solver E acq ics lo hi opts ineq eq ff).
Proof. intros w. by exists [EvSolver ics opts]. Qed.

Lemma call_post_blind f X : trace_blind (call_post f X).
Proof. intros w. by exists [EvPost X]. Qed.

Lemma warn_blind c msg : trace_blind (@warn R G c msg).
Proof. intros w. exists []. intros t. by rewrite app_nil_r. Qed.

Lemma dimension_check_blind dim : trace_blind (dimension_check E dim).
Proof.
  unfold dimension_check.
  destruct (_ && _); [apply warn_blind|apply trace_blind_ret].
Qed.

Create HintDb blind.
#[local] Hint Resolve trace_blind_ret trace_blind_lift trace_blind_raise
  trace_blind_diverge call_acq_blind call_sobol_blind call_rand_blind
  call_init_blind call_solver_blind call_post_blind warn_blind
  dimension_check_blind : blind.

Ltac blind_steps :=
  repeat first
    [ solve [auto with blind]
    | apply trace_blind_bind; [|intros ?]
    | match goal with
      | |- trace_blind (match ?x with _ => _ end) => destruct x
      | |- trace_blind (if ?b then _ else _) => destruct b
      | |- trace_blind (let '(_, _) := ?x in _) => destruct x
      end ].

Lemma score_batches_blind k a X rows bl start Ys :
  trace_blind (score_batches k a X rows bl start Ys).
Proof.
  revert start Ys. induction k as [|k IH]; intros start Ys; simpl.
  - blind_steps.
  - destruct (start <? rows); [|auto with blind].
    blind_steps; apply IH.
Qed.
#[local] Hint Resolve score_batches_blind : blind.

Lemma retry_loop_blind k acq bounds q d dim nr raw nonneg kw factor seed bl
    last :
  trace_blind
    (retry_loop E fuel k acq bounds q d dim nr raw nonneg kw factor seed bl
       last).
Proof.
  revert factor seed bl last.
  induction k as [|k IH]; intros factor seed bl last; simpl.
  - blind_steps.
  - destruct (factor <? max_factor) eqn:Hf; [|blind_steps].
    apply trace_blind_bind.
    + unfold sampling_attempt, draw_X_rnd. blind_steps.
    + intros [[bic ws] bl']. destruct (negb _); [auto with blind|apply IH].
Qed.
#[local] Hint Resolve retry_loop_blind : blind.

Lemma gen_batch_initial_conditions_blind acq bounds q nr raw opts :
  trace_blind (gen_batch_initial_conditions E fuel acq bounds q nr raw opts).
Proof. unfold gen_batch_initial_conditions. blind_steps. Qed.
#[local] Hint Resolve gen_batch_initial_conditions_blind : blind.

Lemma solve_batches_blind k acq bounds opts ineq eq ff bic nr bl start cl vl :
  trace_blind
    (solve_batches E k acq bounds opts ineq eq ff bic nr bl start cl vl).
Proof.
  revert start cl vl. induction k as [|k IH]; intros start cl vl; simpl.
  - blind_steps.
  - destruct (start <? nr); [|auto with blind].
    blind_steps; apply IH.
Qed.
#[local] Hint Resolve solve_batches_blind : blind.

Lemma optimize_acqf_joint_blind acq bounds q nr raw opts ineq eq ff post bic
    rbo :
  trace_blind
    (optimize_acqf_joint E fuel acq bounds q nr raw opts ineq eq ff post bic
       rbo).
Proof. unfold optimize_acqf_joint. blind_steps. Qed.

(** *** Sequential and joint optimisation of a single candidate *)

Lemma split_m2_shape sh pre n d :
  split_m2 sh = Some (pre, n, d) → sh = pre ++ [n; d].
Proof.
  unfold split_m2. intros Hs.
  destruct (reverse sh) as [|d' [|n' pre']] eqn:Hrev; try discriminate.
  inversion Hs; subst.
  rewrite <- (reverse_involutive sh), Hrev, !reverse_cons, <- app_assoc.
  done.
Qed.

Lemma numel_app sh1 sh2 : numel (sh1 ++ sh2) = (numel sh1 * numel sh2)%nat.
Proof.
  induction sh1 as [|a sh1 IH]; simpl; [lia|]. rewrite IH. lia.
Qed.

(** Concatenating a single tensor gives it back. *)
Lemma cat_m2_singleton (t : tensor R) pre n d :
  split_m2 (shape t) = Some (pre, n, d) → wf_tensor t → cat_m2 [t] = Ret t.
Proof.
  intros Hs Hwf. unfold cat_m2. rewrite Hs. simpl. rewrite Hs.
  rewrite !bool_decide_eq_true_2 by done. simpl.
  apply split_m2_shape in Hs. unfold wf_tensor in Hwf.
  destruct t as [sh dt]. simpl in *. subst sh.
  rewrite Nat.add_0_r. f_equal. f_equal.
  rewrite numel_app in Hwf. simpl in Hwf. rewrite Nat.mul_1_r in Hwf.
  etrans; [|apply (concat_chunks dt (numel pre) (n * d) Hwf)].
  f_equal. apply list_fmap_ext. intros _ b _. unfold block. simpl.
  by rewrite app_nil_r.
Qed.

(** C9 (as amended): for [q = 1], when the joint call without supplied
    initial conditions returns the candidate [c] and the value [v], the
    sequential call returns the same candidate and the value stacked into a
    vector of length one, draws the same random numbers, emits the same
    warnings and leaves the pending points as they were.  Here [c] is a
    well-formed tensor with at least two axes, and the pending points, when
    there are any, can be concatenated with it. *)
Theorem sequential_q1_matches_joint acq bounds nr raw opts ineq eq ff post
    bic c v pre n d (w w1 : world') :
  optimize_acqf E fuel acq bounds 1 nr raw opts ineq eq ff post None true
    false w = (Ret (c, v), w1) →
  split_m2 (shape c) = Some (pre, n, d) → wf_tensor c →
  (∀ base, X_pending w = Some base → ∃ t, cat_m2 [base; c] = Ret t) →
  ∃ w2,
    optimize_acqf E fuel acq bounds 1 nr raw opts ineq eq ff post bic true
      true w = (Ret (c, mkTensor (1%nat :: shape v) (data v)), w2) ∧
    X_pending w2 = X_pending w ∧ rng w2 = rng w1 ∧
    warnings w2 = warnings w1.
Proof.
  intros Hjoint Hs Hwf Hbase. unfold optimize_acqf in *.
  cbn -[cat_m2 stack0 optimize_acqf_joint sequential_loop] in *.
  destruct (optimize_acqf_joint_blind acq bounds 1 nr raw
              (Some (default ∅ opts)) ineq eq ff post None true w)
    as [evs Hblind].
  assert (Hopts : optimize_acqf_joint E fuel acq bounds 1 nr raw
                    (Some (default ∅ opts)) ineq eq ff post None true =
                  optimize_acqf_joint E fuel acq bounds 1 nr raw opts ineq eq
                    ff post None true) by (by destruct opts).
  rewrite Hopts in Hblind. rewrite Hjoint in Hblind.
  specialize (Hblind (trace w ++ [EvGetPending])).
  change (with_trace (trace w ++ [EvGetPending]) w)
    with (log EvGetPending w) in Hblind.
  assert (Hpend : ∃ t, match X_pending w with
                       | Some base => cat_m2 [base; c]
                       | None => Ret c
                       end = Ret t).
  { destruct (X_pending w) as [base|]; [by apply Hbase|by exists c]. }
  destruct Hpend as [t Ht].
  eexists. split.
  - rewrite run_bind. unfold get_X_pending at 1.
    cbn -[cat_m2 stack0 optimize_acqf_joint sequential_loop].
    change (Z.to_nat 1) with 1%nat. cbn [sequential_loop].
    rewrite Hopts, run_bind, run_bind, Hblind.
    cbn -[cat_m2 stack0].
    rewrite run_bind, run_lift, (cat_m2_singleton c pre n d Hs Hwf).
    rewrite run_bind.
    assert (Hm : ∀ w0 : world',
              match X_pending w with
              | Some base => lift (cat_m2 [base; c])
              | None => mret c
              end w0 = (Ret t, w0)).
    { intros w0. destruct (X_pending w); [by rewrite run_lift, Ht|].
      by inversion Ht. }
    rewrite Hm, run_bind. unfold set_X_pending at 1. cbn -[stack0].
    rewrite run_bind. unfold set_X_pending. cbn -[stack0].
    rewrite run_bind, run_lift. unfold stack0. simpl.
    rewrite bool_decide_eq_true_2 by done. simpl.
    rewrite app_nil_r. reflexivity.
  - done.
Qed.

(** *** Shapes *)

Lemma returns_bind {A B} (m : M' A) (f : A → M' B) (P : A → Prop)
    (Q : B → Prop) :
  returns_sat m P → (∀ a, P a → returns_sat (f a) Q) →
  returns_sat (m ≫= f) Q.
Proof.
  intros Hm Hf w b w' Hrun.
  apply run_bind_inv in Hrun as (a & w1 & Hrun1 & Hrun2).
  eapply Hf; [|exact Hrun2]. by eapply Hm.
Qed.

Lemma returns_ret {A} (a : A) (P : A → Prop) :
  P a → returns_sat (mret a : M' A) P.
Proof. intros HP w a' w' Hrun. by inversion Hrun; subst. Qed.

Lemma returns_lift {A} (o : outcome A) (P : A → Prop) :
  (∀ a, o = Ret a → P a) → returns_sat (@lift R G A o) P.
Proof. intros HP w a w' Hrun. apply HP. by inversion Hrun. Qed.

Lemma returns_any {A} (m : M' A) : returns_sat m (λ _, True).
Proof. by intros w a w' _. Qed.

Lemma broadcast_last_shape op (v t t' : tensor R) :
  broadcast_last op v t = Ret t' → shape t' = shape t.
Proof.
  unfold broadcast_last. destruct (shape v) as [|d [|]]; try done.
  case_bool_decide; [|done]. by inversion 1.
Qed.

Lemma draw_X_rnd_shape bounds n q d dim seed :
  shape_contracts → shape_last bounds = Ret d →
  returns_sat (draw_X_rnd E bounds n q d dim seed)
    (λ X, shape X = [Z.to_nat n; Z.to_nat q; d]).
Proof.
  intros (_ & Hsobol & _) Hd. unfold draw_X_rnd.
  destruct (dim <=? SobolEngine_MAXDIM E).
  - intros w X w' Hrun. unfold call_sobol in Hrun.
    destruct (draw_sobol_samples E bounds n q seed (rng w)) as [r g] eqn:Hs.
    inversion Hrun; subst. by eapply Hsobol.
  - eapply returns_bind; [apply returns_any|]. intros xs _.
    eapply (returns_bind _ _ (λ U, shape U = [Z.to_nat n; Z.to_nat q; d])).
    { apply returns_lift. intros U. unfold view3.
      case_bool_decide; [|done]. by inversion 1. }
    intros U HU. do 3 (eapply returns_bind; [apply returns_any|]; intros ? _).
    eapply (returns_bind _ _ (λ S, shape S = [Z.to_nat n; Z.to_nat q; d])).
    { apply returns_lift. intros S HS.
      by rewrite (broadcast_last_shape _ _ _ _ HS). }
    intros S HS. apply returns_lift. intros X HX.
    by rewrite (broadcast_last_shape _ _ _ _ HX).
Qed.

Lemma sampling_attempt_shape acq bounds q d dim nr raw nonneg kw factor seed
    bl :
  shape_contracts → shape_last bounds = Ret d →
  returns_sat
    (sampling_attempt E fuel acq bounds q d dim nr raw nonneg kw factor seed
       bl)
    (λ r, shape r.1.1 = [Z.to_nat nr; Z.to_nat q; d]).
Proof.
  intros Hc Hd. unfold sampling_attempt.
  eapply returns_bind; [by apply draw_X_rnd_shape|]. intros X HX.
  do 3 (eapply returns_bind; [apply returns_any|]; intros ? _).
  eapply (returns_bind _ _ (λ r, shape r.1 = [Z.to_nat nr; Z.to_nat q; d])).
  - intros w [b ws] w' Hrun. unfold call_init in Hrun.
    destruct ((if nonneg then initialize_q_batch_nonneg E
               else initialize_q_batch E) X _ nr kw (rng w))
      as [[r ws'] g] eqn:Hi.
    destruct r as [b'| |]; inversion Hrun; subst.
    destruct Hc as (_ & _ & Hinit). simpl.
    by rewrite (Hinit _ _ _ _ _ _ _ _ _ Hi), HX.
  - intros [b ws] Hb. by apply returns_ret.
Qed.

Lemma retry_loop_shape k acq bounds q d dim nr raw nonneg kw factor seed bl
    last :
  shape_contracts → shape_last bounds = Ret d →
  (∀ b, last = Some b → shape b = [Z.to_nat nr; Z.to_nat q; d]) →
  returns_sat
    (retry_loop E fuel k acq bounds q d dim nr raw nonneg kw factor seed bl
       last)
    (λ b, shape b = [Z.to_nat nr; Z.to_nat q; d]).
Proof.
  intros Hc Hd. revert factor seed bl last.
  induction k as [|k IH]; intros factor seed bl last Hlast; simpl.
  - destruct (factor <? max_factor); [by intros w a w' Hrun|].
    eapply returns_bind; [apply returns_any|]. intros _ _.
    destruct last; [by apply returns_ret, Hlast|by intros w a w' Hrun].
  - destruct (factor <? max_factor).
    + eapply returns_bind; [by apply sampling_attempt_shape|].
      intros [[b ws] bl'] Hb. simpl in Hb.
      destruct (negb _); [by apply returns_ret|].
      apply IH. intros b' Hb'. by inversion Hb'; subst.
    + eapply returns_bind; [apply returns_any|]. intros _ _.
      destruct last; [by apply returns_ret, Hlast|by intros w a w' Hrun].
Qed.

Lemma gen_batch_initial_conditions_shape acq bounds q nr raw opts d :
  shape_contracts → shape_last bounds = Ret d →
  returns_sat (gen_batch_initial_conditions E fuel acq bounds q nr raw opts)
    (λ b, shape b = [Z.to_nat nr; Z.to_nat (default 1 q); d]).
Proof.
  intros Hc Hd. unfold gen_batch_initial_conditions.
  do 2 (eapply returns_bind; [apply returns_any|]; intros ? _).
  destruct (select_initializer _ _) as [nonneg kw].
  eapply (returns_bind _ _ (λ d', d' = d)).
  { apply returns_lift. intros d' Hd'. rewrite Hd in Hd'. by inversion Hd'. }
  intros d' ->. eapply returns_bind; [apply returns_any|]. intros _ _.
  by apply retry_loop_shape.
Qed.

Lemma cat0_inv (ts : list (tensor R)) C :
  cat0 ts = Ret C →
  ∃ t ts' sh, ts = t :: ts' ∧ row_shape t = Some sh ∧
              shape C = sum_list (first_dim <$> ts) :: sh.
Proof.
  unfold cat0. destruct ts as [|t ts']; [done|].
  destruct (row_shape t) as [sh|] eqn:Hsh; [|done].
  destruct (forallb _ _); [|done]. inversion 1; subst. simpl. eauto 10.
Qed.

Lemma select0_shape (t c : tensor R) i :
  select0 t i = Ret c → shape c = tail (shape t).
Proof.
  unfold select0. destruct (shape t) as [|n sh]; [done|].
  destruct (i <? n)%nat; [|done]. by inversion 1.
Qed.

(** A [batch_limit] below one makes no progress: the loop does not
    return. *)
Lemma solve_batches_no_progress k acq bounds opts ineq eq ff bic nr bl start
    cl vl (w : world') r w' :
  bl ≤ 0 → start < nr →
  solve_batches E k acq bounds opts ineq eq ff bic nr bl start cl vl w ≠
  (Ret r, w').
Proof.
  intros Hbl. revert start cl vl w.
  induction k as [|k IH]; intros start cl vl w Hlt; simpl.
  - apply Z.ltb_lt in Hlt. by rewrite Hlt.
  - pose proof Hlt as Hltb. apply Z.ltb_lt in Hltb. rewrite Hltb.
    intros Hrun.
    apply run_bind_inv in Hrun as (ics & w1 & _ & Hrun).
    apply run_bind_inv in Hrun as (lo & w2 & _ & Hrun).
    apply run_bind_inv in Hrun as (hi & w3 & _ & Hrun).
    apply run_bind_inv in Hrun as ([c v] & w4 & _ & Hrun).
    by apply IH in Hrun; [|lia].
Qed.

(** The candidates returned by the sub-batches have the rows of the initial
    conditions and there are [num_restarts] of them in all. *)
Lemma solve_batches_shape k acq bounds opts ineq eq ff bic nr bl rs start cl
    vl :
  shape_contracts → shape bic = Z.to_nat nr :: rs →
  1 ≤ bl → 0 ≤ start →
  Forall (λ c, row_shape c = Some rs) cl →
  sum_list (first_dim <$> cl) = Z.to_nat (Z.min start nr) →
  returns_sat
    (solve_batches E k acq bounds opts ineq eq ff bic nr bl start cl vl)
    (λ r, Forall (λ c, row_shape c = Some rs) r.1 ∧
          sum_list (first_dim <$> r.1) = Z.to_nat nr).
Proof.
  intros Hc Hsh Hbl. revert start cl vl.
  induction k as [|k IH]; intros start cl vl Hstart Hall Hsum; simpl.
  - destruct (Z.ltb_spec start nr); [by intros w a w' Hrun|].
    apply returns_ret. simpl. split; [done|]. rewrite Hsum. lia.
  - destruct (Z.ltb_spec start nr) as [Hlt|Hge].
    + set (end_idx := Z.min (start + bl) nr).
      eapply (returns_bind _ _
                (λ X, shape X = Z.to_nat (end_idx - start) :: rs)).
      { apply returns_lift. intros X. unfold slice0. rewrite Hsh.
        inversion 1; subst. simpl. f_equal. unfold slice_index.
        destruct (Z.ltb_spec start 0); [lia|].
        destruct (Z.ltb_spec end_idx 0); [lia|]. lia. }
      intros X HX.
      do 2 (eapply returns_bind; [apply returns_any|]; intros ? _).
      eapply (returns_bind _ _ (λ r, shape r.1 = shape X)).
      { intros w [c v] w' Hrun. unfold call_solver in Hrun.
        inversion Hrun as [[Hs Hw]]. destruct Hc as (Hsolver & _).
        by apply Hsolver in Hs. }
      intros [c v] Hcv. simpl in Hcv. apply IH; [lia| |].
      * apply Forall_app. split; [done|]. constructor; [|done].
        unfold row_shape. by rewrite Hcv, HX.
      * rewrite fmap_app, sum_list_with_app, Hsum. simpl.
        unfold first_dim. rewrite Hcv, HX. simpl. lia.
    + apply returns_ret. simpl. split; [done|]. rewrite Hsum. lia.
Qed.

(** The candidates of the joint path. *)
Lemma optimize_acqf_joint_shape acq bounds q nr raw opts ineq eq ff post bic
    rbo d :
  shape_contracts →
  (∀ f X Y, post = Some f → f X = Ret Y → shape Y = shape X) →
  (∀ b, bic = Some b → shape b = [Z.to_nat nr; Z.to_nat q; d]) →
  shape_last bounds = Ret d →
  (is_analytic acq = true → q = 1) →
  returns_sat
    (optimize_acqf_joint E fuel acq bounds q nr raw opts ineq eq ff post bic
       rbo)
    (λ r, shape r.1 = if rbo then [Z.to_nat q; d]
                      else [Z.to_nat nr; Z.to_nat q; d]).
Proof.
  intros Hc Hpost Hbic Hd Han. unfold optimize_acqf_joint.
  eapply (returns_bind _ _
            (λ b, shape b = [Z.to_nat nr; Z.to_nat q; d])).
  { destruct bic as [b|].
    - apply returns_ret. by apply Hbic.
    - intros w b w' Hrun.
      apply (gen_batch_initial_conditions_shape _ _ _ _ _ _ d Hc Hd) in Hrun.
      rewrite Hrun. destruct (is_analytic acq); [|done].
      by rewrite Han. }
  intros b Hb. eapply returns_bind; [apply returns_any|]. intros bl _.
  intros w r w' Hrun.
  apply run_bind_inv in Hrun as ([cl vl] & w1 & Hsolve & Hrun).
  apply run_bind_inv in Hrun as (C & w2 & HC & Hrun).
  apply run_bind_inv in Hrun as (V & w3 & HV & Hrun).
  apply run_bind_inv in Hrun as (C' & w4 & HC' & Hrun).
  inversion HC as [[HC0 Hw2]]. clear HC.
  apply cat0_inv in HC0 as (t & ts' & sh & -> & Ht & HshC).
  assert (Hshape : shape C = [Z.to_nat nr; Z.to_nat q; d]).
  { destruct (Z_le_gt_dec bl 0) as [Hle|Hgt].
    - destruct (Z.ltb_spec 0 nr) as [Hlt|Hge].
      + by apply solve_batches_no_progress in Hsolve.
      + exfalso. clear -Hsolve Hge.
        destruct fuel; simpl in Hsolve;
          (destruct (Z.ltb_spec 0 nr); [lia|]); by inversion Hsolve.
    - apply (solve_batches_shape _ _ _ _ _ _ _ _ _ _ [Z.to_nat q; d])
        in Hsolve as [Hall Hsum]; try done; try lia.
      + cbn [fst] in Hall, Hsum. rewrite HshC, Hsum.
        apply Forall_inv in Hall. rewrite Ht in Hall. by inversion Hall.
      + simpl. lia. }
  assert (Hshape' : shape C' = [Z.to_nat nr; Z.to_nat q; d]).
  { destruct post as [f|].
    - unfold call_post in HC'. inversion HC' as [[Hf Hw4]].
      by rewrite (Hpost f C C' eq_refl Hf).
    - by inversion HC'; subst. }
  destruct rbo.
  - apply run_bind_inv in Hrun as (best & w5 & _ & Hrun).
    apply run_bind_inv in Hrun as (c & w6 & Hsel & Hrun).
    apply run_bind_inv in Hrun as (v & w7 & _ & Hrun).
    inversion Hrun; subst. inversion Hsel as [[Hsel0 Hw]].
    simpl. by rewrite (select0_shape _ _ _ Hsel0), Hshape'.
  - by inversion Hrun; subst.
Qed.

Lemma cat_m2_points_shape (ts : list (tensor R)) t d :
  cat_m2 ts = Ret t → Forall (λ c, shape c = [1%nat; d]) ts →
  shape t = [length ts; d].
Proof.
  unfold cat_m2. destruct ts as [|t0 ts']; [done|]. intros Hcat Hall.
  rewrite (Forall_inv Hall) in Hcat.
  change (split_m2 [1%nat; d]) with (Some ([] : list nat, 1%nat, d)) in Hcat.
  cbn beta iota in Hcat.
  match type of Hcat with
  | (if ?b then _ else _) = _ => destruct b; [|done]
  end.
  inversion Hcat; subst. simpl.
  do 2 f_equal.
  change (sum_list ((λ u, match split_m2 (shape u) with
                          | Some (_, n, _) => n
                          | None => 0%nat
                          end) <$> (t0 :: ts')) = length (t0 :: ts')).
  rewrite (sum_list_fmap_same 1); [lia|].
  eapply Forall_impl; [exact Hall|]. intros u Hu. simpl. by rewrite Hu.
Qed.

(** The candidates gathered by the greedy loop: one point per pass. *)
Lemma sequential_loop_shape k acq bounds nr raw opts ineq eq ff post base cl
    avl cands d :
  shape_contracts →
  (∀ f X Y, post = Some f → f X = Ret Y → shape Y = shape X) →
  shape_last bounds = Ret d →
  Forall (λ c, shape c = [1%nat; d]) cl →
  (cl ≠ [] → shape cands = [length cl; d]) →
  returns_sat
    (sequential_loop E fuel k acq bounds nr raw opts ineq eq ff post base cl
       avl cands)
    (λ r, length r.2 = (length avl + k)%nat ∧
          ((length cl + k)%nat ≠ 0%nat → shape r.1 = [(length cl + k)%nat; d])).
Proof.
  intros Hc Hpost Hd. revert cl avl cands.
  induction k as [|k IH]; intros cl avl cands Hall Hcands; simpl.
  - apply returns_ret. simpl. split; [lia|]. rewrite Nat.add_0_r.
    intros Hne. apply Hcands. by destruct cl.
  - eapply (returns_bind _ _ (λ r, shape r.1 = [1%nat; d])).
    { intros w r w' Hrun.
      by apply (optimize_acqf_joint_shape _ _ _ _ _ _ _ _ _ _ _ _ d Hc Hpost)
        in Hrun. }
    intros [c v] Hcv. simpl in Hcv.
    eapply (returns_bind _ _
              (λ t, shape t = [length (cl ++ [c]); d])).
    { apply returns_lift. intros t Ht.
      apply (cat_m2_points_shape _ _ d) in Ht; [done|].
      apply Forall_app. split; [done|]. by constructor. }
    intros t Ht.
    do 2 (eapply returns_bind; [apply returns_any|]; intros ? _).
    intros w r w' Hrun. apply IH in Hrun.
    + destruct Hrun as [Hlen Hsh]. rewrite !length_app in *. simpl in *.
      split; [lia|]. intros _.
      replace (length cl + S k)%nat with (length cl + 1 + k)%nat by lia.
      apply Hsh. lia.
    + apply Forall_app. split; [done|]. by constructor.
    + done.
Qed.

(** C7 (as amended): take collaborators that respect their shape contracts,
    a post-processing function that keeps shapes, and supplied initial
    conditions (if any) of shape [(num_restarts, q, d)].  Then the candidates
    returned by [optimize_acqf] have shape [(q, d)] when
    [return_best_only=True], on the joint and on the sequential path alike,
    and shape [(num_restarts, q, d)] when [return_best_only=False]. *)
Theorem returned_candidates_shape acq bounds q nr raw opts ineq eq ff post bic
    rbo sequential d c v (w w' : world') :
  shape_contracts →
  (∀ f X Y, post = Some f → f X = Ret Y → shape Y = shape X) →
  (∀ b, bic = Some b → shape b = [Z.to_nat nr; Z.to_nat q; d]) →
  shape_last bounds = Ret d →
  (sequential = false → is_analytic acq = true → q = 1) →
  optimize_acqf E fuel acq bounds q nr raw opts ineq eq ff post bic rbo
    sequential w = (Ret (c, v), w') →
  shape c = if rbo then [Z.to_nat q; d]
            else [Z.to_nat nr; Z.to_nat q; d].
Proof.
  intros Hc Hpost Hbic Hd Han Hrun. unfold optimize_acqf in Hrun.
  destruct sequential.
  - destruct rbo; [|done]. simpl in Hrun.
    apply run_bind_inv in Hrun as (base & w1 & _ & Hrun).
    apply run_bind_inv in Hrun as ([cands avl] & w2 & Hloop & Hrun).
    apply run_bind_inv in Hrun as (u & w3 & _ & Hrun).
    apply run_bind_inv in Hrun as (vs & w4 & Hstack & Hrun).
    inversion Hrun; subst.
    apply (sequential_loop_shape _ _ _ _ _ _ _ _ _ _ _ _ _ _ d Hc Hpost Hd)
      in Hloop; [|done..].
    destruct Hloop as [Hlen Hsh]. simpl in *.
    apply Hsh. intros Hq. rewrite Hq in Hlen.
    destruct avl; [|done]. by inversion Hstack.
  - by apply (optimize_acqf_joint_shape _ _ _ _ _ _ _ _ _ _ _ _ d Hc Hpost
                Hbic Hd (Han eq_refl)) in Hrun.
Qed.

(** ** Further properties *)

#[local] Abbreviation emits_only := (@emits_only R G _).
#[local] Abbreviation solver_sees := (@solver_sees R).
#[local] Abbreviation init_call_of := (@init_call_of R H).
#[local] Abbreviation sampler_call_for := (@sampler_call_for R).
#[local] Abbreviation solver_rows_within := (@solver_rows_within R).
#[local] Abbreviation acq_rows_within := (@acq_rows_within R).
#[local] Abbreviation terminates := (@terminates R G _).
#[local] Abbreviation pending_with := (@pending_with R).
#[local] Abbreviation is_solver_or_post := (@is_solver_or_post R).
#[local] Abbreviation is_first_nan := (@is_first_nan R H).
#[local] Abbreviation concat_rows := (@concat_rows R).
#[local] Abbreviation solve_sub_batch := (solve_sub_batch E).
#[local] Abbreviation post_processed := (@post_processed R).
#[local] Abbreviation post_calls := (@post_calls R G).
#[local] Abbreviation not_solver_or_post := (@not_solver_or_post R).

#[local] Abbreviation collaborators_terminate := (collaborators_terminate E).

(** *** What a run adds to the trace *)

Lemma emits_only_pure {A} P (m : M' A) :
  (∀ w, trace (m w).2 = trace w) → emits_only P m.
Proof. intros Hm w. exists []. by rewrite app_nil_r, Hm. Qed.

Lemma emits_only_one {A} (P : @event R → Prop) (m : M' A) ev :
  (∀ w, trace (m w).2 = trace w ++ [ev]) → P ev → emits_only P m.
Proof. intros Hm HP w. exists [ev]. split; [done|]. by constructor. Qed.

Lemma emits_only_ret {A} P (a : A) : emits_only P (mret a : M' A).
Proof. by apply emits_only_pure. Qed.

Lemma emits_only_lift {A} P (o : outcome A) : emits_only P (@lift R G A o).
Proof. by apply emits_only_pure. Qed.

Lemma emits_only_raise {A} P e : emits_only P (@raise R G A e).
Proof. by apply emits_only_pure. Qed.

Lemma emits_only_diverge {A} P : emits_only P (@diverge R G A).
Proof. by apply emits_only_pure. Qed.

Lemma emits_only_warn P c msg : emits_only P (@warn R G c msg).
Proof. by apply emits_only_pure. Qed.

Lemma emits_only_bind {A B} P (m : M' A) (f : A → M' B) :
  emits_only P m → (∀ a, emits_only P (f a)) → emits_only P (m ≫= f).
Proof.
  intros Hm Hf w. destruct (Hm w) as (e1 & He1 & HP1). rewrite run_bind.
  destruct (m w) as [[a|e|] w1]; simpl in He1; [|by exists e1..].
  destruct (Hf a w1) as (e2 & He2 & HP2). exists (e1 ++ e2).
  split; [by rewrite He2, He1, app_assoc|by apply Forall_app].
Qed.

Lemma call_acq_emits P a X : P (EvAcq X) → emits_only P (call_acq a X).
Proof. by apply emits_only_one. Qed.

Lemma call_sobol_emits P bounds n q seed :
  P (EvSobol bounds n q seed) → emits_only P (call_sobol E bounds n q seed).
Proof.
  apply emits_only_one. intros w. unfold call_sobol.
  by destruct (draw_sobol_samples E bounds n q seed (rng w)).
Qed.

Lemma call_rand_emits P seed count :
  P (EvRand count seed) → emits_only P (call_rand E seed count).
Proof.
  apply emits_only_one. intros w. unfold call_rand.
  by destruct (torch_rand E seed count (rng w)).
Qed.

Lemma call_init_emits P nn X Y n kw :
  P (EvInit nn X Y n kw) → emits_only P (call_init E nn X Y n kw).
Proof.
  apply emits_only_one. intros w. unfold call_init.
  by destruct ((if nn then initialize_q_batch_nonneg E
                else initialize_q_batch E) X Y n kw (rng w)) as [[r ws] g].
Qed.

Lemma call_solver_emits P acq ics lo hi opts ineq eq ff :
  P (EvSolver ics opts) →
  emits_only P (call_solver E acq ics lo hi opts ineq eq ff).
Proof. by apply emits_only_one. Qed.

Lemma call_post_emits P f X : P (EvPost X) → emits_only P (call_post f X).
Proof. by apply emits_only_one. Qed.

Lemma get_X_pending_emits P :
  P EvGetPending → emits_only P (@get_X_pending R G).
Proof. by apply emits_only_one. Qed.

Lemma set_X_pending_emits P X :
  P (EvSetPending X) → emits_only P (@set_X_pending R G X).
Proof. by apply emits_only_one. Qed.

Lemma dimension_check_emits P dim : emits_only P (dimension_check E dim).
Proof.
  unfold dimension_check.
  destruct (_ && _); [apply emits_only_warn|apply emits_only_ret].
Qed.

Create HintDb emit.
#[local] Hint Resolve emits_only_ret emits_only_lift emits_only_raise
  emits_only_diverge emits_only_warn call_acq_emits call_sobol_emits
  call_rand_emits call_init_emits call_solver_emits call_post_emits
  get_X_pending_emits set_X_pending_emits dimension_check_emits : emit.
#[local] Hint Extern 1 => exact I : emit.

Ltac emit_steps :=
  repeat first
    [ solve [auto with emit]
    | apply emits_only_bind; [|intros ?]
    | match goal with
      | |- emits_only _ (match ?x with _ => _ end) => destruct x
      | |- emits_only _ (if ?b then _ else _) => destruct b
      | |- emits_only _ (let '(_, _) := ?x in _) => destruct x
      end ].

Lemma score_batches_emits P k a X rows bl start Ys :
  (∀ X', P (EvAcq X')) →
  emits_only P (score_batches k a X rows bl start Ys).
Proof.
  intros HP. revert start Ys. induction k as [|k IH]; intros start Ys; simpl.
  - emit_steps.
  - destruct (start <? rows); [|auto with emit].
    emit_steps; apply IH.
Qed.

Lemma draw_X_rnd_emits P bounds n q d dim seed :
  P (EvSobol bounds n q seed) → P (EvRand (n * dim) seed) →
  emits_only P (draw_X_rnd E bounds n q d dim seed).
Proof. intros HS HR. unfold draw_X_rnd. emit_steps. Qed.

(** The events of the retry loop, given those of its scoring loop. *)
Lemma retry_loop_emits P k acq bounds q d dim nr raw nonneg kw factor seed bl
    last :
  (∀ n s, P (EvSobol bounds n q s)) → (∀ n s, P (EvRand (n * dim) s)) →
  (∀ X Y, P (EvInit nonneg X Y nr kw)) →
  (∀ X rows bl' , emits_only P (score_batches fuel acq X rows bl' 0 [])) →
  emits_only P
    (retry_loop E fuel k acq bounds q d dim nr raw nonneg kw factor seed bl
       last).
Proof.
  intros HS HR HI HA. revert factor seed bl last.
  induction k as [|k IH]; intros factor seed bl last; simpl.
  - emit_steps.
  - destruct (factor <? max_factor) eqn:Hf; [|emit_steps].
    apply emits_only_bind.
    + unfold sampling_attempt. apply emits_only_bind.
      { by apply draw_X_rnd_emits. }
      intros X. emit_steps.
    + intros [[bic ws] bl']. destruct (negb _); [auto with emit|apply IH].
Qed.

Lemma emits_only_bind_lift {A B} P (o : outcome A) (f : A → M' B) :
  (∀ a, o = Ret a → emits_only P (f a)) → emits_only P (lift o ≫= f).
Proof.
  intros Hf w. rewrite run_bind, run_lift.
  destruct o as [a|e|]; [by apply Hf|by exists []; rewrite app_nil_r..].
Qed.

Lemma emits_only_bind_sat {A B} P (Q : A → Prop) (m : M' A) (f : A → M' B) :
  emits_only P m → returns_sat m Q → (∀ a, Q a → emits_only P (f a)) →
  emits_only P (m ≫= f).
Proof.
  intros Hm HQ Hf w. destruct (Hm w) as (e1 & He1 & HP1). rewrite run_bind.
  destruct (m w) as [[a|e|] w1] eqn:Hmw; simpl in He1; [|by exists e1..].
  destruct (Hf a (HQ _ _ _ Hmw) w1) as (e2 & He2 & HP2). exists (e1 ++ e2).
  split; [by rewrite He2, He1, app_assoc|by apply Forall_app].
Qed.

Lemma gen_batch_initial_conditions_emits P acq bounds q nr raw opts :
  (∀ n s, P (EvSobol bounds n (default 1 q) s)) →
  (∀ d n s, shape_last bounds = Ret d →
            P (EvRand (n * (Z.of_nat d * default 1 q)) s)) →
  (∀ X Y, P (EvInit (select_initializer (default ∅ opts) acq).1 X Y nr
               (select_initializer (default ∅ opts) acq).2)) →
  (∀ X rows bl, emits_only P (score_batches fuel acq X rows bl 0 [])) →
  emits_only P (gen_batch_initial_conditions E fuel acq bounds q nr raw opts).
Proof.
  intros HS HR HI HA. unfold gen_batch_initial_conditions.
  do 2 (apply emits_only_bind; [auto with emit|intros ?]).
  destruct (select_initializer _ _) as [nonneg kw]. simpl in HI.
  apply emits_only_bind_lift. intros d Hd.
  apply emits_only_bind; [auto with emit|intros _].
  apply retry_loop_emits; eauto.
Qed.

Lemma solve_batches_emits P k acq bounds opts ineq eq ff bic nr bl start cl
    vl :
  (∀ X, P (EvSolver X (solver_options opts))) →
  emits_only P
    (solve_batches E k acq bounds opts ineq eq ff bic nr bl start cl vl).
Proof.
  intros HP. revert start cl vl.
  induction k as [|k IH]; intros start cl vl; simpl.
  - emit_steps.
  - destruct (start <? nr); [|auto with emit].
    emit_steps; apply IH.
Qed.

(** The events of the joint path, given those of its two loops. *)
Lemma optimize_acqf_joint_emits P acq bounds q nr raw opts ineq eq ff post bic
    rbo :
  (bic = None →
   emits_only P
     (gen_batch_initial_conditions E fuel acq bounds
        (if is_analytic acq then None else Some q) nr raw
        (Some (default ∅ opts)))) →
  (∀ b bl,
     match default ∅ opts !! "batch_limit" with
     | None => bl = nr
     | Some v => as_int v = Ret bl
     end →
     emits_only P
       (solve_batches E fuel acq bounds (default ∅ opts) ineq eq ff b nr bl 0
          [] [])) →
  (∀ X, P (EvPost X)) →
  emits_only P
    (optimize_acqf_joint E fuel acq bounds q nr raw opts ineq eq ff post bic
       rbo).
Proof.
  intros Hgen Hsolve Hpost. unfold optimize_acqf_joint.
  apply emits_only_bind.
  { destruct bic; [auto with emit|by apply Hgen]. }
  intros b.
  apply (emits_only_bind_sat _
           (λ bl, match default ∅ opts !! "batch_limit" with
                  | None => bl = nr
                  | Some v => as_int v = Ret bl
                  end)).
  { destruct (default ∅ opts !! "batch_limit"); auto with emit. }
  { intros w bl w' Hbl. destruct (default ∅ opts !! "batch_limit").
    - rewrite run_lift in Hbl. by inversion Hbl.
    - by inversion Hbl. }
  intros bl Hbl. apply emits_only_bind; [by apply Hsolve|].
  intros [cl vl]. emit_steps.
Qed.

(** The events of [optimize_acqf], given those of the two loops of the joint
    path. *)
Lemma optimize_acqf_emits P acq bounds q nr raw opts ineq eq ff post bic rbo
    seq :
  (∀ q',
     (seq = true → q' = 1) → (seq = false → q' = q ∧ bic = None) →
     emits_only P
       (gen_batch_initial_conditions E fuel acq bounds
          (if is_analytic acq then None else Some q') nr raw
          (Some (default ∅ opts)))) →
  (∀ b bl,
     match default ∅ opts !! "batch_limit" with
     | None => bl = nr
     | Some v => as_int v = Ret bl
     end →
     emits_only P
       (solve_batches E fuel acq bounds (default ∅ opts) ineq eq ff b nr bl 0
          [] [])) →
  (∀ X, P (EvPost X)) →
  (seq = true → P EvGetPending ∧ ∀ X, P (EvSetPending X)) →
  emits_only P
    (optimize_acqf E fuel acq bounds q nr raw opts ineq eq ff post bic rbo
       seq).
Proof.
  intros Hgen Hsolve Hpost Hpend. unfold optimize_acqf.
  destruct seq.
  - destruct Hpend as [Hget Hset]; [done|].
    destruct (negb rbo); [auto with emit|].
    apply emits_only_bind; [auto with emit|intros base].
    apply emits_only_bind; [|intros [c vl]; emit_steps].
    generalize (@nil (tensor R)) at 1 as cl.
    generalize (@nil (tensor R)) as vl.
    generalize (@empty_tensor R) as c.
    induction (Z.to_nat q) as [|k IH]; intros c vl cl; simpl.
    + auto with emit.
    + apply emits_only_bind.
      { apply optimize_acqf_joint_emits; simpl; auto.
        intros _. by apply Hgen. }
      intros [cand val]. emit_steps; apply IH.
  - apply optimize_acqf_joint_emits; auto.
    intros ->. by apply Hgen.
Qed.

Lemma solver_options_lookup (opts : gmap string (@opt_value R)) k :
  solver_options opts !! k =
  if bool_decide (k = "batch_limit" ∨ k = "nonnegative") then None
  else opts !! k.
Proof.
  unfold solver_options.
  destruct (decide (k = "batch_limit" ∨ k = "nonnegative")) as [Hk|Hk].
  - rewrite bool_decide_true by done. apply map_lookup_filter_None. right.
    intros v _ [? ?]. simpl in *. tauto.
  - rewrite bool_decide_false by done. destruct (opts !! k) as [v|] eqn:Hv.
    + apply map_lookup_filter_Some. split; [done|]. simpl. tauto.
    + apply map_lookup_filter_None. by left.
Qed.

(** X1: Every solver call of a run of [optimize_acqf], sequential or joint
    and whatever its outcome, is passed the caller's options without the
    entries [batch_limit] and [nonnegative], and every other entry
    unchanged. *)
Theorem solver_is_passed_remaining_options acq bounds q nr raw opts ineq eq ff
    post bic rbo seq :
  emits_only (solver_sees (default ∅ opts))
    (optimize_acqf E fuel acq bounds q nr raw opts ineq eq ff post bic rbo
       seq).
Proof.
  apply optimize_acqf_emits; try done.
  - intros q' _ _. apply gen_batch_initial_conditions_emits; try done.
    intros X rows bl. by apply score_batches_emits.
  - intros b bl _. apply solve_batches_emits. intros X k.
    apply solver_options_lookup.
Qed.

(** *** The sizes of the sub-batches *)

Lemma slice0_rows_le (t X : tensor R) s e :
  0 ≤ s → 0 ≤ e → slice0 t s e = Ret X →
  Z.of_nat (first_dim X) ≤ Z.max (e - s) 0.
Proof.
  intros Hs He. unfold slice0. destruct (shape t) as [|n sh]; [done|].
  inversion 1; subst. unfold first_dim, slice_index. simpl.
  destruct (Z.ltb_spec s 0); [lia|]. destruct (Z.ltb_spec e 0); lia.
Qed.

Lemma solve_batches_rows_within k acq bounds opts ineq eq ff bic nr bl start
    cl vl :
  1 ≤ bl ∨ nr ≤ start → 0 ≤ start →
  emits_only (solver_rows_within bl)
    (solve_batches E k acq bounds opts ineq eq ff bic nr bl start cl vl).
Proof.
  revert start cl vl.
  induction k as [|k IH]; intros start cl vl Hbl Hstart; simpl.
  - emit_steps.
  - destruct (Z.ltb_spec start nr) as [Hlt|Hge]; [|auto with emit].
    assert (1 ≤ bl) by lia.
    apply (emits_only_bind_sat _ (λ X, Z.of_nat (first_dim X) ≤ bl)).
    { auto with emit. }
    { apply returns_lift. intros X HX.
      apply slice0_rows_le in HX; lia. }
    intros X HX. emit_steps. apply IH; [by left|lia].
Qed.

(** X2: When [batch_limit] is at least one, every solver call of a run of
    [optimize_acqf] is on at most [batch_limit] restarts; without the option
    it is on at most [num_restarts]. *)
Theorem solver_batches_within_batch_limit acq bounds q nr raw opts ineq eq ff
    post bic rbo seq limit :
  default ∅ opts !! "batch_limit" = None ∧ limit = nr ∨
  default ∅ opts !! "batch_limit" = Some (OInt limit) ∧ 1 ≤ limit →
  emits_only (solver_rows_within limit)
    (optimize_acqf E fuel acq bounds q nr raw opts ineq eq ff post bic rbo
       seq).
Proof.
  intros Hlimit. apply optimize_acqf_emits; try done.
  - intros q' _ _. apply gen_batch_initial_conditions_emits; try done.
    intros X rows bl. by apply score_batches_emits.
  - intros b bl Hbl. destruct Hlimit as [[Hnone ->]|[Hsome Hle]].
    + rewrite Hnone in Hbl. subst bl.
      apply solve_batches_rows_within; lia.
    + rewrite Hsome in Hbl. inversion Hbl; subst bl.
      apply solve_batches_rows_within; [by left|lia].
Qed.

Lemma score_batches_rows_within k a X rows bl start Ys :
  1 ≤ bl → 0 ≤ start → 0 ≤ rows →
  emits_only (acq_rows_within bl) (score_batches k a X rows bl start Ys).
Proof.
  intros Hbl. revert start Ys.
  induction k as [|k IH]; intros start Ys Hstart Hrows; simpl.
  - emit_steps.
  - destruct (Z.ltb_spec start rows) as [Hlt|Hge]; [|auto with emit].
    apply (emits_only_bind_sat _ (λ X', Z.of_nat (first_dim X') ≤ bl)).
    { auto with emit. }
    { apply returns_lift. intros X' HX'.
      apply slice0_rows_le in HX'; lia. }
    intros X' HX'. emit_steps. apply IH; lia.
Qed.

Lemma shape_first_nonneg (t : tensor R) rows :
  shape_first t = Ret rows → 0 ≤ rows.
Proof.
  unfold shape_first. destruct (shape t); [done|]. inversion 1. lia.
Qed.

Lemma sampling_attempt_batch_limit acq bounds q d dim nr raw nonneg kw factor
    seed bl :
  returns_sat
    (sampling_attempt E fuel acq bounds q d dim nr raw nonneg kw factor seed
       (Some bl))
    (λ r, r.2 = bl).
Proof.
  intros w r w' Hrun. unfold sampling_attempt in Hrun.
  apply run_bind_inv in Hrun as (X & w1 & _ & Hrun).
  apply run_bind_inv in Hrun as (rows & w2 & _ & Hrun).
  apply run_bind_inv in Hrun as (Ys & w3 & _ & Hrun).
  apply run_bind_inv in Hrun as (Y & w4 & _ & Hrun).
  apply run_bind_inv in Hrun as ([b ws] & w5 & _ & Hrun).
  by inversion Hrun.
Qed.

Lemma sampling_attempt_rows_within acq bounds q d dim nr raw nonneg kw factor
    seed bl :
  1 ≤ bl →
  emits_only (acq_rows_within bl)
    (sampling_attempt E fuel acq bounds q d dim nr raw nonneg kw factor seed
       (Some bl)).
Proof.
  intros Hbl. unfold sampling_attempt.
  apply emits_only_bind; [by apply draw_X_rnd_emits|intros X].
  apply emits_only_bind_lift. intros rows Hrows. simpl.
  apply emits_only_bind.
  { apply score_batches_rows_within; [done..|].
    by apply shape_first_nonneg in Hrows. }
  intros Ys. emit_steps.
Qed.

Lemma retry_loop_rows_within k acq bounds q d dim nr raw nonneg kw factor seed
    bl last :
  1 ≤ bl →
  emits_only (acq_rows_within bl)
    (retry_loop E fuel k acq bounds q d dim nr raw nonneg kw factor seed
       (Some bl) last).
Proof.
  intros Hbl. revert factor seed last.
  induction k as [|k IH]; intros factor seed last; simpl.
  - emit_steps.
  - destruct (factor <? max_factor) eqn:Hf; [|emit_steps].
    apply (emits_only_bind_sat _ (λ r, r.2 = bl)).
    + by apply sampling_attempt_rows_within.
    + apply sampling_attempt_batch_limit.
    + intros [[bic ws] bl'] Hbl'. simpl in Hbl'. subst bl'.
      destruct (negb _); [auto with emit|apply IH].
Qed.

(** X3: With a [batch_limit] of at least one in its options,
    [gen_batch_initial_conditions] evaluates the acquisition function on at
    most [batch_limit] raw samples at a time, in every attempt. *)
Theorem scoring_batches_within_batch_limit acq bounds q nr raw opts limit :
  default ∅ opts !! "batch_limit" = Some (OInt limit) → 1 ≤ limit →
  emits_only (acq_rows_within limit)
    (gen_batch_initial_conditions E fuel acq bounds q nr raw opts).
Proof.
  intros Hopt Hlimit. unfold gen_batch_initial_conditions.
  apply emits_only_bind; [auto with emit|intros seed].
  apply emits_only_bind_lift. intros bl Hbl.
  unfold get_int in Hbl. rewrite Hopt in Hbl. simpl in Hbl.
  inversion Hbl; subst bl.
  destruct (select_initializer _ _) as [nonneg kw].
  emit_steps. by apply retry_loop_rows_within.
Qed.

(** *** The arguments of the initializer and of the samplers *)

Lemma select_initializer_strategy (o : gmap string (@opt_value R)) acq :
  (select_initializer o acq).1 = true ↔
  (∃ v, o !! "nonnegative" = Some v ∧ truthy v = true) ∨
  is_nonnegative acq = true.
Proof.
  unfold select_initializer.
  destruct (o !! "nonnegative") as [v|] eqn:Hnn.
  - destruct (truthy v) eqn:Hv; simpl.
    + split; [|done]. intros _. left. eauto.
    + destruct (is_nonnegative acq); simpl; [by split; [right|]|].
      split; [done|]. intros [(v' & Hv' & Ht)|]; [|done]. congruence.
  - destruct (is_nonnegative acq); simpl; [by split; [right|]|].
    split; [done|]. by intros [(v' & Hv' & Ht)|].
Qed.

Lemma select_initializer_kwargs (o : gmap string (@opt_value R)) acq k :
  (select_initializer o acq).2 !! k =
  if bool_decide (k = "eta") then o !! "eta"
  else if bool_decide (k = "alpha") && (select_initializer o acq).1
  then o !! "alpha" else None.
Proof.
  unfold select_initializer.
  set (kw := match o !! "eta" with Some v => {[ "eta" := v ]} | None => ∅ end
             : gmap string (@opt_value R)).
  assert (Hkw : kw !! k = if bool_decide (k = "eta") then o !! "eta"
                          else None).
  { subst kw. case_bool_decide as Hk.
    - subst k. destruct (o !! "eta"); [apply lookup_singleton_eq|done].
    - destruct (o !! "eta"); [by apply lookup_singleton_ne|done]. }
  destruct (match o !! "nonnegative" with
            | Some v => truthy v || is_nonnegative acq
            | None => is_nonnegative acq
            end); simpl.
  - destruct (decide (k = "alpha")) as [->|Hk].
    + rewrite bool_decide_false, bool_decide_true by done. simpl.
      destruct (o !! "alpha") as [v|]; [apply lookup_insert_eq|].
      by rewrite Hkw, bool_decide_false.
    + rewrite (bool_decide_false (k = "alpha")) by done. simpl.
      destruct (o !! "alpha") as [v|]; [|by rewrite Hkw; case_bool_decide].
      rewrite lookup_insert_ne by done. rewrite Hkw. by case_bool_decide.
  - rewrite andb_false_r, Hkw. by case_bool_decide.
Qed.


(** X5: The raw samples of a run of [optimize_acqf] are drawn within the
    caller's bounds and for batches of one point in sequential mode and for
    an analytic acquisition function, of [q] points otherwise. *)
Theorem samples_are_drawn_for_effective_q acq bounds q nr raw opts ineq eq ff
    post bic rbo seq :
  emits_only
    (sampler_call_for bounds (if seq || is_analytic acq then 1 else q))
    (optimize_acqf E fuel acq bounds q nr raw opts ineq eq ff post bic rbo
       seq).
Proof.
  apply optimize_acqf_emits; try done.
  - intros q' Hseq Hjoint.
    assert (Hq : default 1 (if is_analytic acq then None else Some q') =
                 if seq || is_analytic acq then 1 else q).
    { destruct seq; simpl.
      - rewrite Hseq by done. by destruct (is_analytic acq).
      - destruct Hjoint as [-> _]; [done|]. by destruct (is_analytic acq). }
    apply gen_batch_initial_conditions_emits; try done.
    + intros d n s Hd. rewrite Hq. simpl. eauto.
    + intros X rows bl. by apply score_batches_emits.
  - intros b bl _. by apply solve_batches_emits.
Qed.

(** *** Degenerate arguments *)

(** X6: With supplied initial conditions and no restart to run
    ([num_restarts <= 0]) the joint path calls no collaborator and fails on
    the concatenation of an empty list of results, with the exception that
    [torch.cat] raises on an empty list and the state as it was, whatever
    the other arguments are ([batch_limit], when given, being an integer). *)
Theorem joint_without_restarts_raises acq bounds q nr raw opts ineq eq ff post
    b rbo (w : world') :
  nr ≤ 0 →
  (∀ v, default ∅ opts !! "batch_limit" = Some v → ∃ z, v = OInt z) →
  ∃ e, cat0 (@nil (tensor R)) = Raise e ∧
       optimize_acqf E fuel acq bounds q nr raw opts ineq eq ff post (Some b)
         rbo false w =
       (Raise e, w).
Proof.
  intros Hnr Hint. exists ValueError. split; [done|].
  unfold optimize_acqf, optimize_acqf_joint.
  rewrite run_bind. simpl.
  assert (Hbl : ∃ bl,
            match default ∅ opts !! "batch_limit" with
            | None => mret nr
            | Some v => lift (as_int v)
            end w = (Ret bl, w)).
  { destruct (default ∅ opts !! "batch_limit") as [v|]; [|by exists nr].
    destruct (Hint v) as [z ->]; [done|]. by exists z. }
  destruct Hbl as [bl Hbl]. rewrite run_bind, Hbl.
  assert (Hsolve : ∀ k, solve_batches E k acq bounds (default ∅ opts) ineq eq
                          ff b nr bl 0 [] [] w = (Ret ([], []), w)).
  { intros k. destruct k; simpl; by destruct (Z.ltb_spec 0 nr); [lia|]. }
  by rewrite run_bind, Hsolve.
Qed.

(** X7: A sequential call for no candidate ([q <= 0]) reads the pending
    points, sets them to what it read, and fails on the stacking of an empty
    list of values; it draws no sample and calls no solver. *)
Theorem sequential_without_candidates_raises acq bounds q nr raw opts ineq eq
    ff post bic (w : world') :
  q ≤ 0 →
  optimize_acqf E fuel acq bounds q nr raw opts ineq eq ff post bic true true
    w =
  (Raise RuntimeError,
   mkWorld (X_pending w) (rng w) (warnings w)
     (trace w ++ [EvGetPending; EvSetPending (X_pending w)])).
Proof.
  intros Hq. unfold optimize_acqf. simpl.
  replace (Z.to_nat q) with 0%nat by lia. rewrite run_bind. simpl.
  unfold log. simpl. repeat (rewrite run_bind; simpl).
  by rewrite <- (assoc_L (++)).
Qed.

Lemma sequential_loop_values k acq bounds nr raw opts ineq eq ff post base cl
    vl c :
  returns_sat
    (sequential_loop E fuel k acq bounds nr raw opts ineq eq ff post base cl
       vl c)
    (λ r, length r.2 = (length vl + k)%nat).
Proof.
  revert cl vl c. induction k as [|k IH]; intros cl vl c w r w' Hrun.
  - inversion Hrun. simpl. lia.
  - simpl in Hrun.
    apply run_bind_inv in Hrun as ([cand val] & w1 & _ & Hrun).
    apply run_bind_inv in Hrun as (c' & w2 & _ & Hrun).
    apply run_bind_inv in Hrun as (p & w3 & _ & Hrun).
    apply run_bind_inv in Hrun as ([] & w4 & _ & Hrun).
    apply IH in Hrun. rewrite Hrun, length_app. simpl. lia.
Qed.

Lemma stack0_inv (ts : list (tensor R)) V :
  stack0 ts = Ret V →
  ∃ t ts', ts = t :: ts' ∧ shape V = length ts :: shape t.
Proof.
  unfold stack0. destruct ts as [|t ts']; [done|].
  destruct (forallb _ _); [|done]. inversion 1. eauto.
Qed.

Lemma sequential_values_length acq bounds q nr raw opts ineq eq ff post bic
    (w w' : world') c v :
  optimize_acqf E fuel acq bounds q nr raw opts ineq eq ff post bic true true
    w = (Ret (c, v), w') →
  1 ≤ q ∧ ∃ sh, shape v = Z.to_nat q :: sh.
Proof.
  intros Hrun. unfold optimize_acqf in Hrun. simpl in Hrun.
  apply run_bind_inv in Hrun as (base & w1 & _ & Hrun).
  apply run_bind_inv in Hrun as ([c' vl] & w2 & Hloop & Hrun).
  apply run_bind_inv in Hrun as ([] & w3 & _ & Hrun).
  apply run_bind_inv in Hrun as (V & w4 & HV & Hrun).
  inversion Hrun; subst. inversion HV as [[Hstack Hw]].
  apply sequential_loop_values in Hloop. simpl in Hloop.
  apply stack0_inv in Hstack as (t & ts' & -> & Hsh).
  simpl in Hloop. split; [lia|]. exists (shape t). rewrite Hsh. simpl.
  f_equal. lia.
Qed.

(** X8: A sequential call that returns was asked for at least one candidate
    and returns its values along a new leading axis of length [q], one value
    per greedy step. *)
Theorem sequential_values_have_q_entries acq bounds q nr raw opts ineq eq ff
    post bic (w w' : world') c v :
  optimize_acqf E fuel acq bounds q nr raw opts ineq eq ff post bic true true
    w = (Ret (c, v), w') →
  1 ≤ q ∧ ∃ sh, shape v = Z.to_nat q :: sh.
Proof. apply sequential_values_length. Qed.

(** X9: A [batch_limit] below one makes no progress through the restarts:
    with at least one restart to run, no call of [optimize_acqf] returns,
    whatever the fuel. *)
Theorem nonpositive_batch_limit_never_returns acq bounds q nr raw opts ineq eq
    ff post bic rbo seq bl (w w' : world') r :
  default ∅ opts !! "batch_limit" = Some (OInt bl) → bl ≤ 0 → 1 ≤ nr →
  (seq = true → 1 ≤ q) →
  optimize_acqf E fuel acq bounds q nr raw opts ineq eq ff post bic rbo seq
    w ≠ (Ret r, w').
Proof.
  intros Hopt Hbl Hnr Hq.
  assert (Hjoint : ∀ q0 o b0 rbo0 (w0 w0' : world') r0,
            default ∅ o = default ∅ opts →
            optimize_acqf_joint E fuel acq bounds q0 nr raw o ineq eq ff post
              b0 rbo0 w0 ≠ (Ret r0, w0')).
  { intros q0 o b0 rbo0 w0 w0' r0 Ho Hrun. unfold optimize_acqf_joint in Hrun.
    rewrite Ho, Hopt in Hrun.
    apply run_bind_inv in Hrun as (b & w1 & _ & Hrun).
    apply run_bind_inv in Hrun as (bl0 & w2 & Hbl0 & Hrun).
    rewrite run_lift in Hbl0. inversion Hbl0; subst.
    apply run_bind_inv in Hrun as ([cl vl] & w3 & Hsolve & _).
    apply solve_batches_no_progress in Hsolve; [done|done|lia]. }
  unfold optimize_acqf. destruct seq; [|by apply Hjoint].
  destruct (negb rbo); [done|]. intros Hrun.
  apply run_bind_inv in Hrun as (base & w1 & _ & Hrun).
  apply run_bind_inv in Hrun as ([c' vl] & w2 & Hloop & _).
  destruct (Z.to_nat q) as [|k] eqn:Hk; [lia|]. simpl in Hloop.
  apply run_bind_inv in Hloop as ([cand val] & w3 & Hj & _).
  by apply Hjoint in Hj.
Qed.

(** *** The pending points during a sequential run *)

Lemma pending_accesses_app (t1 t2 : list (@event R)) :
  pending_accesses (t1 ++ t2) = pending_accesses t1 ++ pending_accesses t2.
Proof. apply filter_app. Qed.

Lemma sequential_loop_pending k acq bounds nr raw opts ineq eq ff post base cl
    vl c0 (w w' : world') r :
  sequential_loop E fuel k acq bounds nr raw opts ineq eq ff post base cl vl
    c0 w = (Ret r, w') →
  ∃ ps, length ps = k ∧
        pending_accesses (trace w') =
        pending_accesses (trace w) ++ ((λ p, EvSetPending (Some p)) <$> ps) ∧
        match last ps with
        | Some p => pending_with base r.1 = Ret p ∧ X_pending w' = Some p
        | None => r.1 = c0 ∧ X_pending w' = X_pending w
        end.
Proof.
  revert cl vl c0 w. induction k as [|k IH]; intros cl vl c0 w Hrun.
  - inversion Hrun; subst. exists []. simpl. by rewrite app_nil_r.
  - simpl in Hrun.
    apply run_bind_inv in Hrun as ([cand val] & w1 & Hjoint & Hrun).
    apply run_bind_inv in Hrun as (c' & w2 & Hc' & Hrun).
    apply run_bind_inv in Hrun as (p & w3 & Hp & Hrun).
    apply run_bind_inv in Hrun as ([] & w4 & Hset & Hrun).
    pose proof (optimize_acqf_joint_pending acq bounds 1 nr raw (Some opts)
                  ineq eq ff post None true w) as Hview.
    rewrite Hjoint in Hview. simpl in Hview.
    inversion Hview as [[HX1 Htr1]].
    inversion Hc' as [[Hcat Hw2]]. subst w2.
    assert (Hpw : pending_with base c' = Ret p ∧ w3 = w1).
    { destruct base as [b|]; simpl.
      - rewrite run_lift in Hp. by inversion Hp.
      - by inversion Hp. }
    destruct Hpw as [Hpw ->]. inversion Hset as [Hw4].
    apply IH in Hrun as (ps & Hlen & Htr & Hlast).
    exists (p :: ps). split; [by rewrite <- Hlen|]. split.
    + rewrite Htr, <- Hw4. simpl.
      rewrite pending_accesses_app, Htr1, <- (assoc_L (++)). done.
    + rewrite last_cons. destruct (last ps) as [p'|]; [done|].
      destruct Hlast as [-> HX]. by rewrite HX, <- Hw4.
Qed.

(** X10: A sequential call that returns has read the pending points once,
    set them once after each of its [q] greedy steps, and set them back at
    the end, in this order; the last of the [q] intermediate settings is the
    initial pending points followed by the returned candidates. *)
Theorem sequential_pending_protocol acq bounds q nr raw opts ineq eq ff post
    bic (w w' : world') c v :
  optimize_acqf E fuel acq bounds q nr raw opts ineq eq ff post bic true true
    w = (Ret (c, v), w') →
  ∃ ps p,
    length ps = Z.to_nat q ∧ last ps = Some p ∧
    pending_with (X_pending w) c = Ret p ∧
    pending_accesses (trace w') =
    pending_accesses (trace w) ++
    EvGetPending :: ((λ p, EvSetPending (Some p)) <$> ps) ++
    [EvSetPending (X_pending w)].
Proof.
  intros Hrun. pose proof Hrun as Hq.
  apply sequential_values_length in Hq.
  unfold optimize_acqf in Hrun. simpl in Hrun.
  apply run_bind_inv in Hrun as (base & w1 & Hget & Hrun).
  apply run_bind_inv in Hrun as ([c' vl] & w2 & Hloop & Hrun).
  apply run_bind_inv in Hrun as ([] & w3 & Hset & Hrun).
  apply run_bind_inv in Hrun as (V & w4 & HV & Hrun).
  inversion Hrun; subst. inversion HV as [[Hstack Hw]]. subst w3.
  inversion Hget as [[Hbase Hw1]]. subst base w1.
  apply sequential_loop_pending in Hloop as (ps & Hlen & Htr & Hlast).
  simpl in Hlast. destruct (last ps) as [p|] eqn:Hp.
  - exists ps, p. destruct Hlast as [Hpw _]. split; [done|].
    split; [done|]. split; [done|].
    inversion Hset as [Hw']. simpl.
    rewrite pending_accesses_app, Htr. unfold log. simpl.
    rewrite pending_accesses_app. simpl. by rewrite <- !(assoc_L (++)).
  - apply last_None in Hp. subst ps. simpl in Hlen. lia.
Qed.

(** *** The warnings of [gen_batch_initial_conditions] *)

Lemma call_acq_quiet a X : preserves (@warnings R G) (call_acq a X).
Proof. by intros w. Qed.

Lemma call_sobol_quiet bounds n q seed :
  preserves (@warnings R G) (call_sobol E bounds n q seed).
Proof.
  intros w. unfold call_sobol.
  by destruct (draw_sobol_samples E bounds n q seed (rng w)).
Qed.

Lemma call_rand_quiet seed count :
  preserves (@warnings R G) (call_rand E seed count).
Proof.
  intros w. unfold call_rand. by destruct (torch_rand E seed count (rng w)).
Qed.

(** The warnings of the initializer are recorded, not emitted. *)
Lemma call_init_quiet nn X Y n kw :
  preserves (@warnings R G) (call_init E nn X Y n kw).
Proof.
  intros w. unfold call_init.
  by destruct ((if nn then initialize_q_batch_nonneg E
                else initialize_q_batch E) X Y n kw (rng w)) as [[r ws] g].
Qed.

#[local] Hint Resolve call_acq_quiet call_sobol_quiet call_rand_quiet
  call_init_quiet : frame.

Lemma score_batches_quiet k a X rows bl start Ys :
  preserves (@warnings R G) (score_batches k a X rows bl start Ys).
Proof.
  revert start Ys. induction k as [|k IH]; intros start Ys; simpl.
  - frame_steps.
  - destruct (start <? rows); [|auto with frame].
    frame_steps; apply IH.
Qed.
#[local] Hint Resolve score_batches_quiet : frame.

Lemma sampling_attempt_quiet acq bounds q d dim nr raw nonneg kw factor seed
    bl :
  preserves (@warnings R G)
    (sampling_attempt E fuel acq bounds q d dim nr raw nonneg kw factor seed
       bl).
Proof. unfold sampling_attempt, draw_X_rnd. frame_steps. Qed.

Lemma retry_loop_warns k acq bounds q d dim nr raw nonneg kw factor seed bl
    last (w : world') :
  ∃ l, warnings
         (retry_loop E fuel k acq bounds q d dim nr raw nonneg kw factor seed
            bl last w).2 = warnings w ++ l ∧
       l `sublist_of` [(BadInitialCandidatesWarning, unable_msg)].
Proof.
  revert factor seed bl last w.
  induction k as [|k IH]; intros factor seed bl last w; simpl.
  - destruct (factor <? max_factor).
    + exists []. split; [by rewrite app_nil_r|apply sublist_nil_l].
    + exists [(BadInitialCandidatesWarning, unable_msg)].
      rewrite run_bind. simpl. split; [by destruct last|done].
  - destruct (factor <? max_factor).
    + rewrite run_bind.
      pose proof (sampling_attempt_quiet acq bounds q d dim nr raw nonneg kw
                    factor seed bl w) as Hquiet.
      destruct (sampling_attempt E fuel acq bounds q d dim nr raw nonneg kw
                  factor seed bl w) as [[[[b ws] bl']|e|] w1];
        simpl in Hquiet;
        [|by exists []; rewrite app_nil_r; split;
            [|apply sublist_nil_l]..].
      rewrite <- Hquiet. destruct (negb _).
      * exists []. split; [by rewrite app_nil_r|apply sublist_nil_l].
      * apply IH.
    + exists [(BadInitialCandidatesWarning, unable_msg)].
      rewrite run_bind. simpl. split; [by destruct last|done].
Qed.

(** X11: Whatever its outcome, a run of [gen_batch_initial_conditions] emits
    at most two warnings and no other: the [SamplingWarning] on the sampling
    dimension and, after it, the [BadInitialCandidatesWarning] on exhausted
    retries.  What the sampler, the acquisition function and the initializer
    warn during an attempt is recorded and not emitted. *)
Theorem gen_emits_at_most_two_warnings acq bounds q nr raw opts (w : world') :
  ∃ l, warnings
         (gen_batch_initial_conditions E fuel acq bounds q nr raw opts w).2 =
       warnings w ++ l ∧
       l `sublist_of` [(SamplingWarning, sampling_msg);
                       (BadInitialCandidatesWarning, unable_msg)].
Proof.
  unfold gen_batch_initial_conditions.
  assert (Hnil : ∃ l : list (warning_category * string),
            warnings w = warnings w ++ l ∧
            l `sublist_of` [(SamplingWarning, sampling_msg);
                            (BadInitialCandidatesWarning, unable_msg)]).
  { exists []. split; [by rewrite app_nil_r|apply sublist_nil_l]. }
  rewrite run_bind, run_lift. destruct (get_int _ "seed"); [|done..].
  rewrite run_bind, run_lift. destruct (get_int _ "batch_limit"); [|done..].
  destruct (select_initializer _ _) as [nonneg kw].
  rewrite run_bind, run_lift. destruct (shape_last bounds) as [d| |]; [|done..].
  rewrite run_bind. unfold dimension_check.
  destruct (_ && _); simpl.
  - match goal with
    | |- context [retry_loop E fuel ?k ?a ?b ?q ?d ?dim ?nr ?raw ?nn ?kw ?f ?s
                    ?bl ?last ?w1] =>
        destruct (retry_loop_warns k a b q d dim nr raw nn kw f s bl last w1)
          as (l & Hl & Hsub)
    end.
    exists ((SamplingWarning, sampling_msg) :: l). simpl in Hl.
    split; [by rewrite Hl, <- (assoc_L (++))|by apply sublist_skip].
  - match goal with
    | |- context [retry_loop E fuel ?k ?a ?b ?q ?d ?dim ?nr ?raw ?nn ?kw ?f ?s
                    ?bl ?last ?w1] =>
        destruct (retry_loop_warns k a b q d dim nr raw nn kw f s bl last w1)
          as (l & Hl & Hsub)
    end.
    exists l. split; [done|by apply sublist_cons].
Qed.

(** X12: An attempt in which the initializer signals no degenerate
    candidates ends the retry loop at once: after [j < 4] degenerate
    attempts, [gen_batch_initial_conditions] returns the batch of the next
    attempt and adds nothing to what that attempt left, in particular no
    [BadInitialCandidatesWarning]. *)
Theorem good_attempt_is_returned_at_once acq bounds q nr raw opts seed bl d
    nonneg kw j s' w' b ws bl' w'' (w : world') :
  let q' := default 1 q in
  let dim := Z.of_nat d * q' in
  get_int (default ∅ opts) "seed" = Ret seed →
  get_int (default ∅ opts) "batch_limit" = Ret bl →
  shape_last bounds = Ret d →
  select_initializer (default ∅ opts) acq = (nonneg, kw) →
  (j < 4)%nat → (j < fuel)%nat →
  nsteps (degenerate_step acq bounds q' d dim nr raw nonneg kw) j
    ({| rs_factor := 1; rs_seed := seed; rs_batch_limit := bl;
        rs_last := None |}, (dimension_check E dim w).2)
    (s', w') →
  attempt acq bounds q' d dim nr raw nonneg kw s' w' =
    (Ret (b, ws, bl'), w'') →
  existsb is_bad_initial ws = false →
  gen_batch_initial_conditions E fuel acq bounds q nr raw opts w =
  (Ret b, w'').
Proof.
  intros q' dim Hseed Hbl Hd Hsel Hj Hfuel Hsteps Hrun Hgood.
  rewrite (gen_batch_initial_conditions_run _ _ _ _ _ _ _ _ _ _ _ _
             Hseed Hbl Hd Hsel).
  fold q' dim.
  destruct (degenerate_steps_factor _ _ _ _ _ _ _ _ _ _ _ _ Hsteps)
    as [Hfac _]. simpl in Hfac.
  replace (loop acq bounds q' d dim nr raw nonneg kw fuel)
    with (loop acq bounds q' d dim nr raw nonneg kw
            (j + S (fuel - j - 1))%nat)
    by (f_equal; lia).
  rewrite (loop_degenerate_steps _ _ _ _ _ _ _ _ _ _ _ _ _ Hsteps). simpl.
  unfold loop. simpl.
  assert (Hlt : (rs_factor s' <? max_factor) = true).
  { apply Z.ltb_lt. rewrite Hfac. unfold max_factor. lia. }
  rewrite Hlt. unfold attempt in Hrun. by rewrite run_bind, Hrun, Hgood.
Qed.

(** *** The default size of the scoring batches *)

Lemma score_batches_done k a X rows bl start Ys (w : world') :
  rows ≤ start → score_batches k a X rows bl start Ys w = (Ret Ys, w).
Proof.
  intros Hge.
  by destruct k; simpl; destruct (Z.ltb_spec start rows); [lia| |lia|].
Qed.

(** Without a [batch_limit], an attempt that returns has scored all its raw
    samples, of which there is at least one, in one batch. *)
Lemma sampling_attempt_default_limit acq bounds q d dim nr raw nonneg kw
    factor seed :
  shape_contracts → shape_last bounds = Ret d →
  returns_sat
    (sampling_attempt E fuel acq bounds q d dim nr raw nonneg kw factor seed
       None)
    (λ r, r.2 = raw * factor ∧ 1 ≤ raw * factor).
Proof.
  intros Hc Hd w r w' Hrun. unfold sampling_attempt in Hrun.
  apply run_bind_inv in Hrun as (X & w1 & HX & Hrun).
  apply (draw_X_rnd_shape _ _ _ _ _ _ Hc Hd) in HX.
  apply run_bind_inv in Hrun as (rows & w2 & Hrows & Hrun).
  rewrite run_lift in Hrows. unfold shape_first in Hrows. rewrite HX in Hrows.
  inversion Hrows; subst rows w2. simpl in Hrun.
  apply run_bind_inv in Hrun as (Ys & w3 & HYs & Hrun).
  apply run_bind_inv in Hrun as (Y & w4 & HY & Hrun).
  apply run_bind_inv in Hrun as ([b ws] & w5 & _ & Hrun).
  inversion Hrun; subst. simpl.
  destruct (Z_le_gt_dec (raw * factor) 0) as [Hle|Hgt]; [|lia].
  rewrite score_batches_done in HYs by lia. inversion HYs; subst.
  by rewrite run_lift in HY.
Qed.

Lemma sampling_attempt_default_rows acq bounds q d dim nr raw nonneg kw seed :
  shape_contracts → shape_last bounds = Ret d →
  emits_only (acq_rows_within raw)
    (sampling_attempt E fuel acq bounds q d dim nr raw nonneg kw 1 seed None).
Proof.
  intros Hc Hd. unfold sampling_attempt.
  apply (emits_only_bind_sat _
           (λ X, shape X = [Z.to_nat (raw * 1); Z.to_nat q; d])).
  { by apply draw_X_rnd_emits. }
  { by apply draw_X_rnd_shape. }
  intros X HX. apply emits_only_bind_lift. intros rows Hrows.
  unfold shape_first in Hrows. rewrite HX in Hrows. inversion Hrows as [Hr].
  simpl. apply emits_only_bind; [|intros Ys; emit_steps].
  destruct (Z_le_gt_dec raw 0) as [Hle|Hgt].
  - apply emits_only_pure. intros w. by rewrite score_batches_done by lia.
  - replace (Z.of_nat (Z.to_nat (raw * 1))) with raw by lia.
    apply score_batches_rows_within; lia.
Qed.

(** X15: Without a [batch_limit] in its options,
    [gen_batch_initial_conditions] takes the number of raw samples of its
    first attempt as the limit and keeps it: the attempts that follow draw
    more samples, and score them [raw_samples] at a time. *)
Theorem default_scoring_batch_is_first_sample_size acq bounds q nr raw opts :
  shape_contracts → default ∅ opts !! "batch_limit" = None →
  emits_only (acq_rows_within raw)
    (gen_batch_initial_conditions E fuel acq bounds q nr raw opts).
Proof.
  intros Hc Hopt. unfold gen_batch_initial_conditions.
  apply emits_only_bind; [auto with emit|intros seed].
  apply emits_only_bind_lift. intros bl Hbl.
  unfold get_int in Hbl. rewrite Hopt in Hbl. inversion Hbl; subst bl.
  destruct (select_initializer _ _) as [nonneg kw].
  apply emits_only_bind_lift. intros d Hd.
  apply emits_only_bind; [auto with emit|intros _].
  destruct fuel as [|k] eqn:Hfuel; simpl; [emit_steps|].
  change (1 <? max_factor) with true. cbn iota. rewrite <- Hfuel.
  apply (emits_only_bind_sat _ (λ r, r.2 = raw * 1 ∧ 1 ≤ raw * 1)).
  - by apply sampling_attempt_default_rows.
  - by apply sampling_attempt_default_limit.
  - intros [[b ws] bl'] [Hbl' Hraw]. simpl in Hbl'. subst bl'.
    destruct (negb _); [auto with emit|].
    change (1 <? max_factor) with true. cbn iota.
    replace (raw * 1) with raw by lia.
    apply retry_loop_rows_within. lia.
Qed.

(** *** Termination *)

Lemma solve_batches_done k acq bounds opts ineq eq ff bic nr bl start cl vl
    (w : world') :
  nr ≤ start →
  solve_batches E k acq bounds opts ineq eq ff bic nr bl start cl vl w =
  (Ret (cl, vl), w).
Proof.
  intros Hge.
  by destruct k; simpl; destruct (Z.ltb_spec start nr); [lia| |lia|].
Qed.

Lemma terminates_ret {A} (a : A) : terminates (mret a : M' A).
Proof. by intros w. Qed.

Lemma terminates_raise {A} e : terminates (@raise R G A e).
Proof. by intros w. Qed.

Lemma terminates_lift {A} (o : outcome A) :
  o ≠ Diverge → terminates (@lift R G A o).
Proof. by intros Ho w. Qed.

Lemma terminates_warn c msg : terminates (@warn R G c msg).
Proof. by intros w. Qed.

Lemma terminates_bind_sat {A B} (Q : A → Prop) (m : M' A) (f : A → M' B) :
  terminates m → returns_sat m Q → (∀ a, Q a → terminates (f a)) →
  terminates (m ≫= f).
Proof.
  intros Hm HQ Hf w. rewrite run_bind. specialize (Hm w).
  destruct (m w) as [[a|e|] w1] eqn:Hmw; simpl in *; [|done..].
  apply Hf. by eapply HQ.
Qed.

Lemma terminates_bind {A B} (m : M' A) (f : A → M' B) :
  terminates m → (∀ a, terminates (f a)) → terminates (m ≫= f).
Proof.
  intros Hm Hf. apply (terminates_bind_sat (λ _, True)); auto.
  apply returns_any.
Qed.

(** The tensor operations and the reads of the options return or raise. *)
Ltac op_terminates :=
  apply terminates_lift;
  unfold get_int, as_int, slice0, select0, cat0, stack0, cat_m2, view3,
    pointwise, broadcast_last, shape_first, shape_last, argmax;
  repeat case_match; congruence.

Lemma dimension_check_terminates dim : terminates (dimension_check E dim).
Proof. unfold dimension_check. by destruct (_ && _). Qed.

Section Termination.
Context (acq : @AcquisitionFunction R).
Context (Hext : collaborators_terminate).
Context (Hacq : ∀ p X, forward acq p X ≠ Diverge).

Lemma call_acq_terminates X : terminates (call_acq acq X).
Proof. intros w. apply Hacq. Qed.

Lemma call_sobol_terminates bounds n q seed :
  terminates (call_sobol E bounds n q seed).
Proof.
  intros w. unfold call_sobol. destruct Hext as (_ & Hsobol & _).
  specialize (Hsobol bounds n q seed (rng w)).
  by destruct (draw_sobol_samples E bounds n q seed (rng w)).
Qed.

Lemma call_rand_terminates seed count :
  terminates (call_rand E seed count).
Proof.
  intros w. unfold call_rand. destruct Hext as (_ & _ & Hrand & _).
  specialize (Hrand seed count (rng w)).
  by destruct (torch_rand E seed count (rng w)).
Qed.

Lemma call_init_terminates nn X Y n kw :
  terminates (call_init E nn X Y n kw).
Proof.
  intros w. unfold call_init. destruct Hext as (_ & _ & _ & Hinit).
  specialize (Hinit nn X Y n kw (rng w)).
  destruct ((if nn then initialize_q_batch_nonneg E
             else initialize_q_batch E) X Y n kw (rng w)) as [[r ws] g].
  simpl in *. by destruct r.
Qed.

Lemma call_solver_terminates ics lo hi opts ineq eq ff :
  terminates (call_solver E acq ics lo hi opts ineq eq ff).
Proof. intros w. destruct Hext as (Hsolver & _). apply Hsolver. Qed.

Lemma draw_X_rnd_terminates bounds n q d dim seed :
  terminates (draw_X_rnd E bounds n q d dim seed).
Proof.
  unfold draw_X_rnd. destruct (dim <=? SobolEngine_MAXDIM E).
  - apply call_sobol_terminates.
  - apply terminates_bind; [apply call_rand_terminates|intros xs].
    repeat (apply terminates_bind; [op_terminates|intros ?]).
    op_terminates.
Qed.

Lemma score_batches_terminates k X rows bl start Ys :
  1 ≤ bl → (Z.to_nat (rows - start) ≤ k)%nat →
  terminates (score_batches k acq X rows bl start Ys).
Proof.
  intros Hbl. revert start Ys.
  induction k as [|k IH]; intros start Ys Hk; simpl.
  - destruct (Z.ltb_spec start rows); [lia|apply terminates_ret].
  - destruct (Z.ltb_spec start rows); [|apply terminates_ret].
    apply terminates_bind; [op_terminates|intros X'].
    apply terminates_bind; [apply call_acq_terminates|intros Y].
    apply IH. lia.
Qed.

Lemma solve_batches_terminates k bounds opts ineq eq ff bic nr bl start cl
    vl :
  1 ≤ bl → (Z.to_nat (nr - start) ≤ k)%nat →
  terminates
    (solve_batches E k acq bounds opts ineq eq ff bic nr bl start cl vl).
Proof.
  intros Hbl. revert start cl vl.
  induction k as [|k IH]; intros start cl vl Hk; simpl.
  - destruct (Z.ltb_spec start nr); [lia|apply terminates_ret].
  - destruct (Z.ltb_spec start nr); [|apply terminates_ret].
    do 3 (apply terminates_bind; [op_terminates|intros ?]).
    apply terminates_bind; [apply call_solver_terminates|intros [c v]].
    apply IH. lia.
Qed.

Context (bounds : tensor R) (nr raw : Z).
Context (Hc : shape_contracts).
Context (Hfuel4 : (4 ≤ fuel)%nat) (Hraw : 4 * raw ≤ Z.of_nat fuel)
  (Hnr : nr ≤ Z.of_nat fuel).

Lemma sampling_attempt_terminates q d dim nonneg kw factor seed bl :
  shape_last bounds = Ret d → 1 ≤ factor ≤ 4 → (∀ b, bl = Some b → 1 ≤ b) →
  terminates
    (sampling_attempt E fuel acq bounds q d dim nr raw nonneg kw factor seed
       bl).
Proof.
  intros Hd Hfactor Hbl. unfold sampling_attempt.
  apply (terminates_bind_sat
           (λ X, shape X = [Z.to_nat (raw * factor); Z.to_nat q; d])).
  { apply draw_X_rnd_terminates. }
  { by apply draw_X_rnd_shape. }
  intros X HX.
  apply (terminates_bind_sat
           (λ rows, rows = Z.of_nat (Z.to_nat (raw * factor)))).
  { op_terminates. }
  { apply returns_lift. intros rows. unfold shape_first. rewrite HX.
    by inversion 1. }
  intros rows Hrows. apply terminates_bind.
  - destruct (Z_le_gt_dec rows 0) as [Hle|Hgt].
    + intros w. by rewrite score_batches_done by lia.
    + apply score_batches_terminates.
      * destruct bl as [b|]; simpl; [by apply Hbl|lia].
      * nia.
  - intros Ys. apply terminates_bind; [op_terminates|intros Y].
    apply terminates_bind; [apply call_init_terminates|intros [b ws]].
    apply terminates_ret.
Qed.

Lemma sampling_attempt_limit_pos q d dim nonneg kw factor seed bl :
  shape_last bounds = Ret d → (∀ b, bl = Some b → 1 ≤ b) →
  returns_sat
    (sampling_attempt E fuel acq bounds q d dim nr raw nonneg kw factor seed
       bl)
    (λ r, 1 ≤ r.2).
Proof.
  intros Hd Hbl w r w' Hrun. destruct bl as [b|].
  - apply sampling_attempt_batch_limit in Hrun. rewrite Hrun. by apply Hbl.
  - apply (sampling_attempt_default_limit _ _ _ _ _ _ _ _ _ _ _ Hc Hd)
      in Hrun.
    lia.
Qed.

Lemma retry_loop_terminates k q d dim nonneg kw factor seed bl last :
  shape_last bounds = Ret d → 1 ≤ factor →
  (Z.to_nat (max_factor - factor) ≤ k)%nat → (∀ b, bl = Some b → 1 ≤ b) →
  terminates
    (retry_loop E fuel k acq bounds q d dim nr raw nonneg kw factor seed bl
       last).
Proof.
  intros Hd. revert factor seed bl last. unfold max_factor.
  induction k as [|k IH]; intros factor seed bl last Hfactor Hk Hbl; simpl.
  - unfold max_factor. destruct (Z.ltb_spec factor 5); [lia|].
    apply terminates_bind; [apply terminates_warn|intros _].
    destruct last; [apply terminates_ret|apply terminates_raise].
  - unfold max_factor. destruct (Z.ltb_spec factor 5).
    + apply (terminates_bind_sat (λ r, 1 ≤ r.2)).
      * apply sampling_attempt_terminates; [done|lia|done].
      * by apply sampling_attempt_limit_pos.
      * intros [[b ws] bl'] Hbl'. simpl in Hbl'.
        destruct (negb _); [apply terminates_ret|].
        apply IH; [lia|lia|]. intros b' Hb'. by inversion Hb'; subst.
    + apply terminates_bind; [apply terminates_warn|intros _].
      destruct last; [apply terminates_ret|apply terminates_raise].
Qed.

Context (opts : option (gmap string (@opt_value R))).
Context (Hopts : default ∅ opts !! "batch_limit" = None ∨
                 ∃ bl, default ∅ opts !! "batch_limit" = Some (OInt bl) ∧
                       1 ≤ bl).

Lemma gen_batch_initial_conditions_terminates q :
  terminates
    (gen_batch_initial_conditions E fuel acq bounds q nr raw
       (Some (default ∅ opts))).
Proof.
  unfold gen_batch_initial_conditions. simpl.
  apply terminates_bind; [op_terminates|intros seed].
  apply (terminates_bind_sat (λ bl, ∀ b, bl = Some b → 1 ≤ b)).
  { op_terminates. }
  { apply returns_lift. intros bl. unfold get_int.
    destruct Hopts as [->|(bl0 & -> & Hbl0)]; simpl.
    - by inversion 1.
    - inversion 1; subst. intros b Hb. by inversion Hb; subst. }
  intros bl Hbl. destruct (select_initializer _ _) as [nonneg kw].
  apply (terminates_bind_sat (λ d, shape_last bounds = Ret d)).
  { op_terminates. }
  { by apply returns_lift. }
  intros d Hd.
  apply terminates_bind; [apply dimension_check_terminates|intros _].
  apply retry_loop_terminates; [done|lia|unfold max_factor; lia|done].
Qed.

Context (ineq eq : option (list (tensor R * tensor R * R)))
  (ff : option (gmap Z R)) (post : option (tensor R → outcome (tensor R))).
Context (Hpost : ∀ f X, post = Some f → f X ≠ Diverge).

Lemma optimize_acqf_joint_terminates q bic rbo :
  terminates
    (optimize_acqf_joint E fuel acq bounds q nr raw (Some (default ∅ opts))
       ineq eq ff post bic rbo).
Proof.
  unfold optimize_acqf_joint. simpl. apply terminates_bind.
  { destruct bic; [apply terminates_ret|].
    apply gen_batch_initial_conditions_terminates. }
  intros b.
  apply (terminates_bind_sat (λ bl, 1 ≤ bl ∨ bl = nr)).
  { destruct (default ∅ opts !! "batch_limit");
      [op_terminates|apply terminates_ret]. }
  { intros w bl w' Hrun. destruct Hopts as [Hn|(bl0 & Hs & Hbl0)].
    - rewrite Hn in Hrun. inversion Hrun. by right.
    - rewrite Hs in Hrun. inversion Hrun; subst. by left. }
  intros bl Hbl. apply terminates_bind.
  { destruct (Z_le_gt_dec nr 0) as [Hle|Hgt].
    - intros w. by rewrite solve_batches_done by lia.
    - apply solve_batches_terminates; lia. }
  intros [cl vl]. do 2 (apply terminates_bind; [op_terminates|intros ?]).
  apply terminates_bind.
  { destruct post as [f|] eqn:Hf; [|apply terminates_ret].
    intros w. by apply (Hpost f). }
  intros C. destruct rbo; [|apply terminates_ret].
  do 3 (apply terminates_bind; [op_terminates|intros ?]).
  apply terminates_ret.
Qed.

Lemma sequential_loop_terminates k base cl vl c :
  terminates
    (sequential_loop E fuel k acq bounds nr raw (default ∅ opts) ineq eq ff
       post base cl vl c).
Proof.
  revert cl vl c. induction k as [|k IH]; intros cl vl c; simpl.
  - apply terminates_ret.
  - apply terminates_bind; [apply optimize_acqf_joint_terminates|].
    intros [cand val]. apply terminates_bind; [op_terminates|intros c'].
    apply terminates_bind.
    { destruct base; [op_terminates|apply terminates_ret]. }
    intros p. apply terminates_bind; [by intros w|intros _]. apply IH.
Qed.

Lemma all_modes_terminate q bic rbo seq :
  terminates
    (optimize_acqf E fuel acq bounds q nr raw opts ineq eq ff post bic rbo
       seq).
Proof.
  unfold optimize_acqf. destruct seq.
  - destruct (negb rbo); [apply terminates_raise|].
    apply terminates_bind; [by intros w|intros base].
    apply terminates_bind; [apply sequential_loop_terminates|].
    intros [c vl]. apply terminates_bind; [by intros w|intros _].
    apply terminates_bind; [op_terminates|intros V]. apply terminates_ret.
  - pose proof (optimize_acqf_joint_terminates q bic rbo) as Hj.
    unfold optimize_acqf_joint in *. by simpl in Hj.
Qed.

End Termination.

(** X16: [optimize_acqf] comes to an end, by returning or by raising: when
    the collaborators do and respect their shape contracts, and
    [batch_limit] is absent or at least one, the retry loop makes at most
    four passes, the scoring loop at most [4 * raw_samples] and the solver
    loop at most [num_restarts]. *)
Theorem optimize_acqf_terminates acq bounds q nr raw opts ineq eq ff post bic
    rbo seq :
  collaborators_terminate → shape_contracts →
  (∀ p X, forward acq p X ≠ Diverge) →
  (∀ f X, post = Some f → f X ≠ Diverge) →
  default ∅ opts !! "batch_limit" = None ∨
  (∃ bl, default ∅ opts !! "batch_limit" = Some (OInt bl) ∧ 1 ≤ bl) →
  (4 ≤ fuel)%nat → 4 * raw ≤ Z.of_nat fuel → nr ≤ Z.of_nat fuel →
  terminates
    (optimize_acqf E fuel acq bounds q nr raw opts ineq eq ff post bic rbo
       seq).
Proof. intros. by apply all_modes_terminate. Qed.

(** *** The sub-batches cover the restarts *)

Lemma take_drop_app (l : list R) s a b :
  take a (drop s l) ++ take b (drop (s + a) l) = take (a + b) (drop s l).
Proof. by rewrite <- drop_drop, take_take_drop. Qed.

Lemma solve_batches_cover k acq bounds opts ineq eq ff bic n sh bl start cl
    vl (w w' : world') r :
  shape bic = n :: sh → 1 ≤ bl → 0 ≤ start →
  solve_batches E k acq bounds opts ineq eq ff bic (Z.of_nat n) bl start cl
    vl w = (Ret r, w') →
  let s := Z.to_nat (Z.min start (Z.of_nat n)) in
  ∃ Xs, solver_calls w' = solver_calls w ++ Xs ∧
        Forall (λ X, row_shape X = Some sh) Xs ∧
        sum_list (first_dim <$> Xs) = (n - s)%nat ∧
        concat (data <$> Xs) =
        take ((n - s) * numel sh) (drop (s * numel sh) (data bic)).
Proof.
  intros Hsh Hbl. revert start cl vl w.
  induction k as [|k IH]; intros start cl vl w Hstart Hrun s; simpl in Hrun.
  - destruct (Z.ltb_spec start (Z.of_nat n)); [done|].
    inversion Hrun; subst. exists []. rewrite app_nil_r.
    replace (n - s)%nat with 0%nat by lia. done.
  - destruct (Z.ltb_spec start (Z.of_nat n)) as [Hlt|Hge].
    + apply run_bind_inv in Hrun as (X & w1 & HX & Hrun).
      apply run_bind_inv in Hrun as (lo & w2 & Hlo & Hrun).
      apply run_bind_inv in Hrun as (hi & w3 & Hhi & Hrun).
      apply run_bind_inv in Hrun as ([c v] & w4 & Hsolve & Hrun).
      inversion HX as [[HX0 Hw1]]. inversion Hlo as [[Hlo0 Hw2]].
      inversion Hhi as [[Hhi0 Hw3]]. subst w1 w2 w3.
      unfold call_solver in Hsolve. inversion Hsolve as [[Hs0 Hw4]].
      apply IH in Hrun as (Xs & Hcalls & Hall & Hsum & Hdata); [|lia].
      set (e := Z.to_nat (Z.min (start + bl) (Z.of_nat n))) in *.
      assert (HXeq : X = mkTensor ((e - s)%nat :: sh)
                           (take ((e - s) * numel sh)
                              (drop (s * numel sh) (data bic)))).
      { unfold slice0 in HX0. rewrite Hsh in HX0. inversion HX0.
        unfold slice_index.
        destruct (Z.ltb_spec start 0); [lia|].
        destruct (Z.ltb_spec (Z.min (start + bl) (Z.of_nat n)) 0); [lia|].
        subst s e.
        by rewrite (Z.min_l (Z.min (start + bl) (Z.of_nat n))) by lia. }
      exists (X :: Xs). split; [|split; [|split]].
      * rewrite Hcalls, <- Hw4, solver_calls_log, <- (assoc_L (++)). done.
      * constructor; [|done]. rewrite HXeq. done.
      * rewrite fmap_cons. simpl. rewrite Hsum, HXeq. unfold first_dim.
        simpl. subst s e. lia.
      * rewrite fmap_cons. simpl. rewrite Hdata, HXeq. simpl.
        replace (Z.to_nat (Z.min (start + bl) (Z.of_nat n))) with e by done.
        replace (e * numel sh)%nat
          with (s * numel sh + (e - s) * numel sh)%nat by (subst s e; nia).
        rewrite take_drop_app. f_equal. subst s e. nia.
    + inversion Hrun; subst. exists []. rewrite app_nil_r.
      replace (n - s)%nat with 0%nat by lia. done.
Qed.

(** X17: On the joint path with [num_restarts] supplied initial conditions
    and a [batch_limit] that is absent or at least one, a run that returns
    has passed every restart to the solver once and in order: the
    sub-batches of its solver calls, concatenated, are the initial
    conditions. *)
Theorem sub_batches_cover_initial_conditions acq bounds q nr raw opts ineq eq
    ff post bic rbo sh (w w' : world') r :
  default ∅ opts !! "batch_limit" = None ∨
  (∃ bl, default ∅ opts !! "batch_limit" = Some (OInt bl) ∧ 1 ≤ bl) →
  shape bic = Z.to_nat nr :: sh → wf_tensor bic →
  optimize_acqf E fuel acq bounds q nr raw opts ineq eq ff post (Some bic) rbo
    false w = (Ret r, w') →
  ∃ Xs, solver_calls w' = solver_calls w ++ Xs ∧ cat0 Xs = Ret bic.
Proof.
  intros Hopts Hsh Hwf Hrun. unfold optimize_acqf, optimize_acqf_joint in Hrun.
  apply run_bind_inv in Hrun as (b & w1 & Hb & Hrun).
  inversion Hb; subst b w1.
  apply run_bind_inv in Hrun as (bl & w2 & Hbl & Hrun).
  apply run_bind_inv in Hrun as ([cl vl] & w3 & Hsolve & Hrun).
  apply run_bind_inv in Hrun as (C & w4 & HC & Hrun).
  apply run_bind_inv in Hrun as (V & w5 & HV & Hrun).
  apply run_bind_inv in Hrun as (C' & w6 & HC' & Hrun).
  inversion HC as [[HC0 Hw4]]. inversion HV as [[HV0 Hw5]]. subst w4 w5.
  assert (Hw2 : w2 = w ∧ (1 ≤ bl ∨ bl = nr)).
  { destruct Hopts as [Hn|(bl0 & Hs & Hbl0)].
    - rewrite Hn in Hbl. inversion Hbl. auto.
    - rewrite Hs in Hbl. inversion Hbl; subst. auto. }
  destruct Hw2 as [-> Hbl1].
  assert (Hnr : 1 ≤ nr).
  { destruct (Z_le_gt_dec nr 0) as [Hle|Hgt]; [|lia].
    rewrite solve_batches_done in Hsolve by lia.
    inversion Hsolve; subst. done. }
  assert (Hw6 : solver_calls w6 = solver_calls w3).
  { destruct post as [f|].
    - unfold call_post in HC'. inversion HC' as [[HC0' Hw6]].
      apply solver_calls_post.
    - by inversion HC'. }
  assert (Hw' : w' = w6).
  { destruct rbo; [|by inversion Hrun].
    apply run_bind_inv in Hrun as (i & w7 & Hi & Hrun).
    apply run_bind_inv in Hrun as (c & w8 & Hc & Hrun).
    apply run_bind_inv in Hrun as (v & w9 & Hv & Hrun).
    inversion Hi. inversion Hc. inversion Hv. inversion Hrun. congruence. }
  rewrite <- (Z2Nat.id nr) in Hsolve by lia.
  apply (solve_batches_cover _ _ _ _ _ _ _ _ _ sh) in Hsolve; [|done|lia|lia].
  destruct Hsolve as (Xs & Hcalls & Hall & Hsum & Hdata).
  simpl in Hsum, Hdata.
  rewrite (Z.min_l 0), Nat.sub_0_r in Hsum, Hdata by lia.
  simpl in Hdata.
  exists Xs. split; [by rewrite Hw', Hw6|].
  rewrite (cat0_ret _ sh); [|intros ->; simpl in Hsum; lia|done].
  rewrite Hsum, Hdata. simpl. unfold wf_tensor in Hwf.
  rewrite Hsh in Hwf. simpl in Hwf.
  rewrite drop_0, take_ge by (rewrite Hwf; lia).
  destruct bic as [shb db]. simpl in *. by subst shb.
Qed.

(** *** The selection of the best restart has no effect *)

Lemma pick_best_pure CV (w : world') : (pick_best CV w).2 = w.
Proof.
  unfold pick_best. repeat (rewrite run_bind, run_lift; case_match; try done).
Qed.

(** X18: On the joint path [return_best_only] changes what is returned and
    nothing else: the run makes the same calls to the collaborators, leaves
    the same random state and emits the same warnings, and an error of the
    all-restarts call is an error of the best-only call. *)
Theorem best_only_has_effects_of_all_restarts acq bounds q nr raw opts ineq eq
    ff post bic (w : world') :
  let all :=
    optimize_acqf E fuel acq bounds q nr raw opts ineq eq ff post bic false
      false w in
  let best :=
    optimize_acqf E fuel acq bounds q nr raw opts ineq eq ff post bic true
      false w in
  best.2 = all.2 ∧
  (∀ e, all.1 = Raise e → best.1 = Raise e) ∧
  (all.1 = Diverge → best.1 = Diverge).
Proof.
  unfold optimize_acqf. simpl. rewrite joint_best_via_all, run_bind.
  destruct (optimize_acqf_joint E fuel acq bounds q nr raw opts ineq eq ff
              post bic false w) as [[CV|e|] w1]; simpl; [|done..].
  by rewrite pick_best_pure.
Qed.

(** *** Supplied initial conditions *)

(** X19: With supplied initial conditions the joint path draws no sample,
    evaluates the acquisition function on no raw sample, calls no
    initializer and does not access the pending points: the solver and the
    post-processing function are all that it calls, whatever its outcome. *)
Theorem supplied_initial_conditions_skip_sampling acq bounds q nr raw opts
    ineq eq ff post b rbo :
  emits_only is_solver_or_post
    (optimize_acqf E fuel acq bounds q nr raw opts ineq eq ff post (Some b)
       rbo false).
Proof.
  apply optimize_acqf_emits; try done.
  - intros q' _ [_ Hb]; [done|]. discriminate.
  - intros b' bl _. by apply solve_batches_emits.
Qed.

(** *** The index that [argmax] finds *)

Lemma argmax_from_nan (l : list R) bi b i :
  Risnan b = true → argmax_from bi b i l = bi.
Proof.
  intros Hb. revert i. induction l as [|x l IH]; intros i; simpl; [done|].
  rewrite Hb. simpl. apply IH.
Qed.

Lemma argmax_from_first_max `{!ScalarOrder R} (l pre : list R) bi b :
  Forall (λ x, Risnan x = false) (pre ++ l) →
  is_first_max pre bi b →
  ∃ m, is_first_max (pre ++ l) (argmax_from bi b (length pre) l) m.
Proof.
  revert pre bi b. induction l as [|x l IH]; intros pre bi b Hnan Hb; simpl.
  - rewrite app_nil_r. eauto.
  - destruct Hb as (Hbi & Hmax & Hfirst).
    assert (Hlen : length (pre ++ [x]) = S (length pre)).
    { rewrite length_app. simpl. lia. }
    assert (Hb : Risnan b = false).
    { rewrite Forall_forall in Hnan. apply Hnan.
      apply elem_of_app. left. by eapply list_elem_of_lookup_2. }
    assert (Hx : Risnan x = false).
    { rewrite Forall_forall in Hnan. apply Hnan.
      apply elem_of_app. right. left. }
    assert (Hpre : ∀ j y, pre !! j = Some y → Risnan y = false).
    { intros j y Hj. rewrite Forall_forall in Hnan. apply Hnan.
      apply elem_of_app. left. by eapply list_elem_of_lookup_2. }
    rewrite Hb, Hx. simpl.
    replace (pre ++ x :: l) with ((pre ++ [x]) ++ l) in *
      by (by rewrite <- app_assoc).
    rewrite <- Hlen.
    destruct (Rltb b x) eqn:Hbx; apply IH; try done; repeat split.
    + rewrite lookup_app_r by lia.
      by replace (length pre - length pre)%nat with 0%nat by lia.
    + intros j y Hj. apply lookup_app_Some in Hj as [Hj|[_ Hj]].
      * destruct (Rltb x y) eqn:Hxy; [|done].
        rewrite <- (Hmax j y Hj). symmetry. by apply Rltb_trans with x.
      * apply list_lookup_singleton_Some in Hj as [_ <-]. apply Rltb_irrefl.
    + intros j y Hlt Hj. rewrite lookup_app_l in Hj by lia.
      destruct (Rltb_cotrans b x y (Hpre j y Hj) Hbx) as [Hby|Hyx]; [|done].
      by rewrite (Hmax j y Hj) in Hby.
    + apply lookup_app_l_Some. done.
    + intros j y Hj. apply lookup_app_Some in Hj as [Hj|[_ Hj]].
      * by apply Hmax with j.
      * by apply list_lookup_singleton_Some in Hj as [_ <-].
    + intros j y Hlt Hj. apply Hfirst with j; [done|].
      apply lookup_lt_Some in Hbi. by rewrite lookup_app_l in Hj by lia.
Qed.

Lemma argmax_from_first_nan (l pre : list R) bi b :
  Forall (λ x, Risnan x = false) pre → pre !! bi = Some b →
  Exists (λ x, Risnan x = true) l →
  is_first_nan (pre ++ l) (argmax_from bi b (length pre) l).
Proof.
  revert pre bi b. induction l as [|x l IH]; intros pre bi b Hpre Hbi Hex.
  - by apply Exists_nil in Hex.
  - simpl.
    assert (Hb : Risnan b = false).
    { rewrite Forall_forall in Hpre. apply Hpre.
      by eapply list_elem_of_lookup_2. }
    rewrite Hb. simpl. destruct (Risnan x) eqn:Hx; simpl.
    + rewrite argmax_from_nan by done. split.
      * exists x. split; [|done]. rewrite lookup_app_r by lia.
        by replace (length pre - length pre)%nat with 0%nat by lia.
      * intros j y Hlt Hj. rewrite lookup_app_l in Hj by lia.
        rewrite Forall_forall in Hpre. apply Hpre.
        by eapply list_elem_of_lookup_2.
    + apply Exists_cons in Hex as [Hex|Hex]; [congruence|].
      assert (Hlen : length (pre ++ [x]) = S (length pre)).
      { rewrite length_app. simpl. lia. }
      replace (pre ++ x :: l) with ((pre ++ [x]) ++ l)
        by (by rewrite <- app_assoc).
      rewrite <- Hlen.
      assert (Hpre' : Forall (λ x, Risnan x = false) (pre ++ [x])).
      { apply Forall_app. split; [done|]. by constructor. }
      destruct (Rltb b x); apply IH; try done.
      * rewrite lookup_app_r by lia.
        by replace (length pre - length pre)%nat with 0%nat by lia.
      * by apply lookup_app_l_Some.
Qed.

(** What [argmax] returns: the index of the first maximum of a vector of
    numbers, and of the first not-a-number value when there is one. *)
Lemma argmax_spec `{!ScalarOrder R} (l : list R) i :
  argmax l = Ret i →
  ∃ m, l !! i = Some m ∧
       (Forall (λ x, Risnan x = false) l → is_first_max l i m) ∧
       (Exists (λ x, Risnan x = true) l → is_first_nan l i).
Proof.
  destruct l as [|x l]; [done|]. simpl. intros Hi. inversion Hi as [Hi'].
  assert (Hmax : Forall (λ x, Risnan x = false) (x :: l) →
                 ∃ m, is_first_max (x :: l) (argmax_from 0 x 1 l) m).
  { intros Hall. apply (argmax_from_first_max l [x] 0%nat x Hall).
    repeat split; [|intros; lia].
    intros [|j] y Hj; simpl in Hj; [|done].
    inversion Hj; subst. apply Rltb_irrefl. }
  assert (Hnan : Exists (λ x, Risnan x = true) (x :: l) →
                 is_first_nan (x :: l) (argmax_from 0 x 1 l)).
  { intros Hex. destruct (Risnan x) eqn:Hx.
    - rewrite argmax_from_nan by done. split; [by exists x|intros; lia].
    - apply Exists_cons in Hex as [Hex|Hex]; [congruence|].
      apply (argmax_from_first_nan l [x] 0%nat x); [|done..].
      by constructor. }
  destruct (decide (Forall (λ x, Risnan x = false) (x :: l))) as [Hall|Hnot].
  - destruct (Hmax Hall) as [m Hm]. exists m.
    split; [apply Hm|]. split; [done|]. apply Hnan.
  - assert (Hex : Exists (λ x, Risnan x = true) (x :: l)).
    { apply not_Forall_Exists in Hnot; [|apply _].
      eapply Exists_impl; [exact Hnot|]. intros y Hy. simpl in Hy.
      by destruct (Risnan y). }
    destruct (Hnan Hex) as [(m & Hm & _) _]. exists m.
    split; [done|]. split; [done|]. apply Hnan.
Qed.

(** *** The results of the sub-batches on the joint path *)

Lemma cat0_concat_rows (ts : list (tensor R)) T :
  cat0 ts = Ret T → T = concat_rows ts.
Proof.
  unfold cat0, concat_rows, row_shape. destruct ts as [|t ts']; [done|].
  simpl. destruct (shape t) as [|n sh]; [done|].
  destruct (_ && _); [|done]. by inversion 1.
Qed.

Lemma post_calls_log_solver X o (w : world') :
  post_calls (log (EvSolver X o) w) = post_calls w.
Proof. unfold post_calls, log. simpl. by rewrite omap_app, app_nil_r. Qed.

Lemma not_solver_or_post_calls {A} (m : M' A) (w : world') :
  emits_only not_solver_or_post m →
  solver_calls (m w).2 = solver_calls w ∧ post_calls (m w).2 = post_calls w.
Proof.
  intros Hm. destruct (Hm w) as (evs & Hevs & Hall).
  unfold solver_calls, post_calls. rewrite Hevs, !omap_app.
  assert (Hnil : omap (λ ev : @event R,
                         match ev with EvSolver X _ => Some X | _ => None end)
                   evs = [] ∧
                 omap (λ ev : @event R,
                         match ev with EvPost X => Some X | _ => None end)
                   evs = []).
  { clear Hevs. induction Hall as [|ev evs Hev _ [IH1 IH2]]; [done|].
    destruct ev; simpl in Hev; try done; csimpl; by rewrite ?IH1, ?IH2. }
  destruct Hnil as [-> ->]. by rewrite !app_nil_r.
Qed.

Lemma gen_batch_initial_conditions_not_solver acq bounds q nr raw opts :
  emits_only not_solver_or_post
    (gen_batch_initial_conditions E fuel acq bounds q nr raw opts).
Proof.
  apply gen_batch_initial_conditions_emits; try done.
  intros X rows bl. by apply score_batches_emits.
Qed.

(** The loop over the restarts returns what the solver returned on the
    sub-batches, in the order of its calls. *)
Lemma solve_batches_results k acq bounds opts ineq eq ff bic nr bl start cl vl
    (w w' : world') r :
  solve_batches E k acq bounds opts ineq eq ff bic nr bl start cl vl w =
    (Ret r, w') →
  ∃ Xs rs,
    solver_calls w' = solver_calls w ++ Xs ∧
    post_calls w' = post_calls w ∧ X_pending w' = X_pending w ∧
    Forall2 (λ X cv, solve_sub_batch acq bounds opts ineq eq ff (X_pending w)
                       X = Ret cv) Xs rs ∧
    r = (cl ++ rs.*1, vl ++ rs.*2).
Proof.
  revert start cl vl w. induction k as [|k IH]; intros start cl vl w Hrun;
    simpl in Hrun.
  - destruct (start <? nr); [done|]. inversion Hrun; subst.
    exists [], []. simpl. by rewrite !app_nil_r.
  - destruct (start <? nr).
    + apply run_bind_inv in Hrun as (X & w1 & HX & Hrun).
      apply run_bind_inv in Hrun as (lo & w2 & Hlo & Hrun).
      apply run_bind_inv in Hrun as (hi & w3 & Hhi & Hrun).
      apply run_bind_inv in Hrun as ([c v] & w4 & Hsolve & Hrun).
      inversion HX as [[HX0 Hw1]]. inversion Hlo as [[Hlo0 Hw2]].
      inversion Hhi as [[Hhi0 Hw3]]. subst w1 w2 w3.
      unfold call_solver in Hsolve. inversion Hsolve as [[Hs0 Hw4]].
      apply IH in Hrun as (Xs & rs & Hcalls & Hpost & Hpend & Hall & ->).
      rewrite <- Hw4 in Hcalls, Hpost, Hpend, Hall. simpl in Hpend, Hall.
      exists (X :: Xs), ((c, v) :: rs). split; [|split; [|split; [|split]]].
      * by rewrite Hcalls, solver_calls_log, <- (assoc_L (++)).
      * by rewrite Hpost, post_calls_log_solver.
      * done.
      * constructor; [|done]. unfold solve_sub_batch.
        by rewrite Hlo0, Hhi0.
      * simpl. by rewrite <- !(assoc_L (++)).
    + inversion Hrun; subst. exists [], []. simpl. by rewrite !app_nil_r.
Qed.

(** The all-restarts call on the joint path returns the results of the
    solver on the sub-batches, concatenated, the candidates after
    post-processing. *)
Lemma joint_all_restarts_inv acq bounds q nr raw opts ineq eq ff post bic
    (w w' : world') C V :
  optimize_acqf_joint E fuel acq bounds q nr raw opts ineq eq ff post bic
    false w = (Ret (C, V), w') →
  ∃ Xs rs,
    solver_calls w' = solver_calls w ++ Xs ∧
    Forall2 (λ X cv, solve_sub_batch acq bounds (default ∅ opts) ineq eq ff
                       (X_pending w) X = Ret cv) Xs rs ∧
    rs ≠ [] ∧
    post_processed post (concat_rows rs.*1) = Ret C ∧
    V = concat_rows rs.*2 ∧
    post_calls w' =
    post_calls w ++ match post with
                    | Some _ => [concat_rows rs.*1]
                    | None => []
                    end.
Proof.
  intros Hrun. unfold optimize_acqf_joint in Hrun.
  apply run_bind_inv in Hrun as (b & w1 & Hb & Hrun).
  apply run_bind_inv in Hrun as (bl & w2 & Hbl & Hrun).
  apply run_bind_inv in Hrun as ([cl vl] & w3 & Hsolve & Hrun).
  apply run_bind_inv in Hrun as (C0 & w4 & HC0 & Hrun).
  apply run_bind_inv in Hrun as (V0 & w5 & HV0 & Hrun).
  apply run_bind_inv in Hrun as (C' & w6 & HC' & Hrun).
  inversion Hrun; subst C' V0 w6. clear Hrun.
  assert (Hw1 : solver_calls w1 = solver_calls w ∧
                post_calls w1 = post_calls w ∧ X_pending w1 = X_pending w).
  { destruct bic as [b0|]; [by inversion Hb|].
    pose proof (not_solver_or_post_calls _ w
                  (gen_batch_initial_conditions_not_solver acq bounds
                     (if is_analytic acq then None else Some q) nr raw
                     (Some (default ∅ opts)))) as [Hs Hp].
    pose proof (gen_batch_initial_conditions_pending acq bounds
                  (if is_analytic acq then None else Some q) nr raw
                  (Some (default ∅ opts)) w) as Hview.
    rewrite Hb in Hs, Hp, Hview. simpl in Hs, Hp, Hview.
    by inversion Hview. }
  destruct Hw1 as (Hs1 & Hp1 & Hx1).
  assert (Hw2 : w2 = w1).
  { destruct (default ∅ opts !! "batch_limit"); by inversion Hbl. }
  subst w2.
  apply solve_batches_results in Hsolve
    as (Xs & rs & Hcalls & Hpost & Hpend & Hall & Hr).
  simpl in Hr. inversion Hr; subst cl vl. clear Hr.
  inversion HC0 as [[HC0' Hw4]]. inversion HV0 as [[HV0' Hw5]]. subst w4 w5.
  apply cat0_concat_rows in HC0' as ->. apply cat0_concat_rows in HV0' as ->.
  exists Xs, rs. rewrite Hx1 in Hall.
  split; [|split; [done|split; [|split; [|split; [done|]]]]].
  - destruct post as [f|].
    + unfold call_post in HC'. inversion HC' as [[Hf Hw']].
      by rewrite solver_calls_post, Hcalls, Hs1.
    + inversion HC'; subst. by rewrite Hcalls, Hs1.
  - intros ->. by inversion HC0.
  - destruct post as [f|]; simpl.
    + unfold call_post in HC'. by inversion HC'.
    + by inversion HC'.
  - destruct post as [f|].
    + unfold call_post in HC'. inversion HC' as [[Hf Hw']].
      unfold post_calls, log at 1. simpl. rewrite omap_app. simpl.
      fold (post_calls w3). by rewrite Hpost, Hp1.
    + inversion HC'; subst. by rewrite app_nil_r, Hpost, Hp1.
Qed.

Lemma sum_first_dim_vectors (vs : list (tensor R)) :
  Forall (λ v, shape v = [length (data v)]) vs →
  sum_list (first_dim <$> vs) = length (concat (data <$> vs)).
Proof.
  induction 1 as [|v vs Hv _ IH]; [done|].
  rewrite !fmap_cons. simpl. rewrite length_app, IH.
  unfold first_dim. by rewrite Hv.
Qed.

Lemma concat_rows_vector (vs : list (tensor R)) :
  vs ≠ [] → Forall (λ v, shape v = [length (data v)]) vs →
  shape (concat_rows vs) = [length (data (concat_rows vs))].
Proof.
  intros Hne Hall. unfold concat_rows. simpl.
  rewrite (sum_first_dim_vectors vs Hall).
  destruct vs as [|v vs']; [done|]. simpl. by rewrite (Forall_inv Hall).
Qed.


(** *** Post-processing *)

(** X20: On the joint path a run that returns has applied the
    post-processing function, when there is one, exactly once, to the
    candidates that the solver returned on the sub-batches, laid end to end
    in the order of the solver calls, and before the best restart is
    selected: with [return_best_only=False] its result is what is returned,
    otherwise one row of it.  Without a post-processing function these
    candidates are used as they are. *)
Theorem post_processing_is_applied_once acq bounds q nr raw opts ineq eq ff
    post bic rbo (w w' : world') r :
  optimize_acqf E fuel acq bounds q nr raw opts ineq eq ff post bic rbo false
    w = (Ret r, w') →
  ∃ Xs rs C,
    solver_calls w' = solver_calls w ++ Xs ∧
    Forall2 (λ X cv, solve_sub_batch acq bounds (default ∅ opts) ineq eq ff
                       (X_pending w) X = Ret cv) Xs rs ∧
    post_processed post (concat_rows rs.*1) = Ret C ∧
    post_calls w' =
    post_calls w ++ match post with
                    | Some _ => [concat_rows rs.*1]
                    | None => []
                    end ∧
    if rbo then ∃ i, select0 C i = Ret r.1 else r.1 = C.
Proof.
  unfold optimize_acqf. simpl. destruct r as [c v]. destruct rbo.
  - rewrite joint_best_via_all. intros Hrun.
    apply run_bind_inv in Hrun as ([C V] & w1 & Hall & Hpick).
    pose proof (pick_best_pure (C, V) w1) as Hw. rewrite Hpick in Hw.
    simpl in Hw. subst w1.
    unfold pick_best in Hpick. simpl in Hpick.
    apply run_bind_inv in Hpick as (i & w2 & Hi & Hpick).
    apply run_bind_inv in Hpick as (c' & w3 & Hc & Hpick).
    apply run_bind_inv in Hpick as (v' & w4 & Hv & Hpick).
    inversion Hpick; subst c' v' w4. rewrite run_lift in Hc.
    apply joint_all_restarts_inv in Hall
      as (Xs & rs & Hcalls & Hsolved & _ & Hpost & _ & Hpc).
    exists Xs, rs, C. repeat (split; [done|]). exists i. simpl.
    by inversion Hc.
  - intros Hall.
    apply joint_all_restarts_inv in Hall
      as (Xs & rs & Hcalls & Hsolved & _ & Hpost & _ & Hpc).
    exists Xs, rs, c. by repeat (split; [done|]).
Qed.

(** *** The pending points on every exit of a sequential call *)

(** One pass of the greedy loop. *)
Lemma sequential_loop_step k acq bounds nr raw opts ineq eq ff post base cl vl
    c0 (w : world') :
  sequential_loop E fuel (S k) acq bounds nr raw opts ineq eq ff post base cl
    vl c0 w =
  match optimize_acqf_joint E fuel acq bounds 1 nr raw (Some opts) ineq eq ff
          post None true w with
  | (Ret (cand, val), w1) =>
      match cat_m2 (cl ++ [cand]) with
      | Ret c =>
          match pending_with base c with
          | Ret p =>
              sequential_loop E fuel k acq bounds nr raw opts ineq eq ff post
                base (cl ++ [cand]) (vl ++ [val]) c
                (mkWorld (Some p) (rng w1) (warnings w1)
                   (trace w1 ++ [EvSetPending (Some p)]))
          | Raise e => (Raise e, w1)
          | Diverge => (Diverge, w1)
          end
      | Raise e => (Raise e, w1)
      | Diverge => (Diverge, w1)
      end
  | (Raise e, w1) => (Raise e, w1)
  | (Diverge, w1) => (Diverge, w1)
  end.
Proof.
  cbn [sequential_loop]. rewrite run_bind.
  destruct (optimize_acqf_joint E fuel acq bounds 1 nr raw (Some opts) ineq
              eq ff post None true w) as [[[cand val]|e|] w1]; [|done..].
  rewrite run_bind, run_lift.
  destruct (cat_m2 (cl ++ [cand])) as [c| |]; [|done..].
  rewrite run_bind. unfold pending_with.
  destruct base as [b|].
  - rewrite run_lift. by destruct (cat_m2 [b; c]).
  - done.
Qed.

(** A pass of the greedy loop that does not return: either the first pass
    failed, before the pending points were set, or [n] passes set them and
    the next one failed. *)
Lemma sequential_loop_exit k acq bounds nr raw opts ineq eq ff post base cl vl
    c0 (w : world') :
  let r :=
    sequential_loop E fuel k acq bounds nr raw opts ineq eq ff post base cl
      vl c0 w in
  (∀ x, r.1 ≠ Ret x) →
  pending_view r.2 = pending_view w ∨
  ∃ news c p ps,
    (1 ≤ length news < k)%nat ∧ cat_m2 (cl ++ news) = Ret c ∧
    pending_with base c = Ret p ∧ X_pending r.2 = Some p ∧
    length ps = length news ∧ last ps = Some p ∧
    pending_accesses (trace r.2) =
    pending_accesses (trace w) ++ ((λ p, EvSetPending (Some p)) <$> ps).
Proof.
  revert cl vl c0 w. induction k as [|k IH]; intros cl vl c0 w r Hfail.
  - exfalso. by eapply Hfail.
  - subst r. rewrite sequential_loop_step in *.
    pose proof (optimize_acqf_joint_pending acq bounds 1 nr raw (Some opts)
                  ineq eq ff post None true w) as Hview.
    destruct (optimize_acqf_joint E fuel acq bounds 1 nr raw (Some opts) ineq
                eq ff post None true w) as [[[cand val]|e|] w1];
      simpl in Hview; [|by left..].
    destruct (cat_m2 (cl ++ [cand])) as [c| |] eqn:Hc; [|by left..].
    destruct (pending_with base c) as [p| |] eqn:Hpw; [|by left..].
    set (w4 := mkWorld (Some p) (rng w1) (warnings w1)
                 (trace w1 ++ [EvSetPending (Some p)])) in *.
    unfold pending_view in Hview.
    apply pair_equal_spec in Hview as [HX1 Htr1].
    assert (Htr4 : pending_accesses (trace w4) =
                   pending_accesses (trace w) ++ [EvSetPending (Some p)]).
    { subst w4. simpl. by rewrite pending_accesses_app, Htr1. }
    assert (Hk : k ≠ 0%nat).
    { intros ->. simpl in Hfail. by eapply Hfail. }
    right. destruct (IH _ _ _ _ Hfail) as [Hsame|Hlater].
    + exists [cand], c, p, [p]. unfold pending_view in Hsame.
      apply pair_equal_spec in Hsame as [HX4 Hpa4].
      split; [simpl; lia|]. split; [done|]. split; [done|].
      split; [done|]. split; [done|]. split; [done|].
      etrans; [exact Hpa4|exact Htr4].
    + destruct Hlater
        as (news & c' & p' & ps & Hlen & Hc' & Hpw' & HX & Hps & Hlast & Hpa).
      exists (cand :: news), c', p', (p :: ps).
      split; [simpl; lia|]. split; [by rewrite <- (assoc_L (++)) in Hc'|].
      split; [done|]. split; [done|]. split; [simpl; lia|]. split.
      * by rewrite last_cons, Hlast.
      * by rewrite Hpa, Htr4, <- (assoc_L (++)).
Qed.


End Properties.

(** ** The properties at concrete inputs *)

Import Example.

(** The collaborators of the example respect their shape contracts. *)
Lemma ext_shape_contracts maxdim dbg : shape_contracts (ext maxdim dbg).
Proof.
  split; [|split].
  - intros acq p X lo hi o i e f c v Hs. simpl in Hs. unfold id_solver in Hs.
    by inversion Hs.
  - intros b n q seed g X g' d Hs Hd. simpl in Hs. unfold const_sobol in Hs.
    inversion Hs; subst. simpl. unfold shape_last in Hd.
    destruct (last (shape b)); by inversion Hd.
  - intros nonneg X Y n kw g b ws g' Hi.
    assert (Hb : (if (0 <=? n) && (n <=? Z.of_nat (first_dim X))
                  then slice0 X 0 n else Raise RuntimeError) = Ret b).
    { destruct nonneg; simpl in Hi; unfold first_n_init in Hi;
        by inversion Hi. }
    destruct (Z.leb_spec 0 n); [|done].
    destruct (Z.leb_spec n (Z.of_nat (first_dim X))); [|done].
    simpl in Hb. unfold slice0, first_dim in *.
    destruct (shape X) as [|N sh]; [done|]. inversion Hb; subst. simpl in *.
    f_equal. unfold slice_index.
    destruct (Z.ltb_spec 0 0); [lia|]. destruct (Z.ltb_spec n 0); [lia|].
    rewrite (Z.min_l n), (Z.min_l 0) by lia. simpl. lia.
Qed.




(** C4 (as amended) on an acquisition function that is zero everywhere. *)
Lemma retries_follow_schedule_witness :
  ∃ k, (Nat.min (4 + 1) 4 ≤ k ≤ 4)%nat ∧
       sampling_events
         (gen_batch_initial_conditions (ext 10 false) 10 zero_acq bounds1
            (Some 1) 2 3 (Some zero_options) w0).2 =
       sampling_events w0 ++
       take k (attempt_schedule (ext 10 false) bounds1 1 1 3 (Some 7)).
Proof.
  destruct (zero_chain 4) as [[s' w']|] eqn:Hchain;
    [|vm_compute in Hchain; discriminate].
  apply (retries_follow_schedule (ext 10 false) 10 zero_acq bounds1 (Some 1)
           2 3 (Some zero_options) (Some 7) None 1 false ∅ 4 s' w' w0).
  - vm_compute. reflexivity.
  - vm_compute. reflexivity.
  - reflexivity.
  - vm_compute. reflexivity.
  - lia.
  - apply degenerate_run_steps. exact Hchain.
Defined.

(** C4, as stated, fails: with every attempt degenerate the sampler is called
    four times, not five, before the loop gives up. *)
Lemma retries_capped_at_four_not_five :
  let r :=
    gen_batch_initial_conditions (ext 10 false) 10 zero_acq bounds1 (Some 1)
      2 3 (Some zero_options) w0 in
  warnings r.2 = [(BadInitialCandidatesWarning, unable_msg)] ∧
  length (sampling_events r.2) = 4%nat ∧
  length (sampling_events r.2) ≠ 5%nat.
Proof. vm_compute. repeat split; discriminate. Qed.

(** C5 on an acquisition function that is zero everywhere. *)
Lemma exhausted_retries_return_last_batch_witness :
  let r :=
    gen_batch_initial_conditions (ext 10 false) 10 zero_acq bounds1 (Some 1)
      2 3 (Some zero_options) w0 in
  zero_attempt4.1 =
    Ret (mkTensor [2; 1; 1]%nat [3; 3], [BadInitialCandidatesWarning], 3) ∧
  r.1 = Ret (mkTensor [2; 1; 1]%nat [3; 3]) ∧
  warnings r.2 = [(BadInitialCandidatesWarning, unable_msg)].
Proof.
  simpl.
  rewrite (exhausted_retries_return_last_batch (ext 10 false) 10 zero_acq
             bounds1 (Some 1) 2 3 (Some zero_options) (Some 7) None 1 false ∅
             zero_state3.1 zero_state3.2 (mkTensor [2; 1; 1]%nat [3; 3])
             [BadInitialCandidatesWarning] 3 zero_attempt4.2 w0).
  - vm_compute. repeat split; reflexivity.
  - vm_compute. reflexivity.
  - vm_compute. reflexivity.
  - reflexivity.
  - vm_compute. reflexivity.
  - lia.
  - apply degenerate_run_steps. vm_compute. reflexivity.
  - vm_compute. reflexivity.
  - reflexivity.
Defined.

(** C6 (as amended) with a maximal dimension of zero and the debug setting
    on. *)
Lemma sampling_dimension_fallback_witness :
  let E := ext 0 true in
  sampling_warnings
    (gen_batch_initial_conditions E 10 first_coord bounds1 (Some 1) 2 3 None
       w0).2 = [(SamplingWarning, sampling_msg)] ∧
  ∃ X, draw_X_rnd E bounds1 2 1 1 1 None w0 =
         (Ret X, (call_rand E None 2 w0).2) ∧
       shape X = [2; 1; 1]%nat ∧
       ∀ k u, [0; 1] !! k = Some u →
         ∃ lo hi, data bounds1 !! (k `mod` 1)%nat = Some lo ∧
                  data bounds1 !! (1 + k `mod` 1)%nat = Some hi ∧
                  data X !! k = Some (lo + (hi - lo) * u).
Proof.
  intros E.
  destruct (sampling_dimension_fallback E 10 first_coord bounds1 (Some 1) 2 3
              None None None 1 w0)
    as (Hwarn & _ & Hdraw); [reflexivity|reflexivity|reflexivity|lia|].
  split; [exact Hwarn|].
  apply (Hdraw 2 None [0; 1] 1%nat w0).
  - vm_compute. reflexivity.
  - reflexivity.
  - lia.
  - simpl. lia.
  - reflexivity.
  - reflexivity.
  - reflexivity.
Defined.

(** C6, as stated, fails: with the debug setting off no diagnostic is
    emitted although the sampling dimension exceeds the maximum and the
    samples are drawn by [torch.rand]. *)
Lemma no_diagnostic_without_debug :
  let E := ext 0 false in
  let r :=
    gen_batch_initial_conditions E 10 first_coord bounds1 (Some 1) 2 3 None
      w0 in
  SobolEngine_MAXDIM E < 1 * 1 ∧
  r.1 = Ret (mkTensor [2; 1; 1]%nat [3; 7]) ∧
  warnings r.2 = [] ∧
  sampling_events r.2 = [EvRand 3 None].
Proof. vm_compute. repeat split; reflexivity. Qed.

(** C7 (as amended) for [q = 2], three restarts and one dimension. *)
Lemma returned_candidates_shape_witness :
  let run rbo sequential :=
    optimize_acqf (ext 10 false) 10 first_coord bounds1 2 3 3 None None None
      None None None rbo sequential w0 in
  (∀ c v w', run true false = (Ret (c, v), w') → shape c = [2; 1]%nat) ∧
  (∀ c v w', run true true = (Ret (c, v), w') → shape c = [2; 1]%nat) ∧
  (∀ c v w', run false false = (Ret (c, v), w') → shape c = [3; 2; 1]%nat) ∧
  (run true true).1 = Ret (mkTensor [2; 1]%nat [3; 3], mkTensor [2%nat] [3; 3]).
Proof.
  assert (Hshape : ∀ rbo sequential c v w',
            optimize_acqf (ext 10 false) 10 first_coord bounds1 2 3 3 None
              None None None None None rbo sequential w0 = (Ret (c, v), w') →
            shape c = if rbo then [2; 1]%nat else [3; 2; 1]%nat).
  { intros rbo sequential c v w'.
    apply (returned_candidates_shape (ext 10 false) 10 first_coord bounds1 2
             3 3 None None None None None None rbo sequential 1 c v w0 w').
    - apply ext_shape_contracts.
    - discriminate.
    - discriminate.
    - reflexivity.
    - discriminate. }
  simpl. split; [|split; [|split]].
  - apply (Hshape true false).
  - apply (Hshape true true).
  - apply (Hshape false false).
  - vm_compute. reflexivity.
Defined.

(** C7, as stated, fails: with [return_best_only=True] the returned
    candidates have the shape [(q, d)], here [(1, 1)], on both paths; the
    restart axis is gone. *)
Lemma best_only_candidates_drop_restart_axis :
  let run sequential :=
    optimize_acqf (ext 10 false) 10 first_coord bounds1 1 3 3 None None None
      None None (Some ics3) true sequential w0 in
  (run false).1 = Ret (mkTensor [1; 1]%nat [9], scalar 9) ∧
  (run true).1 = Ret (mkTensor [1; 1]%nat [3], mkTensor [1%nat] [3]) ∧
  [1; 1]%nat ≠ [1; 1; 1]%nat.
Proof. vm_compute. repeat split; discriminate. Qed.

(** C8 (as amended) on three restarts and the solver that leaves every
    restart where it is. *)
Lemma sub_batching_restartwise_solver_witness :
  let run b :=
    optimize_acqf (ext 10 false) 10 first_coord bounds1 1 3 3
      (Some (<["batch_limit" := OInt b]> zero_options)) None None None None
      (Some ics3) false false w0 in
  ∃ w1 w2,
    run 3 = (Ret (ics3, values3), w1) ∧
    run 1 = (Ret (ics3, values3), w2) ∧
    solver_calls w1 = solver_calls w0 ++ [ics3] ∧
    solver_calls w2 = solver_calls w0 ++ (row_of ics3 <$> seq 0 3).
Proof.
  apply (sub_batching_restartwise_solver (ext 10 false) 10 first_coord bounds1
           1 3 zero_options None None None None ics3 (mkTensor [1%nat] [3])
           (mkTensor [1%nat] [7]) ics3 ics3 values3 ics3 3 [1; 1]%nat
           [1; 1]%nat [] w0).
  - lia.
  - lia.
  - reflexivity.
  - reflexivity.
  - reflexivity.
  - reflexivity.
  - reflexivity.
  - intros j Hj. destruct j as [|[|[|j]]]; [reflexivity..|lia].
  - reflexivity.
  - reflexivity.
  - reflexivity.
  - reflexivity.
  - reflexivity.
Defined.

(** C8, as stated, fails: a deterministic solver that scores every restart
    by the size of its batch returns other values with [batch_limit = 1] than
    with [batch_limit = num_restarts]. *)
Lemma sub_batching_changes_values :
  let run b :=
    optimize_acqf (ext_with batch_size_solver) 10 first_coord bounds1 1 3 3
      (Some {[ "batch_limit" := OInt b ]}) None None None None (Some ics3)
      false false w0 in
  (run 3).1 = Ret (ics3, mkTensor [3%nat] [3; 3; 3]) ∧
  (run 1).1 = Ret (ics3, mkTensor [3%nat] [1; 1; 1]) ∧
  (run 3).1 ≠ (run 1).1.
Proof. vm_compute. repeat split; discriminate. Qed.

(** C9 (as amended) on a world with a pending point. *)
Lemma sequential_q1_matches_joint_witness :
  ∃ w2,
    optimize_acqf (ext 10 false) 10 first_coord bounds1 1 2 3 None None None
      None None (Some ics3) true true w_pending =
    (Ret (mkTensor [1; 1]%nat [3], mkTensor [1%nat] [3]), w2) ∧
    X_pending w2 = X_pending w_pending ∧
    rng w2 = 1%nat ∧ warnings w2 = [].
Proof.
  destruct (sequential_q1_matches_joint (ext 10 false) 10 first_coord bounds1
              2 3 None None None None None (Some ics3)
              (mkTensor [1; 1]%nat [3]) (scalar 3) [] 1 1 w_pending
              (optimize_acqf (ext 10 false) 10 first_coord bounds1 1 2 3 None
                 None None None None None true false w_pending).2)
    as (w2 & Hrun & Hpending & Hrng & Hwarn).
  - vm_compute. reflexivity.
  - reflexivity.
  - reflexivity.
  - intros base Hbase. inversion Hbase; subst. eexists. vm_compute.
    reflexivity.
  - exists w2. split; [exact Hrun|]. split; [exact Hpending|].
    split; [rewrite Hrng|rewrite Hwarn]; vm_compute; reflexivity.
Defined.

(** C9, as stated, fails: for [q = 1] the sequential call returns its value
    as a vector of length one where the joint call returns a 0-dimensional
    tensor, and it ignores initial conditions that the joint call uses. *)
Lemma sequential_q1_differs_from_joint :
  let run bic sequential :=
    optimize_acqf (ext 10 false) 10 first_coord bounds1 1 1 3 None None None
      None None bic true sequential w0 in
  let ics1 := mkTensor [1; 1; 1]%nat [9] in
  (run None false).1 = Ret (mkTensor [1; 1]%nat [3], scalar 3) ∧
  (run None true).1 = Ret (mkTensor [1; 1]%nat [3], mkTensor [1%nat] [3]) ∧
  (run None false).1 ≠ (run None true).1 ∧
  (run (Some ics1) false).1 = Ret (mkTensor [1; 1]%nat [9], scalar 9) ∧
  (run (Some ics1) true).1 =
    Ret (mkTensor [1; 1]%nat [3], mkTensor [1%nat] [3]).
Proof. vm_compute. repeat split; discriminate. Qed.

(** ** The further properties at concrete inputs *)

(** The collaborators of the example come to an end. *)
Lemma ext_terminates maxdim dbg : collaborators_terminate (ext maxdim dbg).
Proof.
  split; [|split; [|split]].
  - by intros acq p X lo hi o i e f.
  - by intros b n q seed g.
  - intros seed count g. simpl. unfold alternating_rand.
    by destruct (count <? 0).
  - intros nonneg X Y n kw g.
    assert (Hs : (first_n_init X Y n kw g).1.1 ≠ Diverge).
    { unfold first_n_init, slice0. simpl.
      destruct (_ && _); [|done]. by destruct (shape X). }
    by destruct nonneg.
Qed.

(** X2 on three restarts and a [batch_limit] of two. *)
Lemma solver_batches_within_batch_limit_witness :
  emits_only (solver_rows_within 2)
    (optimize_acqf (ext 10 false) 10 first_coord bounds1 1 3 3
       (Some (limit_options 2)) None None None None (Some ics3) true false).
Proof.
  apply (solver_batches_within_batch_limit (ext 10 false) 10 first_coord
           bounds1 1 3 3 (Some (limit_options 2)) None None None None
           (Some ics3) true false 2).
  right. split; [vm_compute; reflexivity|lia].
Defined.

(** X3 on three raw samples and a [batch_limit] of two. *)
Lemma scoring_batches_within_batch_limit_witness :
  emits_only (acq_rows_within 2)
    (gen_batch_initial_conditions (ext 10 false) 10 zero_acq bounds1 (Some 1)
       2 3 (Some (limit_options 2))).
Proof.
  apply (scoring_batches_within_batch_limit (ext 10 false) 10 zero_acq
           bounds1 (Some 1) 2 3 (Some (limit_options 2)) 2).
  - vm_compute. reflexivity.
  - lia.
Defined.

(** X6 on three initial conditions and no restart. *)
Lemma joint_without_restarts_raises_witness :
  ∃ e, cat0 (@nil T) = Raise e ∧
       optimize_acqf (ext 10 false) 10 first_coord bounds1 1 0 3 None None
         None None None (Some ics3) true false w0 =
       (Raise e, w0).
Proof.
  apply (joint_without_restarts_raises (ext 10 false) 10 first_coord bounds1
           1 0 3 None None None None None ics3 true w0).
  - lia.
  - intros v Hv. vm_compute in Hv. discriminate.
Defined.

(** X7 on a sequential call for no candidate that starts with a pending
    point. *)
Lemma sequential_without_candidates_raises_witness :
  optimize_acqf (ext 10 false) 10 first_coord bounds1 0 2 3 None None None
    None None None true true w_pending =
  (Raise RuntimeError,
   mkWorld (X_pending w_pending) (rng w_pending) (warnings w_pending)
     (trace w_pending ++ [EvGetPending; EvSetPending (X_pending w_pending)])).
Proof.
  apply (sequential_without_candidates_raises (ext 10 false) 10 first_coord
           bounds1 0 2 3 None None None None None None w_pending).
  lia.
Defined.

(** X8 on a sequential call for two candidates. *)
Lemma sequential_values_have_q_entries_witness :
  1 ≤ 2 ∧ ∃ sh, shape (mkTensor [2%nat] [3; 3] : T) = Z.to_nat 2 :: sh.
Proof.
  apply (sequential_values_have_q_entries (ext 10 false) 10 first_coord
           bounds1 2 2 3 None None None None None None w_pending
           (optimize_acqf (ext 10 false) 10 first_coord bounds1 2 2 3 None
              None None None None None true true w_pending).2
           (mkTensor [2; 1]%nat [3; 3])).
  vm_compute. reflexivity.
Defined.

(** X9 on three restarts and a [batch_limit] of zero. *)
Lemma nonpositive_batch_limit_never_returns_witness :
  limit_options 0 !! "batch_limit" = Some (OInt 0) ∧
  ∀ r w',
    optimize_acqf (ext 10 false) 10 first_coord bounds1 1 3 3
      (Some (limit_options 0)) None None None None (Some ics3) true false
      w0 ≠ (Ret r, w').
Proof.
  split; [vm_compute; reflexivity|]. intros r w'.
  apply (nonpositive_batch_limit_never_returns (ext 10 false) 10 first_coord
           bounds1 1 3 3 (Some (limit_options 0)) None None None None
           (Some ics3) true false 0 w0 w' r).
  - vm_compute. reflexivity.
  - lia.
  - lia.
  - discriminate.
Defined.

(** X10 on a sequential call for two candidates that starts with a pending
    point. *)
Lemma sequential_pending_protocol_witness :
  let r :=
    optimize_acqf (ext 10 false) 10 first_coord bounds1 2 2 3 None None None
      None None None true true w_pending in
  ∃ ps p,
    length ps = Z.to_nat 2 ∧ last ps = Some p ∧
    pending_with (X_pending w_pending) (mkTensor [2; 1]%nat [3; 3]) = Ret p ∧
    pending_accesses (trace r.2) =
    pending_accesses (trace w_pending) ++
    EvGetPending :: ((λ p, EvSetPending (Some p)) <$> ps) ++
    [EvSetPending (X_pending w_pending)].
Proof.
  intros r.
  apply (sequential_pending_protocol (ext 10 false) 10 first_coord bounds1 2
           2 3 None None None None None None w_pending r.2
           (mkTensor [2; 1]%nat [3; 3]) (mkTensor [2%nat] [3; 3])).
  vm_compute. reflexivity.
Defined.

(** X12 on an acquisition function that is non-zero on the first samples. *)
Lemma good_attempt_is_returned_at_once_witness :
  gen_batch_initial_conditions (ext 10 false) 10 first_coord bounds1 (Some 1)
    2 3 None w0 =
  (Ret (mkTensor [2; 1; 1]%nat [3; 3]), first_attempt.2).
Proof.
  apply (good_attempt_is_returned_at_once (ext 10 false) 10 first_coord
           bounds1 (Some 1) 2 3 None None None 1 false ∅ 0 start_state w0
           (mkTensor [2; 1; 1]%nat [3; 3]) [] 3 first_attempt.2 w0).
  - vm_compute. reflexivity.
  - vm_compute. reflexivity.
  - reflexivity.
  - vm_compute. reflexivity.
  - lia.
  - lia.
  - apply degenerate_run_steps. vm_compute. reflexivity.
  - vm_compute. reflexivity.
  - reflexivity.
Defined.

(** X15 on an acquisition function that is zero everywhere, for which every
    attempt is degenerate. *)
Lemma default_scoring_batch_is_first_sample_size_witness :
  emits_only (acq_rows_within 3)
    (gen_batch_initial_conditions (ext 10 false) 10 zero_acq bounds1 (Some 1)
       2 3 None).
Proof.
  apply (default_scoring_batch_is_first_sample_size (ext 10 false) 10
           zero_acq bounds1 (Some 1) 2 3 None).
  - apply ext_shape_contracts.
  - vm_compute. reflexivity.
Defined.

(** X16 on a sequential call for two candidates. *)
Lemma optimize_acqf_terminates_witness :
  terminates
    (optimize_acqf (ext 10 false) 12 first_coord bounds1 2 3 3 None None None
       None None None true true).
Proof.
  apply (optimize_acqf_terminates (ext 10 false) 12 first_coord bounds1 2 3 3
           None None None None None None true true).
  - apply ext_terminates.
  - apply ext_shape_contracts.
  - discriminate.
  - discriminate.
  - left. vm_compute. reflexivity.
  - lia.
  - lia.
  - lia.
Defined.

(** X17 on three restarts and a [batch_limit] of two. *)
Lemma sub_batches_cover_initial_conditions_witness :
  let r :=
    optimize_acqf (ext 10 false) 10 first_coord bounds1 1 3 3
      (Some (limit_options 2)) None None None None (Some ics3) false false
      w0 in
  ∃ Xs, solver_calls r.2 = solver_calls w0 ++ Xs ∧ cat0 Xs = Ret ics3.
Proof.
  intros r.
  apply (sub_batches_cover_initial_conditions (ext 10 false) 10 first_coord
           bounds1 1 3 3 (Some (limit_options 2)) None None None None ics3
           false [1; 1]%nat w0 r.2 (ics3, values3)).
  - right. exists 2. split; [vm_compute; reflexivity|lia].
  - reflexivity.
  - reflexivity.
  - vm_compute. reflexivity.
Defined.


(** X20 on three restarts in sub-batches of two and one, and a
    post-processing function that is the identity. *)
Lemma post_processing_is_applied_once_witness :
  let r :=
    optimize_acqf (ext 10 false) 10 first_coord bounds1 1 3 3
      (Some (limit_options 2)) None None None (Some Ret) (Some ics3) false
      false w0 in
  ∃ Xs rs C,
    solver_calls r.2 = solver_calls w0 ++ Xs ∧
    Forall2 (λ X cv, solve_sub_batch (ext 10 false) first_coord bounds1
                       (limit_options 2) None None None (X_pending w0) X =
                     Ret cv) Xs rs ∧
    post_processed (Some Ret) (concat_rows rs.*1) = Ret C ∧
    post_calls r.2 = post_calls w0 ++ [concat_rows rs.*1] ∧
    (ics3, values3).1 = C.
Proof.
  intros r.
  apply (post_processing_is_applied_once (ext 10 false) 10 first_coord
           bounds1 1 3 3 (Some (limit_options 2)) None None None (Some Ret)
           (Some ics3) false w0 r.2 (ics3, values3)).
  vm_compute. reflexivity.
Defined.
